(** * sql-migrate: planner and executor of [migrate.go]

    A shallow embedding of [migrate.go]: [ToApply], [PlanMigration],
    [ExecMax] and [Exec], with the memory source.  Go [int] values are
    integers of [Z] (slice lengths stay far below the 64-bit range, so no
    wrap-around arises), Go strings are [string] (sequences of bytes,
    compared bytewise as Go's [<=] does), slices are lists, a function that
    returns [(T, error)] returns a pair whose second component is [None]
    for [nil], and a Go panic is an explicit outcome.  A slice of pointers
    to migrations is modelled twice: by the list of the values pointed to,
    which is what the properties of the planner and the executor are
    stated on and which stands for a slice without a nil pointer; and, in
    module [Pointers], by the list of the pointers themselves, a nil
    pointer included, on which the code panics where it reads through
    one. *)

From stdpp Require Import base numbers option list strings gmap sorting.

Local Open Scope Z_scope.

(** ** Outcomes of Go code: a value, or a panic.

    [Diverged] is returned by a loop of the model whose iteration bound ran
    out while its condition still held; the theorems below show that it
    never occurs. *)

Inductive outcome (A : Type) : Type :=
| Done (a : A)
| Panicked (msg : string)
| Diverged.
Arguments Done {A} a.
Arguments Panicked {A} msg.
Arguments Diverged {A}.

Global Instance outcome_ret : MRet outcome := @Done.
Global Instance outcome_bind : MBind outcome := λ A B f o,
  match o with
  | Done a => f a
  | Panicked msg => Panicked msg
  | Diverged => Diverged
  end.

(** ** Slices *)

Definition len {A} (l : list A) : Z := Z.of_nat (length l).

(** [l[i]]: panics out of range. *)
Definition at_index {A} (l : list A) (i : Z) : outcome A :=
  if bool_decide (0 ≤ i < len l) then
    match l !! Z.to_nat i with
    | Some a => Done a
    | None => Panicked "index out of range"
    end
  else Panicked "index out of range".

(** [l[i] = a]: panics out of range. *)
Definition set_index {A} (l : list A) (i : Z) (a : A) : outcome (list A) :=
  if bool_decide (0 ≤ i < len l) then Done (<[Z.to_nat i := a]> l)
  else Panicked "index out of range".

(** [l[lo:]] *)
Definition slice_from {A} (l : list A) (lo : Z) : outcome (list A) :=
  if bool_decide (0 ≤ lo ≤ len l) then Done (drop (Z.to_nat lo) l)
  else Panicked "slice bounds out of range".

(** [l[0:hi]] *)
Definition slice_to {A} (l : list A) (hi : Z) : outcome (list A) :=
  if bool_decide (0 ≤ hi ≤ len l) then Done (take (Z.to_nat hi) l)
  else Panicked "slice bounds out of range".

(** [make([]T, n)]: [n] zero values. *)
Definition make {A} (zero : A) (n : Z) : outcome (list A) :=
  if bool_decide (0 ≤ n) then Done (replicate (Z.to_nat n) zero)
  else Panicked "makeslice: len out of range".

(** ** Data model *)

(** [type MigrationDirection int] *)
Definition MigrationDirection : Type := Z.
Definition Up : MigrationDirection := 0.
Definition Down : MigrationDirection := 1.

Module Migration.
Record t : Type := mk {
    Id : string;
    Up : list string;
    Down : list string;
  }.
  (** The zero value [Migration{}], which stands for the target of a nil
      pointer in a freshly made slice. *)
Definition zero : t := {| Id := ""; Up := []; Down := [] |}.
End Migration.

Module PlannedMigration.
Record t : Type := mk {
    Migration : Migration.t;
    Queries : list string;
  }.
Definition Id (p : t) : string := Migration.Id (Migration p).
End PlannedMigration.

Module MigrationRecord.
Record t : Type := mk {
    Id : string;
    AppliedAt : Z;
  }.
Definition zero : t := {| Id := ""; AppliedAt := 0 |}.
End MigrationRecord.

(** [byId]: the [sort.Interface] methods. *)
Module byId.
Definition Len (b : list Migration.t) : Z := len b.
Definition Swap (b : list Migration.t) (i j : Z) : outcome (list Migration.t) :=
    bi ← at_index b i;
    bj ← at_index b j;
    b' ← set_index b i bj;
    set_index b' j bi.
Definition Less (b : list Migration.t) (i j : Z) : outcome bool :=
    bi ← at_index b i;
    bj ← at_index b j;
    mret (String.ltb (Migration.Id bi) (Migration.Id bj)).
End byId.

(** ** ToApply *)

(** The scan of [ToApply]:
    [for index < len(migrations)-1 && migrations[index+1].Id <= current { index++ }]. *)
Fixpoint ToApply_scan (fuel : nat) (migrations : list Migration.t)
    (current : string) (index : Z) : outcome Z :=
  match fuel with
  | O => Diverged
  | S fuel' =>
    if bool_decide (index < len migrations - 1) then
      m ← at_index migrations (index + 1);
      if String.leb (Migration.Id m) current
      then ToApply_scan fuel' migrations current (index + 1)
      else Done index
    else Done index
  end.

(** The cursor: [index] after the scan, which starts at [-1]. *)
Definition ToApply_cursor (migrations : list Migration.t) (current : string) : outcome Z :=
  ToApply_scan (S (length migrations)) migrations current (-1).

(** [for i := 0; i < index+1; i++ { toApply[index-i] = migrations[i] }] *)
Fixpoint ToApply_fill (fuel : nat) (migrations : list Migration.t) (index i : Z)
    (toApply : list Migration.t) : outcome (list Migration.t) :=
  match fuel with
  | O => Diverged
  | S fuel' =>
    if bool_decide (i < index + 1) then
      m ← at_index migrations i;
      toApply' ← set_index toApply (index - i) m;
      ToApply_fill fuel' migrations index (i + 1) toApply'
    else Done toApply
  end.

Definition ToApply (migrations : list Migration.t) (current : string)
    (direction : MigrationDirection) : outcome (list Migration.t) :=
  index ← ToApply_cursor migrations current;
  if bool_decide (direction = Up) then
    slice_from migrations (index + 1)
  else if bool_decide (direction = Down) then
    if bool_decide (index = -1) then Done []
    else
      toApply ← make Migration.zero (index + 1);
      ToApply_fill (S (length migrations)) migrations index 0 toApply
  else Panicked "Not possible".

(** ** Errors *)

(** Go [error] values: the two sentinels of [database/sql] that matter here,
    and errors carrying a message ([fmt.Errorf], driver errors). *)
Inductive error : Type :=
| ErrNoRows
| ErrTxDone
| Errorf (msg : string).

Global Instance error_eq_dec : EqDecision error.
Proof. solve_decision. Defined.

(** ** Dialects *)

Inductive Dialect : Type :=
| SqliteDialect
| PostgresDialect
| MySQLDialect (engine encoding : string)
| SqlServerDialect
| OracleDialect.

Definition MigrationDialects : gmap string Dialect :=
  list_to_map [
    ("sqlite3", SqliteDialect);
    ("postgres", PostgresDialect);
    ("mysql", MySQLDialect "InnoDB" "UTF8");
    ("mssql", SqlServerDialect);
    ("oci8", OracleDialect)
  ].

Module DbMap.
Record t : Type := mk {
    Dialect : Dialect;
    TableName : string;
  }.
End DbMap.

Definition getMigrationDbMap (dialect : string) : option DbMap.t * option error :=
  match MigrationDialects !! dialect with
  | None => (None, Some (Errorf ("Unknown dialect: " +:+ dialect)))
  | Some d => (Some {| DbMap.Dialect := d; DbMap.TableName := "gorp_migrations" |}, None)
  end.

(** ** Migration sources *)

Class MigrationSource (Src : Type) : Type :=
  FindMigrations : Src → list Migration.t * option error.

Record MemoryMigrationSource : Type := { Migrations : list Migration.t }.

Global Instance MemoryMigrationSource_source : MigrationSource MemoryMigrationSource :=
  λ m, (Migrations m, None).

(** ** The datastore

    A store holds the rows of the ledger table [gorp_migrations] and, as
    the effect of the migrations' statements, the statements executed so
    far in their order.  Statements are opaque: they act on the schema and
    leave the ledger table alone. *)

Record Store : Type := {
  ledger : list MigrationRecord.t;
  statements : list string;
}.

(** The calls made to the driver and to the migration source, kept as a
    trace. *)
Inductive Call : Type :=
| CallCreateTables
| CallFindMigrations
| CallSelectOne
| CallBegin
| CallExec (stmt : string)
| CallInsert (id : string)
| CallDelete (id : string)
| CallCommit
| CallRollback.

Global Instance Call_eq_dec : EqDecision Call.
Proof. solve_decision. Defined.

(** The world: the committed store, the transactions begun and neither
    committed nor rolled back yet (newest first, each with its own working
    copy of the store), the clock read by [time.Now], and the trace. *)
Record World : Type := {
  committed : Store;
  open : list Store;
  clock : Z;
  calls : list Call;
}.

Definition log (c : Call) (w : World) : World :=
  {| committed := committed w; open := open w; clock := clock w;
     calls := calls w ++ [c] |}.

Definition set_open (txs : list Store) (w : World) : World :=
  {| committed := committed w; open := txs; clock := clock w; calls := calls w |}.

Definition set_committed (s : Store) (w : World) : World :=
  {| committed := s; open := open w; clock := clock w; calls := calls w |}.

Definition ids (rs : list MigrationRecord.t) : list string :=
  MigrationRecord.Id <$> rs.

(** The row [SELECT * FROM gorp_migrations ORDER BY id DESC LIMIT 1] yields:
    the record of greatest id, ids being compared bytewise. *)
Fixpoint newest (rs : list MigrationRecord.t) : option MigrationRecord.t :=
  match rs with
  | [] => None
  | r :: rs' =>
    match newest rs' with
    | None => Some r
    | Some b =>
      if String.leb (MigrationRecord.Id b) (MigrationRecord.Id r) then Some r else Some b
    end
  end.

(** Code that acts on the world and may panic. *)
Definition M (A : Type) : Type := World → World * outcome A.

Global Instance M_ret : MRet M := λ A a w, (w, Done a).
Global Instance M_bind : MBind M := λ A B f c w,
  match c w with
  | (w', Done a) => f a w'
  | (w', Panicked msg) => (w', Panicked msg)
  | (w', Diverged) => (w', Diverged)
  end.

Definition panic {A} (msg : string) : M A := λ w, (w, Panicked msg).

(** Code that does not touch the world. *)
Definition pure {A} (o : outcome A) : M A := λ w, (w, o).

(** [time.Now()]: reads the clock, which advances. *)
Definition time_Now : M Z := λ w,
  ({| committed := committed w; open := open w; clock := clock w + 1;
      calls := calls w |}, Done (clock w)).

(** ** The driver *)

(** Modelled from the spec: the datastore driver ([database/sql] under
    [gorp]) and the sort of the standard library, which [migrate.go] calls
    and does not contain.  The driver has the transactional behaviour of
    the spec's datastore capability: a transaction works on its own copy of
    the store, a commit installs it, a rollback drops it, and the ledger
    table has [id] as its key.  Which of the calls fail is left open:
    [fault w c] is the message of the error with which call [c] fails in
    world [w], if it does.  The transaction handle is implicit: the calls
    on [trans] act on the newest open transaction, the only one [ExecMax]
    holds at a time.  [sort_Sort] stands for [sort.Sort(byId(...))]; what
    is assumed of it is [sort_contract] below. *)

Section Driver.

Context (fault : World → Call → option string).
Context (sort_Sort : list Migration.t → list Migration.t).

Definition failure (w : World) (c : Call) : option error := Errorf <$> fault w c.

(** [dbMap.CreateTablesIfNotExists()] *)
Definition dbMap_CreateTablesIfNotExists (dbMap : DbMap.t) : M (option error) := λ w,
  (log CallCreateTables w, Done (failure w CallCreateTables)).

(** [dbMap.SelectOne(&record, "SELECT * FROM gorp_migrations ORDER BY id DESC LIMIT 1")]:
    the holder is left as it was when no row is found. *)
Definition dbMap_SelectOne (dbMap : DbMap.t) (holder : MigrationRecord.t) :
    M (MigrationRecord.t * option error) := λ w,
  (log CallSelectOne w,
   Done match failure w CallSelectOne with
        | Some e => (holder, Some e)
        | None =>
          match newest (ledger (committed w)) with
          | Some r => (r, None)
          | None => (holder, Some ErrNoRows)
          end
        end).

(** [dbMap.Begin()]: the new transaction works on a copy of the committed
    store. *)
Definition dbMap_Begin (dbMap : DbMap.t) : M (option error) := λ w,
  match failure w CallBegin with
  | Some e => (log CallBegin w, Done (Some e))
  | None => (set_open (committed w :: open w) (log CallBegin w), Done None)
  end.

(** [trans.Exec(stmt)] *)
Definition trans_Exec (stmt : string) : M (option error) := λ w,
  let w' := log (CallExec stmt) w in
  match failure w (CallExec stmt), open w with
  | Some e, _ => (w', Done (Some e))
  | None, [] => (w', Done (Some ErrTxDone))
  | None, tx :: txs =>
    (set_open ({| ledger := ledger tx; statements := statements tx ++ [stmt] |} :: txs) w',
     Done None)
  end.

(** [trans.Insert(&record)]: [Id] is the key of the table. *)
Definition trans_Insert (record : MigrationRecord.t) : M (option error) := λ w,
  let c := CallInsert (MigrationRecord.Id record) in
  let w' := log c w in
  match failure w c, open w with
  | Some e, _ => (w', Done (Some e))
  | None, [] => (w', Done (Some ErrTxDone))
  | None, tx :: txs =>
    if bool_decide (MigrationRecord.Id record ∈ ids (ledger tx))
    then (w', Done (Some (Errorf "duplicate key")))
    else
      (set_open ({| ledger := ledger tx ++ [record]; statements := statements tx |} :: txs) w',
       Done None)
  end.

(** [trans.Delete(&record)]: returns the number of rows deleted. *)
Definition trans_Delete (record : MigrationRecord.t) : M (Z * option error) := λ w,
  let c := CallDelete (MigrationRecord.Id record) in
  let w' := log c w in
  match failure w c, open w with
  | Some e, _ => (w', Done (0, Some e))
  | None, [] => (w', Done (0, Some ErrTxDone))
  | None, tx :: txs =>
    let kept := filter (λ r, MigrationRecord.Id r ≠ MigrationRecord.Id record) (ledger tx) in
    (set_open ({| ledger := kept; statements := statements tx |} :: txs) w',
     Done (len (ledger tx) - len kept, None))
  end.

(** [trans.Commit()]: the transaction is over whether or not the commit
    fails; when it does not, its store becomes the committed one. *)
Definition trans_Commit : M (option error) := λ w,
  let w' := log CallCommit w in
  match open w with
  | [] => (w', Done (Some ErrTxDone))
  | tx :: txs =>
    match failure w CallCommit with
    | Some e => (set_open txs w', Done (Some e))
    | None => (set_committed tx (set_open txs w'), Done None)
    end
  end.

(** [trans.Rollback()]: the transaction is over and its store dropped. *)
Definition trans_Rollback : M (option error) := λ w,
  let w' := log CallRollback w in
  match open w with
  | [] => (w', Done (Some ErrTxDone))
  | tx :: txs => (set_open txs w', Done (failure w CallRollback))
  end.

(** [m.FindMigrations()] *)
Definition find `{MigrationSource Src} (m : Src) : M (list Migration.t * option error) := λ w,
  (log CallFindMigrations w, Done (FindMigrations m)).

(** ** PlanMigration *)

(** The planned migration built in the loop of [PlanMigration] for the
    definition [v]. *)
Definition plan (dir : MigrationDirection) (v : Migration.t) : PlannedMigration.t :=
  {| PlannedMigration.Migration := v;
     PlannedMigration.Queries :=
       if bool_decide (dir = Up) then Migration.Up v
       else if bool_decide (dir = Down) then Migration.Down v
       else [] |}.

(** [sort.Sort] sorts the slice of the source in place; the result of the
    sort is what the rest of [PlanMigration] reads.  The loop that fills
    [result] from [toApply[0:toApplyCount]] is the map of [plan]. *)
Definition PlanMigration `{MigrationSource Src} (dialect : string) (m : Src)
    (dir : MigrationDirection) (max : Z) :
    M (list PlannedMigration.t * option DbMap.t * option error) :=
  let '(dbMap, err) := getMigrationDbMap dialect in
  match err, dbMap with
  | Some e, _ => mret ([], None, Some e)
  | None, None => panic "nil pointer dereference"
  | None, Some dbMap =>
    (* Make sure we have the migrations table *)
    err ← dbMap_CreateTablesIfNotExists dbMap;
    match err with
    | Some e => mret ([], None, Some e)
    | None =>
      '(migrations, err) ← find m;
      match err with
      | Some e => mret ([], None, Some e)
      | None =>
        (* Make sure migrations are sorted *)
        let migrations := sort_Sort migrations in
        (* Find the newest applied migration *)
        '(record, err) ← dbMap_SelectOne dbMap MigrationRecord.zero;
        if bool_decide (err ≠ None ∧ err ≠ Some ErrNoRows) then
          mret ([], None, err)
        else
          (* Figure out which of the supplied migrations has been applied. *)
          toApply ← pure (ToApply migrations (MigrationRecord.Id record) dir);
          let toApplyCount := len toApply in
          let toApplyCount :=
            if bool_decide (max > 0 ∧ max < toApplyCount) then max else toApplyCount in
          selected ← pure (slice_to toApply toApplyCount);
          mret (plan dir <$> selected, Some dbMap, None)
      end
    end
  end.

(** ** ExecMax *)

(** [for _, stmt := range migration.Queries]: [Some e] when a statement
    failed with [e], after the rollback. *)
Fixpoint exec_queries (queries : list string) : M (option error) :=
  match queries with
  | [] => mret None
  | stmt :: queries' =>
    err ← trans_Exec stmt;
    match err with
    | Some e => _ ← trans_Rollback; mret (Some e)
    | None => exec_queries queries'
    end
  end.

(** The update of the ledger that follows the statements. *)
Definition record_migration (dir : MigrationDirection) (id : string) : M (option error) :=
  if bool_decide (dir = Up) then
    now ← time_Now;
    trans_Insert {| MigrationRecord.Id := id; MigrationRecord.AppliedAt := now |}
  else if bool_decide (dir = Down) then
    '(_, err) ← trans_Delete {| MigrationRecord.Id := id; MigrationRecord.AppliedAt := 0 |};
    mret err
  else panic "Not possible".

(** The body of [for _, migration := range migrations]: [Some e] when the
    iteration left [ExecMax] with error [e]. *)
Definition apply_migration (dbMap : DbMap.t) (dir : MigrationDirection)
    (migration : PlannedMigration.t) : M (option error) :=
  err ← dbMap_Begin dbMap;
  match err with
  | Some e => mret (Some e)
  | None =>
    err ← exec_queries (PlannedMigration.Queries migration);
    match err with
    | Some e => mret (Some e)
    | None =>
      err ← record_migration dir (PlannedMigration.Id migration);
      match err with
      | Some e => mret (Some e)
      | None => trans_Commit
      end
    end
  end.

(** [for _, migration := range migrations], with the counter [applied]. *)
Fixpoint apply_migrations (dbMap : DbMap.t) (dir : MigrationDirection)
    (migrations : list PlannedMigration.t) (applied : Z) : M (Z * option error) :=
  match migrations with
  | [] => mret (applied, None)
  | migration :: migrations' =>
    err ← apply_migration dbMap dir migration;
    match err with
    | Some e => mret (applied, Some e)
    | None => apply_migrations dbMap dir migrations' (applied + 1)
    end
  end.

Definition ExecMax `{MigrationSource Src} (dialect : string) (m : Src)
    (dir : MigrationDirection) (max : Z) : M (Z * option error) :=
  '(migrations, dbMap, err) ← PlanMigration dialect m dir max;
  match err, dbMap with
  | Some e, _ => mret (0, Some e)
  | None, None => panic "nil pointer dereference"
  | None, Some dbMap =>
    (* Apply migrations *)
    apply_migrations dbMap dir migrations 0
  end.

Definition Exec `{MigrationSource Src} (dialect : string) (m : Src)
    (dir : MigrationDirection) : M (Z * option error) :=
  ExecMax dialect m dir 0.

End Driver.

(** ** Pointers

    [migrate.go] hands migrations around as [*Migration], and a pointer
    may be nil.  The definitions above read a slice of pointers as the
    list of the values pointed to, which is what it is when none is nil.
    The definitions of this module keep the pointers: a slice of
    [*Migration] is a list of [option Migration.t], [None] is the nil
    pointer, and a selector applied to a nil pointer panics. *)

Module Pointers.

(** [p.f] reads through the pointer [p]: it panics when [p] is nil. *)
Definition deref {A} (p : option A) : outcome A :=
  match p with
  | Some a => Done a
  | None => Panicked "invalid memory address or nil pointer dereference"
  end.

(** [type PlannedMigration struct { *Migration; Queries []string }] *)
Module PlannedMigration.
Record t : Type := mk {
    Migration : option Migration.t;
    Queries : list string;
  }.
End PlannedMigration.

(** [byId]: [Less] reads the ids through the two pointers. *)
Module byId.
Definition Less (b : list (option Migration.t)) (i j : Z) : outcome bool :=
    bi ← at_index b i;
    mi ← deref bi;
    bj ← at_index b j;
    mj ← deref bj;
    mret (String.ltb (Migration.Id mi) (Migration.Id mj)).
End byId.

(** The scan of [ToApply]:
    [for index < len(migrations)-1 && migrations[index+1].Id <= current { index++ }]. *)
Fixpoint ToApply_scan (fuel : nat) (migrations : list (option Migration.t))
    (current : string) (index : Z) : outcome Z :=
  match fuel with
  | O => Diverged
  | S fuel' =>
    if bool_decide (index < len migrations - 1) then
      p ← at_index migrations (index + 1);
      m ← deref p;
      if String.leb (Migration.Id m) current
      then ToApply_scan fuel' migrations current (index + 1)
      else Done index
    else Done index
  end.

Definition ToApply_cursor (migrations : list (option Migration.t)) (current : string) :
    outcome Z :=
  ToApply_scan (S (length migrations)) migrations current (-1).

(** [for i := 0; i < index+1; i++ { toApply[index-i] = migrations[i] }]:
    the pointers are copied, none is read through. *)
Fixpoint ToApply_fill (fuel : nat) (migrations : list (option Migration.t)) (index i : Z)
    (toApply : list (option Migration.t)) : outcome (list (option Migration.t)) :=
  match fuel with
  | O => Diverged
  | S fuel' =>
    if bool_decide (i < index + 1) then
      p ← at_index migrations i;
      toApply' ← set_index toApply (index - i) p;
      ToApply_fill fuel' migrations index (i + 1) toApply'
    else Done toApply
  end.

(** [make([]*Migration, index+1)] holds nil pointers. *)
Definition ToApply (migrations : list (option Migration.t)) (current : string)
    (direction : MigrationDirection) : outcome (list (option Migration.t)) :=
  index ← ToApply_cursor migrations current;
  if bool_decide (direction = Up) then
    slice_from migrations (index + 1)
  else if bool_decide (direction = Down) then
    if bool_decide (index = -1) then Done []
    else
      toApply ← make None (index + 1);
      ToApply_fill (S (length migrations)) migrations index 0 toApply
  else Panicked "Not possible".

Class MigrationSource (Src : Type) : Type :=
  FindMigrations : Src → list (option Migration.t) * option error.

Record MemoryMigrationSource : Type := { Migrations : list (option Migration.t) }.

Global Instance MemoryMigrationSource_source : MigrationSource MemoryMigrationSource :=
  λ m, (Migrations m, None).

(** The planner and the executor over pointers.  [sort_Sort] stands for
    [sort.Sort(byId(...))], which panics when [Less] does. *)

Section Driver.

Context (fault : World → Call → option string).
Context (sort_Sort : list (option Migration.t) → outcome (list (option Migration.t))).

(** [m.FindMigrations()] *)
Definition find `{MigrationSource Src} (m : Src) :
    M (list (option Migration.t) * option error) := λ w,
  (log CallFindMigrations w, Done (FindMigrations m)).

(** The body of [for k, v := range toApply[0:toApplyCount]]: [v.Up] and
    [v.Down] read through [v]. *)
Definition plan (dir : MigrationDirection) (v : option Migration.t) :
    outcome PlannedMigration.t :=
  if bool_decide (dir = Up) then
    m ← deref v;
    Done {| PlannedMigration.Migration := v; PlannedMigration.Queries := Migration.Up m |}
  else if bool_decide (dir = Down) then
    m ← deref v;
    Done {| PlannedMigration.Migration := v; PlannedMigration.Queries := Migration.Down m |}
  else Done {| PlannedMigration.Migration := v; PlannedMigration.Queries := [] |}.

(** [for k, v := range toApply[0:toApplyCount]] *)
Fixpoint plan_range (dir : MigrationDirection) (toApply : list (option Migration.t)) :
    outcome (list PlannedMigration.t) :=
  match toApply with
  | [] => Done []
  | v :: toApply' =>
    p ← plan dir v;
    result ← plan_range dir toApply';
    Done (p :: result)
  end.

Definition PlanMigration `{MigrationSource Src} (dialect : string) (m : Src)
    (dir : MigrationDirection) (max : Z) :
    M (list PlannedMigration.t * option DbMap.t * option error) :=
  let '(dbMap, err) := getMigrationDbMap dialect in
  match err, dbMap with
  | Some e, _ => mret ([], None, Some e)
  | None, None => panic "nil pointer dereference"
  | None, Some dbMap =>
    (* Make sure we have the migrations table *)
    err ← dbMap_CreateTablesIfNotExists fault dbMap;
    match err with
    | Some e => mret ([], None, Some e)
    | None =>
      '(migrations, err) ← find m;
      match err with
      | Some e => mret ([], None, Some e)
      | None =>
        (* Make sure migrations are sorted *)
        migrations ← pure (sort_Sort migrations);
        (* Find the newest applied migration *)
        '(record, err) ← dbMap_SelectOne fault dbMap MigrationRecord.zero;
        if bool_decide (err ≠ None ∧ err ≠ Some ErrNoRows) then
          mret ([], None, err)
        else
          (* Figure out which of the supplied migrations has been applied. *)
          toApply ← pure (ToApply migrations (MigrationRecord.Id record) dir);
          let toApplyCount := len toApply in
          let toApplyCount :=
            if bool_decide (max > 0 ∧ max < toApplyCount) then max else toApplyCount in
          selected ← pure (slice_to toApply toApplyCount);
          result ← pure (plan_range dir selected);
          mret (result, Some dbMap, None)
      end
    end
  end.

(** The update of the ledger that follows the statements: [migration.Id]
    reads through the embedded pointer. *)
Definition record_migration (dir : MigrationDirection) (migration : PlannedMigration.t) :
    M (option error) :=
  if bool_decide (dir = Up) then
    m ← pure (deref (PlannedMigration.Migration migration));
    now ← time_Now;
    trans_Insert fault
      {| MigrationRecord.Id := Migration.Id m; MigrationRecord.AppliedAt := now |}
  else if bool_decide (dir = Down) then
    m ← pure (deref (PlannedMigration.Migration migration));
    '(_, err) ← trans_Delete fault
      {| MigrationRecord.Id := Migration.Id m; MigrationRecord.AppliedAt := 0 |};
    mret err
  else panic "Not possible".

(** The body of [for _, migration := range migrations]. *)
Definition apply_migration (dbMap : DbMap.t) (dir : MigrationDirection)
    (migration : PlannedMigration.t) : M (option error) :=
  err ← dbMap_Begin fault dbMap;
  match err with
  | Some e => mret (Some e)
  | None =>
    err ← exec_queries fault (PlannedMigration.Queries migration);
    match err with
    | Some e => mret (Some e)
    | None =>
      err ← record_migration dir migration;
      match err with
      | Some e => mret (Some e)
      | None => trans_Commit fault
      end
    end
  end.

(** [for _, migration := range migrations], with the counter [applied]. *)
Fixpoint apply_migrations (dbMap : DbMap.t) (dir : MigrationDirection)
    (migrations : list PlannedMigration.t) (applied : Z) : M (Z * option error) :=
  match migrations with
  | [] => mret (applied, None)
  | migration :: migrations' =>
    err ← apply_migration dbMap dir migration;
    match err with
    | Some e => mret (applied, Some e)
    | None => apply_migrations dbMap dir migrations' (applied + 1)
    end
  end.

Definition ExecMax `{MigrationSource Src} (dialect : string) (m : Src)
    (dir : MigrationDirection) (max : Z) : M (Z * option error) :=
  '(migrations, dbMap, err) ← PlanMigration dialect m dir max;
  match err, dbMap with
  | Some e, _ => mret (0, Some e)
  | None, None => panic "nil pointer dereference"
  | None, Some dbMap =>
    (* Apply migrations *)
    apply_migrations dbMap dir migrations 0
  end.

End Driver.

(** What is assumed of [sort.Sort(byId(...))] on pointers: a slice
    without a nil pointer is sorted without a panic, [Less] raising none on
    it, and holds no nil pointer afterwards. *)
Definition sort_returns
    (sort_Sort : list (option Migration.t) → outcome (list (option Migration.t))) : Prop :=
  ∀ l, Forall (λ p, p ≠ None) l →
    ∃ l', sort_Sort l = Done l' ∧ Forall (λ p, p ≠ None) l'.

End Pointers.

(** A planned migration as the executor over pointers holds it: with a
    pointer, which is not nil, to its migration. *)
Definition with_pointer (p : PlannedMigration.t) : Pointers.PlannedMigration.t :=
  {| Pointers.PlannedMigration.Migration := Some (PlannedMigration.Migration p);
     Pointers.PlannedMigration.Queries := PlannedMigration.Queries p |}.

(** ** Notions used to state the properties *)

(** The order of [byId]: ids ascending, compared bytewise. *)
Definition byId_le (a b : Migration.t) : Prop :=
  String.le (Migration.Id a) (Migration.Id b).

Global Instance byId_le_dec : RelDecision byId_le.
Proof. intros a b. unfold byId_le. apply _. Defined.

(** What the code relies on from [sort.Sort(byId(migrations))]: the result
    holds the same migrations, in ascending order of id. *)
Definition sort_contract (sort_Sort : list Migration.t → list Migration.t) : Prop :=
  ∀ l, sort_Sort l ≡ₚ l ∧ Sorted byId_le (sort_Sort l).

(** The number of leading migrations whose id is at most [current]. *)
Fixpoint leading (current : string) (migrations : list Migration.t) : nat :=
  match migrations with
  | [] => O
  | m :: migrations' =>
    if String.leb (Migration.Id m) current then S (leading current migrations') else O
  end.

(** The watermark the planner reads from a ledger: the greatest id in it,
    the empty string when it has no row. *)
Definition watermark (rs : list MigrationRecord.t) : string :=
  match newest rs with
  | Some r => MigrationRecord.Id r
  | None => ""
  end.

(** The cap of [PlanMigration] on a pending list. *)
Definition capped {A} (max : Z) (pending : list A) : list A :=
  if bool_decide (0 < max) then take (Z.to_nat max) pending else pending.

(** The world once [PlanMigration] has made its three calls. *)
Definition planned_world (w : World) : World :=
  log CallSelectOne (log CallFindMigrations (log CallCreateTables w)).

(** ** Sample data *)

Definition sample_001 : Migration.t :=
  {| Migration.Id := "001";
     Migration.Up := ["CREATE TABLE t(x int)"];
     Migration.Down := ["DROP TABLE t"] |}.

Definition sample_002 : Migration.t :=
  {| Migration.Id := "002";
     Migration.Up := ["ALTER TABLE t ADD y int"];
     Migration.Down := ["ALTER TABLE t DROP COLUMN y"] |}.

Definition sample_003 : Migration.t :=
  {| Migration.Id := "003";
     Migration.Up := ["CREATE INDEX i ON t(x)"; "CREATE INDEX j ON t(y)"];
     Migration.Down := ["DROP INDEX j"; "DROP INDEX i"] |}.

(** A second definition that reuses the id ["001"]. *)
Definition sample_001_again : Migration.t :=
  {| Migration.Id := "001";
     Migration.Up := ["CREATE TABLE u(z int)"];
     Migration.Down := ["DROP TABLE u"] |}.

Definition empty_store : Store := {| ledger := []; statements := [] |}.

Definition empty_world : World :=
  {| committed := empty_store; open := []; clock := 0; calls := [] |}.

(** A world whose ledger already records ["001"]. *)
Definition world_with_001 : World :=
  {| committed :=
       {| ledger := [ {| MigrationRecord.Id := "001"; MigrationRecord.AppliedAt := 7 |} ];
          statements := ["CREATE TABLE t(x int)"] |};
     open := []; clock := 8; calls := [] |}.

(** A driver none of whose calls fails. *)
Definition no_fault : World → Call → option string := λ _ _, None.

(** A driver that fails on one call. *)
Definition fault_on (c : Call) : World → Call → option string :=
  λ _ c', if bool_decide (c' = c) then Some "driver: bad connection" else None.

(** A sort that meets the contract. *)
Definition sample_sort : list Migration.t → list Migration.t := merge_sort byId_le.

Definition memory (ms : list Migration.t) : MemoryMigrationSource := {| Migrations := ms |}.

(** ** The sources that load scripts *)

(** [strings.HasSuffix]:
    [len(s) >= len(suffix) && s[len(s)-len(suffix):] == suffix]. *)
Definition HasSuffix (s suffix : string) : bool :=
  bool_decide (String.length suffix ≤ String.length s)%nat
  && String.eqb
       (String.substring (String.length s - String.length suffix)
          (String.length suffix) s)
       suffix.

(** An [io.ReadSeeker]: the bytes and the position of the next read. *)
Record Reader : Type := {
  content : string;
  offset : Z;
}.

(** [bytes.NewReader] *)
Definition bytes_NewReader (b : string) : Reader := {| content := b; offset := 0 |}.

(** [os.FileInfo], of which only the name is used. *)
Module FileInfo.
Record t : Type := mk {
  Name : string;
}.
End FileInfo.

Module FileMigrationSource.
Record t : Type := mk {
  Dir : string;
}.
End FileMigrationSource.

Module AssetMigrationSource.
Record t : Type := mk {
  Asset : string → string * option error;
  AssetDir : string → list string * option error;
  Dir : string;
}.
End AssetMigrationSource.

(** Modelled from the spec: the statement splitter of package [sqlparse],
    [path.Join] and the file system calls of package [os], which
    [migrate.go] calls and does not contain.  The splitter reads from a
    reader, which it may move, and yields the statements of one direction
    ([true] for up); a file is a handle, [os.Open] yields one with its
    error, [Readdir] lists a directory, and an open file is read through
    [File_reader]. *)

Section Sources.

Context (path_Join : string → string → string).
Context (SplitSQLStatements : Reader → bool → Reader * (list string * option error)).
Context {File : Type}.
Context (os_Open : string → File * option error).
Context (File_Readdir : File → Z → list FileInfo.t * option error).
Context (File_reader : File → Reader).

(** Migration parsing: [None] stands for the [nil] migration returned with
    an error. *)
Definition ParseMigration (id : string) (r : Reader) : option Migration.t * option error :=
  let '(r, (up, err)) := SplitSQLStatements r true in
  match err with
  | Some e => (None, Some e)
  | None =>
    let '(r, (down, err)) := SplitSQLStatements r false in
    match err with
    | Some e => (None, Some e)
    | None => (Some {| Migration.Id := id; Migration.Up := up; Migration.Down := down |}, None)
    end
  end.

(** [for _, info := range files] of [FileMigrationSource.FindMigrations],
    with the slice [migrations] built so far.  [append] adds the migration
    parsed; [ParseMigration] returns one whenever it returns no error. *)
Fixpoint FileMigrationSource_range (f : FileMigrationSource.t) (files : list FileInfo.t)
    (migrations : list Migration.t) : list Migration.t * option error :=
  match files with
  | [] => (migrations, None)
  | info :: files' =>
    if HasSuffix (FileInfo.Name info) ".sql" then
      let '(file, err) := os_Open (path_Join (FileMigrationSource.Dir f) (FileInfo.Name info)) in
      match err with
      | Some e => ([], Some e)
      | None =>
        let '(migration, err) := ParseMigration (FileInfo.Name info) (File_reader file) in
        match err with
        | Some e => ([], Some e)
        | None => FileMigrationSource_range f files' (migrations ++ option_list migration)
        end
      end
    else FileMigrationSource_range f files' migrations
  end.

Definition FileMigrationSource_FindMigrations (f : FileMigrationSource.t) :
    list Migration.t * option error :=
  let '(file, err) := os_Open (FileMigrationSource.Dir f) in
  match err with
  | Some e => ([], Some e)
  | None =>
    let '(files, err) := File_Readdir file 0 in
    match err with
    | Some e => ([], Some e)
    | None => FileMigrationSource_range f files []
    end
  end.

(** [for _, name := range files] of [AssetMigrationSource.FindMigrations]. *)
Fixpoint AssetMigrationSource_range (a : AssetMigrationSource.t) (files : list string)
    (migrations : list Migration.t) : list Migration.t * option error :=
  match files with
  | [] => (migrations, None)
  | name :: files' =>
    if HasSuffix name ".sql" then
      let '(file, err) :=
        AssetMigrationSource.Asset a (path_Join (AssetMigrationSource.Dir a) name) in
      match err with
      | Some e => ([], Some e)
      | None =>
        let '(migration, err) := ParseMigration name (bytes_NewReader file) in
        match err with
        | Some e => ([], Some e)
        | None => AssetMigrationSource_range a files' (migrations ++ option_list migration)
        end
      end
    else AssetMigrationSource_range a files' migrations
  end.

Definition AssetMigrationSource_FindMigrations (a : AssetMigrationSource.t) :
    list Migration.t * option error :=
  let '(files, err) := AssetMigrationSource.AssetDir a (AssetMigrationSource.Dir a) in
  match err with
  | Some e => ([], Some e)
  | None => AssetMigrationSource_range a files []
  end.

(** That the script [name] of a directory loads as the migration [m]:
    the file opens and parses to it. *)
Definition file_loads (f : FileMigrationSource.t) (name : string) (m : Migration.t) : Prop :=
  ∃ file,
    os_Open (path_Join (FileMigrationSource.Dir f) name) = (file, None) ∧
    ParseMigration name (File_reader file) = (Some m, None).

(** That the script [name] of a directory fails with [e]: the file does
    not open, or it opens and does not parse. *)
Definition file_fails (f : FileMigrationSource.t) (name : string) (e : error) : Prop :=
  ∃ file,
    os_Open (path_Join (FileMigrationSource.Dir f) name) = (file, Some e) ∨
    (os_Open (path_Join (FileMigrationSource.Dir f) name) = (file, None) ∧
     ∃ m, ParseMigration name (File_reader file) = (m, Some e)).

(** That the script [name] of a bundle loads: the asset is there and
    parses. *)
Definition asset_loads (a : AssetMigrationSource.t) (name : string) : Prop :=
  ∃ file m,
    AssetMigrationSource.Asset a (path_Join (AssetMigrationSource.Dir a) name)
    = (file, None) ∧
    ParseMigration name (bytes_NewReader file) = (Some m, None).

End Sources.

(** ** Sample sources *)

(** A splitter for scripts of the form [up|down]: one statement each way;
    a script without [|] does not parse. *)
Fixpoint sample_cut (s : string) : option (string * string) :=
  match s with
  | EmptyString => None
  | String c s' =>
    if String.eqb (String c EmptyString) "|" then Some (EmptyString, s')
    else match sample_cut s' with
         | Some (l, r) => Some (String c l, r)
         | None => None
         end
  end.

Definition sample_split (r : Reader) (up : bool) : Reader * (list string * option error) :=
  match sample_cut (content r) with
  | Some (l, d) => (r, ([if up then l else d], None))
  | None => (r, ([], Some (Errorf "no direction")))
  end.

Definition sample_join (dir name : string) : string := dir +:+ "/" +:+ name.

(** A bundle with two scripts and a file that is not one. *)
Definition sample_assets : AssetMigrationSource.t :=
  {| AssetMigrationSource.Asset := λ path,
       if String.eqb path "db/002.sql" then ("ALTER TABLE t ADD y int|ALTER TABLE t DROP COLUMN y", None)
       else if String.eqb path "db/001.sql" then ("CREATE TABLE t(x int)|DROP TABLE t", None)
       else ("", Some (Errorf "asset not found"));
     AssetMigrationSource.AssetDir := λ dir,
       if String.eqb dir "db" then (["002.sql"; "README"; "001.sql"], None)
       else ([], Some (Errorf "asset dir not found"));
     AssetMigrationSource.Dir := "db" |}.

(** A file system with the same directory; a file handle is the path, the
    empty path standing for no file. *)
Definition sample_open (path : string) : string * option error :=
  if bool_decide (path ∈ ["db"; "db/001.sql"; "db/002.sql"; "db/README"])
  then (path, None)
  else ("", Some (Errorf "no such file or directory")).

Definition sample_readdir (file : string) (n : Z) : list FileInfo.t * option error :=
  if String.eqb file "db"
  then ([FileInfo.mk "002.sql"; FileInfo.mk "README"; FileInfo.mk "001.sql"], None)
  else ([], Some (Errorf "not a directory")).

Definition sample_reader (file : string) : Reader :=
  bytes_NewReader (AssetMigrationSource.Asset sample_assets file).1.

(** ** The calls of one migration *)

(** The ledger write of a migration: an insert for [Up], a delete
    otherwise. *)
Definition ledger_call (dir : MigrationDirection) (id : string) : Call :=
  if bool_decide (dir = Up) then CallInsert id else CallDelete id.

(** The calls made for a migration that is applied without error. *)
Definition migration_calls (dir : MigrationDirection) (p : PlannedMigration.t) : list Call :=
  CallBegin :: (CallExec <$> PlannedMigration.Queries p)
    ++ [ledger_call dir (PlannedMigration.Id p); CallCommit].

(** The sample bundle as a migration source, and a bundle whose
    directory is not there. *)
Definition sample_asset_source : MigrationSource AssetMigrationSource.t :=
  AssetMigrationSource_FindMigrations sample_join sample_split.

Definition sample_assets_missing : AssetMigrationSource.t :=
  {| AssetMigrationSource.Asset := AssetMigrationSource.Asset sample_assets;
     AssetMigrationSource.AssetDir := AssetMigrationSource.AssetDir sample_assets;
     AssetMigrationSource.Dir := "nowhere" |}.

(** The values a slice of pointers points to, read through each one in
    turn. *)
Fixpoint pointed_values (ps : list (option Migration.t)) : outcome (list Migration.t) :=
  match ps with
  | [] => Done []
  | p :: ps' =>
    m ← Pointers.deref p;
    ms ← pointed_values ps';
    Done (m :: ms)
  end.

(** A sort over pointers that meets [Pointers.sort_returns]: it reads
    every id through its pointer and orders the pointers as [sample_sort]
    orders the values. *)
Definition sample_pointer_sort (ps : list (option Migration.t)) :
    outcome (list (option Migration.t)) :=
  ms ← pointed_values ps;
  Done (Some <$> sample_sort ms).

Definition pointer_memory (ps : list (option Migration.t)) : Pointers.MemoryMigrationSource :=
  {| Pointers.Migrations := ps |}.

(** * Properties *)

(** ** The order on ids *)

Lemma leb_le (a b : string) : String.leb a b = true ↔ String.le a b.
Proof. unfold String.le. by rewrite Is_true_true. Qed.

Lemma ltb_not_le (a b : string) : String.ltb a b = true ↔ ¬ String.le b a.
Proof.
  unfold String.le, String.ltb, String.leb.
  rewrite (String.compare_antisym a b).
  destruct (String.compare b a); simpl; split; intros H; try done.
  by intros [].
Qed.

Lemma leb_false_ltb (a b : string) : String.leb a b = false ↔ String.ltb b a = true.
Proof.
  rewrite ltb_not_le, <- leb_le. destruct (String.leb a b); split; intros H; done.
Qed.

Lemma le_empty (a : string) : String.le "" a.
Proof. by destruct a. Qed.

Lemma le_empty_inv (a : string) : String.le a "" → a = "".
Proof. by destruct a. Qed.

Global Instance byId_le_trans : Transitive byId_le.
Proof. intros a b c. unfold byId_le. apply transitivity. Qed.

Global Instance byId_le_total : Total byId_le.
Proof. intros a b. unfold byId_le. apply total, _. Qed.

Lemma sample_sort_contract : sort_contract sample_sort.
Proof.
  intros l. split.
  - apply merge_sort_Permutation.
  - apply Sorted_merge_sort, _.
Qed.

(** ** Slices *)

Lemma at_index_lookup {A} (l : list A) (n : nat) (a : A) :
  l !! n = Some a → at_index l (Z.of_nat n) = Done a.
Proof.
  intros Hl. unfold at_index, len.
  pose proof (lookup_lt_Some _ _ _ Hl).
  rewrite bool_decide_eq_true_2 by lia.
  by rewrite Nat2Z.id, Hl.
Qed.

Lemma set_index_insert {A} (l : list A) (n : nat) (a : A) :
  (n < length l)%nat → set_index l (Z.of_nat n) a = Done (<[n := a]> l).
Proof.
  intros Hn. unfold set_index, len.
  rewrite bool_decide_eq_true_2 by lia.
  by rewrite Nat2Z.id.
Qed.

(** ** The scan of [ToApply] *)

Lemma leading_le (current : string) (ms : list Migration.t) :
  (leading current ms ≤ length ms)%nat.
Proof.
  induction ms as [|m ms IH]; simpl; [lia|].
  destruct (String.leb _ _); simpl; lia.
Qed.

Lemma leading_take (current : string) (ms : list Migration.t) :
  Forall (λ m, String.le (Migration.Id m) current) (take (leading current ms) ms).
Proof.
  induction ms as [|m ms IH]; simpl; [constructor|].
  destruct (String.leb _ _) eqn:E; simpl; [|constructor].
  constructor; [by apply leb_le | done].
Qed.

Lemma leading_next (current : string) (ms : list Migration.t) (m : Migration.t) :
  ms !! leading current ms = Some m → String.ltb current (Migration.Id m) = true.
Proof.
  induction ms as [|m' ms IH]; simpl; [done|].
  destruct (String.leb _ _) eqn:E; simpl; [done|].
  intros [= ->]. by apply leb_false_ltb.
Qed.

Lemma leading_all (current : string) (ms : list Migration.t) :
  Forall (λ m, String.le (Migration.Id m) current) ms → leading current ms = length ms.
Proof.
  induction 1 as [|m ms Hm _ IH]; simpl; [done|].
  apply leb_le in Hm. by rewrite Hm, IH.
Qed.

Lemma ToApply_scan_leading (fuel n : nat) (ms : list Migration.t) (current : string) :
  (n ≤ length ms)%nat →
  (length ms - n < fuel)%nat →
  ToApply_scan fuel ms current (Z.of_nat n - 1)
  = Done (Z.of_nat (n + leading current (drop n ms)) - 1).
Proof.
  revert n. induction fuel as [|fuel IH]; intros n Hn Hfuel; [lia|].
  simpl. unfold len. case_bool_decide as Hlt.
  - destruct (lookup_lt_is_Some_2 ms n) as [m Hm]; [lia|].
    replace (Z.of_nat n - 1 + 1) with (Z.of_nat n) by lia.
    rewrite (at_index_lookup _ _ _ Hm). simpl.
    rewrite (drop_S _ _ _ Hm). simpl.
    destruct (String.leb _ _).
    + replace (Z.of_nat n) with (Z.of_nat (S n) - 1) by lia.
      rewrite IH by lia. do 2 f_equal. lia.
    + do 2 f_equal. lia.
  - rewrite drop_ge by lia. simpl. do 2 f_equal. lia.
Qed.

Lemma ToApply_cursor_leading (ms : list Migration.t) (current : string) :
  ToApply_cursor ms current = Done (Z.of_nat (leading current ms) - 1).
Proof.
  unfold ToApply_cursor.
  change (-1) with (Z.of_nat 0 - 1).
  rewrite ToApply_scan_leading by lia. by rewrite drop_0.
Qed.

(** ** The reversing loop of [ToApply] *)

Lemma ToApply_fill_reverse (fuel n i : nat) (ms toApply : list Migration.t) :
  (i ≤ n ≤ length ms)%nat →
  length toApply = n →
  (n - i < fuel)%nat →
  ToApply_fill fuel ms (Z.of_nat n - 1) (Z.of_nat i) toApply
  = Done (reverse (drop i (take n ms)) ++ drop (n - i) toApply).
Proof.
  revert i toApply. induction fuel as [|fuel IH]; intros i toApply Hi Hlen Hfuel; [lia|].
  simpl. case_bool_decide as Hlt.
  - destruct (lookup_lt_is_Some_2 ms i) as [m Hm]; [lia|].
    rewrite (at_index_lookup _ _ _ Hm). simpl.
    replace (Z.of_nat n - 1 - Z.of_nat i) with (Z.of_nat (n - 1 - i)) by lia.
    rewrite set_index_insert by lia. simpl.
    replace (Z.of_nat i + 1) with (Z.of_nat (S i)) by lia.
    rewrite IH by (rewrite ?length_insert; lia).
    f_equal.
    assert (take n ms !! i = Some m) as Hm' by (rewrite lookup_take_lt by lia; done).
    rewrite (drop_S _ _ _ Hm'), reverse_cons, <- app_assoc. f_equal.
    rewrite drop_insert_ge by lia.
    replace (n - 1 - i - (n - S i))%nat with 0%nat by lia.
    destruct (lookup_lt_is_Some_2 toApply (n - S i)) as [x Hx]; [lia|].
    rewrite (drop_S _ _ _ Hx). simpl.
    f_equal. f_equal. lia.
  - assert (i = n) as -> by lia.
    rewrite drop_ge by (rewrite length_take; lia).
    by rewrite Nat.sub_diag, drop_0.
Qed.

(** [ToApply] in terms of lists, for any list of migrations. *)
Lemma ToApply_Up_drop (ms : list Migration.t) (current : string) :
  ToApply ms current Up = Done (drop (leading current ms) ms).
Proof.
  unfold ToApply. rewrite ToApply_cursor_leading. simpl.
  unfold slice_from, len. pose proof (leading_le current ms).
  rewrite bool_decide_eq_true_2 by lia.
  do 2 f_equal. lia.
Qed.

Lemma ToApply_Down_reverse (ms : list Migration.t) (current : string) :
  ToApply ms current Down = Done (reverse (take (leading current ms) ms)).
Proof.
  unfold ToApply. rewrite ToApply_cursor_leading.
  cbn [mbind outcome_bind].
  rewrite (bool_decide_eq_false_2 (Down = Up)) by done.
  rewrite (bool_decide_eq_true_2 (Down = Down)) by done.
  pose proof (leading_le current ms).
  case_bool_decide as H0.
  - assert (leading current ms = 0%nat) as -> by lia. done.
  - unfold make. rewrite bool_decide_eq_true_2 by lia.
    cbn [mbind outcome_bind].
    replace (Z.to_nat (Z.of_nat (leading current ms) - 1 + 1)) with (leading current ms) by lia.
    change 0 with (Z.of_nat 0).
    rewrite ToApply_fill_reverse; [| lia | rewrite length_replicate; lia | lia].
    rewrite drop_0, Nat.sub_0_r.
    rewrite drop_ge by (rewrite length_replicate; lia).
    by rewrite app_nil_r.
Qed.

(** ** [ToApply] on a sorted list *)

Lemma filter_all {A} (P : A → Prop) `{∀ x, Decision (P x)} (l : list A) :
  Forall P l → filter P l = l.
Proof.
  induction 1 as [|x l Hx _ IH]; [done|].
  by rewrite filter_cons_True, IH.
Qed.

Lemma filter_none {A} (P : A → Prop) `{∀ x, Decision (P x)} (l : list A) :
  Forall (λ x, ¬ P x) l → filter P l = [].
Proof.
  induction 1 as [|x l Hx _ IH]; [done|].
  by rewrite filter_cons_False.
Qed.

Lemma ltb_le_trans (a b c : string) :
  String.ltb a b = true → String.le b c → String.ltb a c = true.
Proof.
  rewrite !ltb_not_le. intros Hab Hbc Hca. apply Hab. by transitivity c.
Qed.

Lemma sorted_drop_leading (current : string) (ms : list Migration.t) :
  Sorted byId_le ms →
  Forall (λ m, String.ltb current (Migration.Id m) = true) (drop (leading current ms) ms).
Proof.
  intros Hs. apply (Sorted_StronglySorted _) in Hs.
  induction Hs as [|m ms Hs IH Hm]; simpl; [constructor|].
  destruct (String.leb _ _) eqn:E; simpl; [done|].
  apply leb_false_ltb in E. constructor; [done|].
  eapply Forall_impl; [exact Hm|]. intros x Hx. by eapply ltb_le_trans.
Qed.

Lemma sorted_drop (n : nat) (ms : list Migration.t) :
  Sorted byId_le ms → Sorted byId_le (drop n ms).
Proof.
  intros Hs. apply (Sorted_StronglySorted _) in Hs.
  apply StronglySorted_Sorted.
  rewrite <- (take_drop n ms) in Hs. by apply StronglySorted_app_1_r in Hs.
Qed.

Lemma sorted_take (n : nat) (ms : list Migration.t) :
  Sorted byId_le ms → Sorted byId_le (take n ms).
Proof.
  intros Hs. apply (Sorted_StronglySorted _) in Hs.
  apply StronglySorted_Sorted.
  rewrite <- (take_drop n ms) in Hs. by apply StronglySorted_app_1_l in Hs.
Qed.

Lemma sorted_take_filter (current : string) (ms : list Migration.t) :
  Sorted byId_le ms →
  take (leading current ms) ms
  = filter (λ m, String.le (Migration.Id m) current) ms.
Proof.
  intros Hs.
  pose proof (leading_take current ms) as Ht.
  pose proof (sorted_drop_leading current ms Hs) as Hd.
  generalize dependent (leading current ms). intros k Ht Hd.
  rewrite <- (take_drop k ms) at 2.
  rewrite filter_app, filter_all by done.
  rewrite filter_none; [by rewrite app_nil_r|].
  eapply Forall_impl; [exact Hd|].
  intros m Hm. by apply ltb_not_le.
Qed.

Lemma sorted_drop_filter (current : string) (ms : list Migration.t) :
  Sorted byId_le ms →
  drop (leading current ms) ms
  = filter (λ m, String.ltb current (Migration.Id m) = true) ms.
Proof.
  intros Hs.
  pose proof (leading_take current ms) as Ht.
  pose proof (sorted_drop_leading current ms Hs) as Hd.
  generalize dependent (leading current ms). intros k Ht Hd.
  rewrite <- (take_drop k ms) at 2.
  rewrite filter_app, (filter_all _ (drop _ _)) by done.
  rewrite filter_none; [done|].
  eapply Forall_impl; [exact Ht|].
  intros m Hm. simpl in Hm. rewrite ltb_not_le. tauto.
Qed.

Lemma leading_none (current : string) (ms : list Migration.t) :
  Forall (λ m, ¬ String.le (Migration.Id m) current) ms → leading current ms = 0%nat.
Proof.
  destruct 1 as [|m ms Hm _]; simpl; [done|].
  destruct (String.leb _ _) eqn:E; [|done].
  by apply leb_le in E.
Qed.

(** C2. On a list sorted ascending by id, [ToApply] with direction [Up]
    returns exactly the suffix of the definitions whose ids are strictly
    greater than the watermark, in ascending order of id; it is the whole
    list when no id is at most the watermark. *)
Theorem ToApply_Up_suffix (ms : list Migration.t) (current : string) :
  Sorted byId_le ms →
  ∃ applied pending,
    ms = applied ++ pending ∧
    ToApply ms current Up = Done pending ∧
    Forall (λ m, String.le (Migration.Id m) current) applied ∧
    Forall (λ m, String.ltb current (Migration.Id m) = true) pending ∧
    pending = filter (λ m, String.ltb current (Migration.Id m) = true) ms ∧
    Sorted byId_le pending ∧
    (Forall (λ m, ¬ String.le (Migration.Id m) current) ms → pending = ms).
Proof.
  intros Hs.
  exists (take (leading current ms) ms), (drop (leading current ms) ms).
  split_and!.
  - by rewrite take_drop.
  - apply ToApply_Up_drop.
  - apply leading_take.
  - by apply sorted_drop_leading.
  - by apply sorted_drop_filter.
  - by apply sorted_drop.
  - intros Hnone. by rewrite leading_none.
Qed.

Lemma ToApply_Up_suffix_witness :
  ToApply [sample_001; sample_002; sample_003] "001" Up = Done [sample_002; sample_003].
Proof.
  assert (Sorted byId_le [sample_001; sample_002; sample_003]) as Hs
    by (repeat constructor).
  destruct (ToApply_Up_suffix _ "001" Hs) as (applied & pending & _ & -> & _ & _ & -> & _).
  reflexivity.
Defined.

(** C3. On a list sorted ascending by id, [ToApply] with direction [Down]
    returns the prefix of the definitions whose ids are at most the
    watermark, reversed; it is empty when no id is at most the watermark,
    as with the empty watermark of an empty ledger when no definition has
    the empty id. *)
Theorem ToApply_Down_prefix_reversed (ms : list Migration.t) (current : string) :
  Sorted byId_le ms →
  ∃ applied pending,
    ms = applied ++ pending ∧
    ToApply ms current Down = Done (reverse applied) ∧
    Forall (λ m, String.le (Migration.Id m) current) applied ∧
    Forall (λ m, String.ltb current (Migration.Id m) = true) pending ∧
    applied = filter (λ m, String.le (Migration.Id m) current) ms ∧
    (Forall (λ m, ¬ String.le (Migration.Id m) current) ms →
     ToApply ms current Down = Done []) ∧
    (Forall (λ m, Migration.Id m ≠ "") ms → ToApply ms "" Down = Done []).
Proof.
  intros Hs.
  exists (take (leading current ms) ms), (drop (leading current ms) ms).
  split_and!.
  - by rewrite take_drop.
  - apply ToApply_Down_reverse.
  - apply leading_take.
  - by apply sorted_drop_leading.
  - by apply sorted_take_filter.
  - intros Hnone. by rewrite ToApply_Down_reverse, leading_none.
  - intros Hne. rewrite ToApply_Down_reverse, leading_none; [done|].
    eapply Forall_impl; [exact Hne|]. intros m Hm Hle. by apply le_empty_inv in Hle.
Qed.

Lemma ToApply_Down_prefix_reversed_witness :
  ToApply [sample_001; sample_002; sample_003] "002" Down = Done [sample_002; sample_001].
Proof.
  assert (Sorted byId_le [sample_001; sample_002; sample_003]) as Hs
    by (repeat constructor).
  destruct (ToApply_Down_prefix_reversed _ "002" Hs)
    as (applied & pending & _ & -> & _ & _ & -> & _).
  reflexivity.
Defined.

(** C6. On a sorted list the cursor of the planner is the greatest index
    whose id is at most the watermark, [-1] when there is none; the
    watermark need not be the id of a definition. *)
Theorem ToApply_cursor_greatest (ms : list Migration.t) (current : string) :
  Sorted byId_le ms →
  ∃ cursor,
    ToApply_cursor ms current = Done cursor ∧
    -1 ≤ cursor < len ms ∧
    (∀ (i : nat) m, ms !! i = Some m →
       (String.le (Migration.Id m) current ↔ Z.of_nat i ≤ cursor)) ∧
    (cursor = -1 ↔ Forall (λ m, ¬ String.le (Migration.Id m) current) ms).
Proof.
  intros Hs. exists (Z.of_nat (leading current ms) - 1).
  pose proof (leading_le current ms) as Hle.
  assert (∀ (i : nat) m, ms !! i = Some m →
            (String.le (Migration.Id m) current ↔ (i < leading current ms)%nat)) as Hiff.
  { intros i m Hm. split.
    - intros Hc. destruct (decide (i < leading current ms)%nat) as [|Hge]; [done|].
      pose proof (sorted_drop_leading current ms Hs) as Hd.
      rewrite Forall_lookup in Hd.
      specialize (Hd (i - leading current ms)%nat m).
      rewrite lookup_drop in Hd.
      replace (leading current ms + (i - leading current ms))%nat with i in Hd by lia.
      apply Hd, ltb_not_le in Hm. done.
    - intros Hlt. pose proof (leading_take current ms) as Ht.
      rewrite Forall_lookup in Ht. apply (Ht i m).
      by rewrite lookup_take_lt. }
  split_and!.
  - apply ToApply_cursor_leading.
  - lia.
  - unfold len. lia.
  - intros i m Hm. rewrite (Hiff i m Hm). lia.
  - split.
    + intros Hc. apply Forall_lookup. intros i m Hm. rewrite (Hiff i m Hm). lia.
    + intros Hnone. rewrite leading_none by done. done.
Qed.

Lemma ToApply_cursor_greatest_witness :
  ToApply_cursor [sample_001; sample_002; sample_003] "0025" = Done 1.
Proof.
  assert (Sorted byId_le [sample_001; sample_002; sample_003]) as Hs
    by (repeat constructor).
  destruct (ToApply_cursor_greatest _ "0025" Hs) as (cursor & -> & _ & Hi & _).
  f_equal.
  pose proof (proj1 (Hi 1%nat sample_002 eq_refl)) as H1.
  pose proof (proj2 (Hi 2%nat sample_003 eq_refl)) as H2.
  assert (cursor < 2) by (destruct (decide (cursor < 2)) as [|Hn]; [done|];
    exfalso; assert (2 ≤ cursor) as Hc by lia; by apply H2 in Hc).
  assert (1 ≤ cursor) by (by apply H1).
  lia.
Defined.

(** [ToApply] returns a list for both directions. *)
Lemma ToApply_returns (ms : list Migration.t) (current : string)
    (dir : MigrationDirection) :
  dir = Up ∨ dir = Down → ∃ l, ToApply ms current dir = Done l.
Proof.
  intros [-> | ->]; eexists; [apply ToApply_Up_drop | apply ToApply_Down_reverse].
Qed.

(** ** [ToApply] over pointers *)

(** On a slice without a nil pointer the scan over pointers is the scan
    over the values. *)
Lemma Pointers_ToApply_scan (fuel : nat) (ms : list Migration.t) (current : string)
    (index : Z) :
  Pointers.ToApply_scan fuel (Some <$> ms) current index
  = ToApply_scan fuel ms current index.
Proof.
  revert index. induction fuel as [|fuel IH]; intros index; [done|].
  cbn [Pointers.ToApply_scan ToApply_scan].
  unfold at_index, len. rewrite length_fmap, list_lookup_fmap.
  case_bool_decide; [|done].
  case_bool_decide; [|done].
  destruct (ms !! Z.to_nat (index + 1)) as [m|]; [|done].
  cbn [fmap option_fmap option_map mbind outcome_bind Pointers.deref].
  destruct (String.leb _ _); [apply IH | done].
Qed.

Lemma Pointers_ToApply_cursor (ms : list Migration.t) (current : string) :
  Pointers.ToApply_cursor (Some <$> ms) current
  = Done (Z.of_nat (leading current ms) - 1).
Proof.
  unfold Pointers.ToApply_cursor.
  rewrite length_fmap, Pointers_ToApply_scan.
  apply ToApply_cursor_leading.
Qed.

(** The reversing loop copies pointers, whatever they are. *)
Lemma Pointers_ToApply_fill_reverse (fuel n i : nat)
    (ps toApply : list (option Migration.t)) :
  (i ≤ n ≤ length ps)%nat →
  length toApply = n →
  (n - i < fuel)%nat →
  Pointers.ToApply_fill fuel ps (Z.of_nat n - 1) (Z.of_nat i) toApply
  = Done (reverse (drop i (take n ps)) ++ drop (n - i) toApply).
Proof.
  revert i toApply. induction fuel as [|fuel IH]; intros i toApply Hi Hlen Hfuel; [lia|].
  simpl. case_bool_decide as Hlt.
  - destruct (lookup_lt_is_Some_2 ps i) as [p Hp]; [lia|].
    rewrite (at_index_lookup _ _ _ Hp). simpl.
    replace (Z.of_nat n - 1 - Z.of_nat i) with (Z.of_nat (n - 1 - i)) by lia.
    rewrite set_index_insert by lia. simpl.
    replace (Z.of_nat i + 1) with (Z.of_nat (S i)) by lia.
    rewrite IH by (rewrite ?length_insert; lia).
    f_equal.
    assert (take n ps !! i = Some p) as Hp' by (rewrite lookup_take_lt by lia; done).
    rewrite (drop_S _ _ _ Hp'), reverse_cons, <- app_assoc. f_equal.
    rewrite drop_insert_ge by lia.
    replace (n - 1 - i - (n - S i))%nat with 0%nat by lia.
    destruct (lookup_lt_is_Some_2 toApply (n - S i)) as [x Hx]; [lia|].
    rewrite (drop_S _ _ _ Hx). simpl.
    f_equal. f_equal. lia.
  - assert (i = n) as -> by lia.
    rewrite drop_ge by (rewrite length_take; lia).
    by rewrite Nat.sub_diag, drop_0.
Qed.

Lemma Pointers_ToApply_Up (ms : list Migration.t) (current : string) :
  Pointers.ToApply (Some <$> ms) current Up
  = Done (Some <$> drop (leading current ms) ms).
Proof.
  unfold Pointers.ToApply. rewrite Pointers_ToApply_cursor. simpl.
  unfold slice_from, len. rewrite length_fmap. pose proof (leading_le current ms).
  rewrite bool_decide_eq_true_2 by lia.
  rewrite fmap_drop. do 2 f_equal. lia.
Qed.

Lemma Pointers_ToApply_Down (ms : list Migration.t) (current : string) :
  Pointers.ToApply (Some <$> ms) current Down
  = Done (Some <$> reverse (take (leading current ms) ms)).
Proof.
  unfold Pointers.ToApply. rewrite Pointers_ToApply_cursor.
  cbn [mbind outcome_bind].
  rewrite (bool_decide_eq_false_2 (Down = Up)) by done.
  rewrite (bool_decide_eq_true_2 (Down = Down)) by done.
  pose proof (leading_le current ms).
  case_bool_decide as H0.
  - assert (leading current ms = 0%nat) as -> by lia. done.
  - unfold make. rewrite bool_decide_eq_true_2 by lia.
    cbn [mbind outcome_bind].
    replace (Z.to_nat (Z.of_nat (leading current ms) - 1 + 1)) with (leading current ms) by lia.
    rewrite length_fmap.
    change 0 with (Z.of_nat 0).
    rewrite Pointers_ToApply_fill_reverse;
      [| rewrite length_fmap; lia | rewrite length_replicate; lia | lia].
    rewrite drop_0, Nat.sub_0_r.
    rewrite drop_ge by (rewrite length_replicate; lia).
    by rewrite app_nil_r, fmap_reverse, fmap_take.
Qed.

(** On a slice without a nil pointer [ToApply] over pointers is [ToApply]
    over the values, for every direction. *)
Lemma Pointers_ToApply_values (ms : list Migration.t) (current : string)
    (dir : MigrationDirection) :
  Pointers.ToApply (Some <$> ms) current dir
  = match ToApply ms current dir with
    | Done l => Done (Some <$> l)
    | Panicked msg => Panicked msg
    | Diverged => Diverged
    end.
Proof.
  destruct (decide (dir = Up)) as [->|Hup].
  { by rewrite Pointers_ToApply_Up, ToApply_Up_drop. }
  destruct (decide (dir = Down)) as [->|Hdown].
  { by rewrite Pointers_ToApply_Down, ToApply_Down_reverse. }
  unfold Pointers.ToApply, ToApply.
  rewrite Pointers_ToApply_cursor, ToApply_cursor_leading.
  cbn [mbind outcome_bind].
  by rewrite !(bool_decide_eq_false_2 (dir = _)) by done.
Qed.

(** A slice without a nil pointer is the slice of the pointers to its
    values. *)
Lemma without_nil_values (ps : list (option Migration.t)) :
  Forall (λ p, p ≠ None) ps ↔ ∃ ms, ps = Some <$> ms.
Proof.
  split.
  - induction 1 as [|[m|] ps Hp _ [ms ->]]; [by exists [] | by exists (m :: ms) | done].
  - intros [ms ->]. apply Forall_fmap, Forall_true. done.
Qed.

(** C10, as amended.  [ToApply] is total for the directions [Up] and
    [Down] on a list that holds no nil pointer: whatever such a list and
    the watermark, it indexes within bounds, reads through no nil pointer,
    ends and returns a list, the pointers to what [ToApply] returns on the
    values; on the empty list it returns the empty list. *)
Theorem ToApply_total_without_nil (migrations : list (option Migration.t))
    (current : string) :
  Forall (λ p, p ≠ None) migrations →
  (∃ ms up down,
     migrations = Some <$> ms ∧
     ToApply ms current Up = Done up ∧
     Pointers.ToApply migrations current Up = Done (Some <$> up) ∧
     ToApply ms current Down = Done down ∧
     Pointers.ToApply migrations current Down = Done (Some <$> down)) ∧
  Pointers.ToApply [] current Up = Done [] ∧
  Pointers.ToApply [] current Down = Done [].
Proof.
  intros Hnil. split_and!; [|done..].
  apply without_nil_values in Hnil as [ms ->].
  exists ms, (drop (leading current ms) ms), (reverse (take (leading current ms) ms)).
  split_and!.
  - done.
  - apply ToApply_Up_drop.
  - apply Pointers_ToApply_Up.
  - apply ToApply_Down_reverse.
  - apply Pointers_ToApply_Down.
Qed.

Lemma ToApply_total_without_nil_witness :
  Pointers.ToApply [Some sample_001; Some sample_002; Some sample_003] "001" Up
  = Done [Some sample_002; Some sample_003] ∧
  Pointers.ToApply [Some sample_001; Some sample_002; Some sample_003] "001" Down
  = Done [Some sample_001].
Proof.
  destruct (ToApply_total_without_nil
              [Some sample_001; Some sample_002; Some sample_003] "001")
    as [(ms & up & down & Hms & Hup & -> & Hdown & ->) _].
  - repeat constructor; done.
  - destruct ms as [|m1 [|m2 [|m3 [|]]]]; try discriminate Hms.
    injection Hms as <- <- <-.
    vm_compute in Hup. vm_compute in Hdown.
    injection Hup as <-. injection Hdown as <-. split; reflexivity.
Defined.

(** C10, as it stands, fails on a list that holds a nil pointer: the scan
    reads the id through the first pointer, in
    [migrations[index+1].Id <= current], and panics when it is nil. *)
Lemma ToApply_total_counterexample :
  Pointers.ToApply [None] "" Up
  = Panicked "invalid memory address or nil pointer dereference" ∧
  Pointers.ToApply [None] "" Down
  = Panicked "invalid memory address or nil pointer dereference".
Proof. split; reflexivity. Qed.

(** ** The executor *)

Section Executor.

Context (fault : World → Call → option string).
Context (sort_Sort : list Migration.t → list Migration.t).

(** The statements of one migration: either all ran, inside the
    transaction, or one failed and the transaction was rolled back. *)
Lemma exec_queries_inv (qs : list string) (w w' : World) (r : outcome (option error))
    (tx : Store) (txs : list Store) :
  open w = tx :: txs →
  exec_queries fault qs w = (w', r) →
  committed w' = committed w ∧ clock w' = clock w ∧
  ((r = Done None ∧
    open w' = {| ledger := ledger tx; statements := statements tx ++ qs |} :: txs ∧
    calls w' = calls w ++ (CallExec <$> qs)) ∨
   (∃ e, r = Done (Some e) ∧ open w' = txs)).
Proof.
  revert w tx. induction qs as [|q qs IH]; intros w tx Hopen Hrun.
  - simpl in Hrun. injection Hrun as <- <-.
    split_and!; [done..|]. left. rewrite !app_nil_r. by destruct tx.
  - simpl in Hrun. unfold mbind, M_bind, trans_Exec in Hrun. rewrite Hopen in Hrun.
    destruct (failure fault w (CallExec q)) as [e|] eqn:Hf.
    + unfold trans_Rollback in Hrun. simpl in Hrun. rewrite Hopen in Hrun.
      injection Hrun as <- <-. split_and!; [done..|]. right. by exists e.
    + eapply IH in Hrun; [|done]. simpl in Hrun.
      destruct Hrun as (Hc & Hk & [(-> & Ho & Hl) | (e & -> & Ho)]).
      * split_and!; [done..|]. left. split_and!; [done| |].
        -- by rewrite Ho, <- app_assoc.
        -- by rewrite Hl, <- app_assoc.
      * split_and!; [done..|]. right. by exists e.
Qed.

(** One migration applied with direction [Up]: its statements and its
    ledger record are committed together. *)
Lemma apply_migration_Up_ok (dbMap : DbMap.t) (m : PlannedMigration.t) (w w' : World) :
  apply_migration fault dbMap Up m w = (w', Done None) →
  committed w' =
    {| ledger := ledger (committed w) ++
         [ {| MigrationRecord.Id := PlannedMigration.Id m;
              MigrationRecord.AppliedAt := clock w |} ];
       statements := statements (committed w) ++ PlannedMigration.Queries m |} ∧
  open w' = open w ∧
  PlannedMigration.Id m ∉ ids (ledger (committed w)).
Proof.
  unfold apply_migration, mbind, M_bind, dbMap_Begin.
  destruct (failure fault w CallBegin) as [e|]; [done|].
  destruct (exec_queries fault _ _) as [w1 r1] eqn:Hq.
  eapply exec_queries_inv in Hq; [|done].
  destruct Hq as (Hc1 & Hk1 & [(-> & Ho1 & Hl1) | (e & -> & Ho1)]); [|done].
  simpl in *.
  unfold record_migration. rewrite bool_decide_eq_true_2 by done.
  unfold mbind, M_bind, time_Now, trans_Insert. simpl. rewrite Ho1.
  destruct (failure fault _ _) as [e|]; [done|]. simpl.
  case_bool_decide as Hin; [done|].
  unfold trans_Commit. simpl.
  destruct (failure fault _ _) as [e|]; [done|].
  intros [= <-]. simpl. by rewrite Hk1.
Qed.

(** One migration applied with direction [Down]. *)
Lemma apply_migration_Down_ok (dbMap : DbMap.t) (m : PlannedMigration.t) (w w' : World) :
  apply_migration fault dbMap Down m w = (w', Done None) →
  committed w' =
    {| ledger := filter (λ r, MigrationRecord.Id r ≠ PlannedMigration.Id m)
                   (ledger (committed w));
       statements := statements (committed w) ++ PlannedMigration.Queries m |} ∧
  open w' = open w.
Proof.
  unfold apply_migration, mbind, M_bind, dbMap_Begin.
  destruct (failure fault w CallBegin) as [e|]; [done|].
  destruct (exec_queries fault _ _) as [w1 r1] eqn:Hq.
  eapply exec_queries_inv in Hq; [|done].
  destruct Hq as (Hc1 & Hk1 & [(-> & Ho1 & Hl1) | (e & -> & Ho1)]); [|done].
  simpl in *.
  unfold record_migration.
  rewrite (bool_decide_eq_false_2 (Down = Up)) by done.
  rewrite (bool_decide_eq_true_2 (Down = Down)) by done.
  unfold mbind, M_bind, trans_Delete. simpl. rewrite Ho1.
  destruct (failure fault _ _) as [e|]; [done|]. simpl.
  unfold trans_Commit. simpl.
  destruct (failure fault _ _) as [e|]; [done|].
  by intros [= <-].
Qed.

(** An iteration that ends with an error leaves the committed store as it
    was. *)
Lemma apply_migration_error (dbMap : DbMap.t) (dir : MigrationDirection)
    (m : PlannedMigration.t) (w w' : World) (e : error) :
  apply_migration fault dbMap dir m w = (w', Done (Some e)) →
  committed w' = committed w.
Proof.
  unfold apply_migration, mbind, M_bind, dbMap_Begin.
  destruct (failure fault w CallBegin) as [e0|]; [by intros [= <- _]|].
  destruct (exec_queries fault _ _) as [w1 r1] eqn:Hq.
  eapply exec_queries_inv in Hq; [|done].
  destruct Hq as (Hc1 & Hk1 & [(-> & Ho1 & Hl1) | (e1 & -> & Ho1)]);
    [|by intros [= <- _]].
  simpl in *.
  unfold record_migration, panic.
  repeat case_bool_decide; [| |done];
    unfold mbind, M_bind, time_Now, trans_Insert, trans_Delete; simpl; rewrite Ho1;
    (destruct (failure fault _ _) as [?|]; simpl; [by intros [= <- _]|]);
    repeat case_bool_decide; simpl; try (by intros [= <- _]);
    unfold trans_Commit; simpl;
    (destruct (failure fault _ _) as [?|]; simpl; [by intros [= <- _]|]);
    done.
Qed.

(** ** The loop over the planned migrations *)

(** Migrations applied without error are all counted, and the loop goes on
    with the rest. *)
Lemma apply_migrations_app (dbMap : DbMap.t) (dir : MigrationDirection)
    (pre rest : list PlannedMigration.t) (k n : Z) (w w1 : World) :
  apply_migrations fault dbMap dir pre k w = (w1, Done (n, None)) →
  n = k + len pre ∧
  apply_migrations fault dbMap dir (pre ++ rest) k w
  = apply_migrations fault dbMap dir rest n w1.
Proof.
  revert k w. induction pre as [|m pre IH]; intros k w Hrun.
  - simpl in Hrun. injection Hrun as <- <-. unfold len. simpl. split; [lia|done].
  - simpl in *. unfold mbind, M_bind in *.
    destruct (apply_migration fault dbMap dir m w) as [w2 [[e|]| |]]; try done.
    apply IH in Hrun as [-> Hrun]. split; [unfold len; simpl; lia | done].
Qed.

(** Direction [Up]: the loop, when it ends without error, has appended to
    the ledger one record per planned migration, in order. *)
Lemma apply_migrations_Up_ok (dbMap : DbMap.t) (plan : list PlannedMigration.t)
    (k n : Z) (w w' : World) :
  apply_migrations fault dbMap Up plan k w = (w', Done (n, None)) →
  ∃ recs,
    ledger (committed w') = ledger (committed w) ++ recs ∧
    ids recs = PlannedMigration.Id <$> plan ∧
    statements (committed w')
    = statements (committed w) ++ concat (PlannedMigration.Queries <$> plan) ∧
    open w' = open w.
Proof.
  revert k w. induction plan as [|m plan IH]; intros k w Hrun.
  - simpl in Hrun. injection Hrun as <- <-. exists []. by rewrite !app_nil_r.
  - simpl in Hrun. unfold mbind, M_bind in Hrun.
    destruct (apply_migration fault dbMap Up m w) as [w2 [[e|]| |]] eqn:Hm; try done.
    apply apply_migration_Up_ok in Hm as (Hc & Ho & _).
    apply IH in Hrun as (recs & Hl & Hi & Hs & Ho').
    rewrite Hc in Hl, Hs. simpl in Hl, Hs.
    eexists (_ :: recs). split_and!.
    + by rewrite Hl, <- app_assoc.
    + simpl. by rewrite Hi.
    + simpl. by rewrite Hs, <- app_assoc.
    + congruence.
Qed.

(** Direction [Down]: the loop, when it ends without error, has deleted
    the records of the planned migrations. *)
Lemma apply_migrations_Down_ok (dbMap : DbMap.t) (plan : list PlannedMigration.t)
    (k n : Z) (w w' : World) :
  apply_migrations fault dbMap Down plan k w = (w', Done (n, None)) →
  ledger (committed w')
  = filter (λ r, MigrationRecord.Id r ∉ PlannedMigration.Id <$> plan)
      (ledger (committed w)) ∧
  open w' = open w.
Proof.
  revert k w. induction plan as [|m plan IH]; intros k w Hrun.
  - simpl in Hrun. injection Hrun as <- <-. split; [|done].
    symmetry. apply filter_all, Forall_forall. intros r _. apply not_elem_of_nil.
  - simpl in Hrun. unfold mbind, M_bind in Hrun.
    destruct (apply_migration fault dbMap Down m w) as [w2 [[e|]| |]] eqn:Hm; try done.
    apply apply_migration_Down_ok in Hm as (Hc & Ho).
    apply IH in Hrun as (Hl & Ho').
    rewrite Hc in Hl. simpl in Hl. split; [|congruence].
    rewrite Hl, list_filter_filter. apply list_filter_iff.
    intros r. rewrite fmap_cons, not_elem_of_cons. tauto.
Qed.

(** With an empty plan nothing is called. *)
Lemma apply_migrations_nil (dbMap : DbMap.t) (dir : MigrationDirection) (k : Z) (w : World) :
  apply_migrations fault dbMap dir [] k w = (w, Done (k, None)).
Proof. done. Qed.

(** ** PlanMigration *)

Lemma slice_to_capped {A} (max : Z) (pending : list A) :
  slice_to pending
    (if bool_decide (max > 0 ∧ max < len pending) then max else len pending)
  = Done (capped max pending).
Proof.
  unfold slice_to, capped, len.
  destruct (bool_decide (max > 0 ∧ max < _)) eqn:Hc.
  - apply bool_decide_eq_true_1 in Hc.
    by rewrite !bool_decide_eq_true_2 by lia.
  - apply bool_decide_eq_false_1 in Hc.
    rewrite (bool_decide_eq_true_2 (0 ≤ Z.of_nat _ ≤ _)) by lia.
    rewrite Nat2Z.id, firstn_all.
    case_bool_decide; [|done]. by rewrite take_ge by lia.
Qed.

Lemma capped_length {A} (max : Z) (pending : list A) :
  0 < max → len (capped max pending) ≤ max.
Proof.
  intros Hmax. unfold capped, len. rewrite bool_decide_eq_true_2 by done.
  rewrite length_take. lia.
Qed.

Lemma capped_zero {A} (pending : list A) : capped 0 pending = pending.
Proof. done. Qed.

(** When the dialect is known, the table can be made sure of, the source
    yields its migrations and the ledger can be read, [PlanMigration]
    returns the capped pending list with the queries of the direction. *)
Lemma PlanMigration_ok `{MigrationSource Src} (dialect : string) (m : Src)
    (dir : MigrationDirection) (max : Z) (w : World)
    (d : Dialect) (ms pending : list Migration.t) :
  MigrationDialects !! dialect = Some d →
  fault w CallCreateTables = None →
  FindMigrations m = (ms, None) →
  fault (log CallFindMigrations (log CallCreateTables w)) CallSelectOne = None →
  ToApply (sort_Sort ms) (watermark (ledger (committed w))) dir = Done pending →
  PlanMigration fault sort_Sort dialect m dir max w
  = (planned_world w,
     Done (plan dir <$> capped max pending,
           Some {| DbMap.Dialect := d; DbMap.TableName := "gorp_migrations" |},
           None)).
Proof.
  intros Hd Hc Hf Hs Ha.
  unfold PlanMigration, getMigrationDbMap. rewrite Hd.
  unfold mbind, M_bind, dbMap_CreateTablesIfNotExists, find, dbMap_SelectOne, failure, pure.
  rewrite Hc, Hf. simpl. rewrite Hs. simpl.
  unfold watermark in Ha.
  destruct (newest (ledger (committed w))) as [r|]; simpl;
    rewrite Ha, slice_to_capped; done.
Qed.

(** Conversely, a plan returned without error was computed that way. *)
Lemma PlanMigration_inv `{MigrationSource Src} (dialect : string) (m : Src)
    (dir : MigrationDirection) (max : Z) (w w' : World)
    (planned : list PlannedMigration.t) (dbMap : option DbMap.t) :
  PlanMigration fault sort_Sort dialect m dir max w = (w', Done (planned, dbMap, None)) →
  ∃ d ms pending,
    MigrationDialects !! dialect = Some d ∧
    dbMap = Some {| DbMap.Dialect := d; DbMap.TableName := "gorp_migrations" |} ∧
    FindMigrations m = (ms, None) ∧
    ToApply (sort_Sort ms) (watermark (ledger (committed w))) dir = Done pending ∧
    planned = plan dir <$> capped max pending ∧
    w' = planned_world w.
Proof.
  unfold PlanMigration, getMigrationDbMap.
  destruct (MigrationDialects !! dialect) as [d|] eqn:Hd; [|done].
  unfold mbind, M_bind, dbMap_CreateTablesIfNotExists, find, dbMap_SelectOne, pure.
  destruct (failure fault w CallCreateTables) as [e|]; [done|].
  destruct (FindMigrations m) as [ms [e|]] eqn:Hf; [done|].
  simpl.
  destruct (failure fault _ CallSelectOne) as [e|] eqn:Hs.
  { rewrite bool_decide_eq_true_2; [done|].
    unfold failure in Hs. destruct (fault _ _); simplify_eq/=. done. }
  unfold watermark.
  destruct (newest (ledger (committed w))) as [r|]; simpl;
    (destruct (ToApply _ _ _) as [pending| |] eqn:Ha; [|done..]);
    rewrite slice_to_capped; intros [= <- <- <-];
    exists d, ms, pending; done.
Qed.

(** A plan returned with an error is empty, and the stores are untouched. *)
Lemma PlanMigration_error `{MigrationSource Src} (dialect : string) (m : Src)
    (dir : MigrationDirection) (max : Z) (w w' : World)
    (planned : list PlannedMigration.t) (dbMap : option DbMap.t) (e : error) :
  PlanMigration fault sort_Sort dialect m dir max w = (w', Done (planned, dbMap, Some e)) →
  planned = [] ∧ dbMap = None ∧ committed w' = committed w ∧ open w' = open w.
Proof.
  unfold PlanMigration, getMigrationDbMap.
  destruct (MigrationDialects !! dialect) as [d|] eqn:Hd; [|by intros [= <- <- <- _]].
  unfold mbind, M_bind, dbMap_CreateTablesIfNotExists, find, dbMap_SelectOne, pure.
  destruct (failure fault w CallCreateTables) as [e0|]; [by intros [= <- <- <- _]|].
  destruct (FindMigrations m) as [ms [e0|]] eqn:Hf; [by intros [= <- <- <- _]|].
  simpl.
  destruct (failure fault _ CallSelectOne) as [e0|] eqn:Hs.
  { rewrite bool_decide_eq_true_2; [by intros [= <- <- <- _]|].
    unfold failure in Hs. destruct (fault _ _); simplify_eq/=. done. }
  destruct (newest (ledger (committed w))) as [r|]; simpl;
    (destruct (ToApply _ _ _) as [pending| |] eqn:Ha; [|done..]);
    rewrite slice_to_capped; done.
Qed.

(** Planning leaves the stores untouched whatever it returns, and makes
    no other calls than its three. *)
Lemma PlanMigration_stores `{MigrationSource Src} (dialect : string) (m : Src)
    (dir : MigrationDirection) (max : Z) (w w' : World)
    (r : outcome (list PlannedMigration.t * option DbMap.t * option error)) :
  PlanMigration fault sort_Sort dialect m dir max w = (w', r) →
  committed w' = committed w ∧ open w' = open w ∧
  ∃ k, calls w' = calls w ++ take k [CallCreateTables; CallFindMigrations; CallSelectOne].
Proof.
  assert (∀ r0 : outcome (list PlannedMigration.t * option DbMap.t * option error),
            (w, r0) = (w', r) →
            committed w' = committed w ∧ open w' = open w ∧
            ∃ k, calls w' = calls w
                   ++ take k [CallCreateTables; CallFindMigrations; CallSelectOne]) as H0.
  { intros r0 [= <- _]. split_and!; [done..|]. exists 0%nat. by rewrite app_nil_r. }
  assert (∀ r0, (log CallCreateTables w, r0) = (w', r) →
            committed w' = committed w ∧ open w' = open w ∧
            ∃ k, calls w' = calls w
                   ++ take k [CallCreateTables; CallFindMigrations; CallSelectOne]) as H1.
  { intros r0 [= <- _]. split_and!; [done..|]. by exists 1%nat. }
  assert (∀ r0, (log CallFindMigrations (log CallCreateTables w), r0) = (w', r) →
            committed w' = committed w ∧ open w' = open w ∧
            ∃ k, calls w' = calls w
                   ++ take k [CallCreateTables; CallFindMigrations; CallSelectOne]) as H2.
  { intros r0 [= <- _]. split_and!; [done..|]. exists 2%nat. simpl. by rewrite <- app_assoc. }
  assert (∀ r0, (planned_world w, r0) = (w', r) →
            committed w' = committed w ∧ open w' = open w ∧
            ∃ k, calls w' = calls w
                   ++ take k [CallCreateTables; CallFindMigrations; CallSelectOne]) as H3.
  { intros r0 [= <- _]. split_and!; [done..|]. exists 3%nat. simpl. by rewrite <- !app_assoc. }
  unfold PlanMigration, getMigrationDbMap.
  destruct (MigrationDialects !! dialect) as [d|] eqn:Hd; [|by apply H0].
  unfold mbind, M_bind, dbMap_CreateTablesIfNotExists, find, dbMap_SelectOne, pure.
  destruct (failure fault w CallCreateTables) as [e0|]; [by apply H1|].
  destruct (FindMigrations m) as [ms [e0|]] eqn:Hf; [by apply H2|].
  simpl. fold (planned_world w).
  destruct (failure fault _ CallSelectOne) as [e0|] eqn:Hs.
  { rewrite bool_decide_eq_true_2; [by apply H3|].
    unfold failure in Hs. destruct (fault _ _); simplify_eq/=. done. }
  destruct (newest (ledger (committed w))) as [r0|]; simpl;
    (destruct (ToApply _ _ _) as [pending| |] eqn:Ha; [|by apply H3..]);
    rewrite slice_to_capped; by apply H3.
Qed.

(** With direction [Up] or [Down], planning does not panic. *)
Lemma PlanMigration_total `{MigrationSource Src} (dialect : string) (m : Src)
    (dir : MigrationDirection) (max : Z) (w : World) :
  dir = Up ∨ dir = Down →
  ∃ w' planned dbMap err,
    PlanMigration fault sort_Sort dialect m dir max w = (w', Done (planned, dbMap, err)).
Proof.
  intros Hdir.
  assert (∀ ms current, ∃ pending, ToApply ms current dir = Done pending) as Htotal.
  { intros ms current. by apply ToApply_returns. }
  unfold PlanMigration, getMigrationDbMap.
  destruct (MigrationDialects !! dialect) as [d|] eqn:Hd; [|by eexists _, _, _, _].
  unfold mbind, M_bind, dbMap_CreateTablesIfNotExists, find, dbMap_SelectOne, pure.
  destruct (failure fault w CallCreateTables) as [e0|]; [by eexists _, _, _, _|].
  destruct (FindMigrations m) as [ms [e0|]] eqn:Hf; [by eexists _, _, _, _|].
  simpl.
  destruct (failure fault _ CallSelectOne) as [e0|] eqn:Hs.
  { rewrite bool_decide_eq_true_2; [by eexists _, _, _, _|].
    unfold failure in Hs. destruct (fault _ _); simplify_eq/=. done. }
  destruct (newest (ledger (committed w))) as [r0|]; simpl;
    (edestruct Htotal as [pending ->]);
    rewrite slice_to_capped; by eexists _, _, _, _.
Qed.

(** ** ExecMax *)

Lemma ExecMax_unfold `{MigrationSource Src} (dialect : string) (m : Src)
    (dir : MigrationDirection) (max : Z) (w : World) :
  ExecMax fault sort_Sort dialect m dir max w
  = match PlanMigration fault sort_Sort dialect m dir max w with
    | (w', Done (_, _, Some e)) => (w', Done (0, Some e))
    | (w', Done (_, None, None)) => (w', Panicked "nil pointer dereference")
    | (w', Done (migrations, Some dbMap, None)) =>
      apply_migrations fault dbMap dir migrations 0 w'
    | (w', Panicked msg) => (w', Panicked msg)
    | (w', Diverged) => (w', Diverged)
    end.
Proof.
  unfold ExecMax, mbind, M_bind.
  destruct (PlanMigration _ _ _ _ _ _ _) as [w' [[[ms [d|]] [e|]]| |]]; done.
Qed.

(** C9. With a dialect that is not one of [MigrationDialects],
    [PlanMigration] fails with the unknown-dialect error and [ExecMax]
    returns the count 0 with it; the world is as it was, so that no call was
    made: no table created, no source read, no transaction begun. *)
Theorem unknown_dialect_fails_first `{MigrationSource Src} (dialect : string) (m : Src)
    (dir : MigrationDirection) (max : Z) (w : World) :
  MigrationDialects !! dialect = None →
  PlanMigration fault sort_Sort dialect m dir max w
  = (w, Done ([], None, Some (Errorf ("Unknown dialect: " +:+ dialect)))) ∧
  ExecMax fault sort_Sort dialect m dir max w
  = (w, Done (0, Some (Errorf ("Unknown dialect: " +:+ dialect)))).
Proof.
  intros Hd.
  assert (PlanMigration fault sort_Sort dialect m dir max w
          = (w, Done ([], None, Some (Errorf ("Unknown dialect: " +:+ dialect))))) as Hp.
  { unfold PlanMigration, getMigrationDbMap. by rewrite Hd. }
  split; [done|]. by rewrite ExecMax_unfold, Hp.
Qed.

(** C5. The cap of [PlanMigration]: with [max > 0] the plan is the first
    [max] entries of the pending list, in its order, hence at most [max]
    of them; with [max = 0] it is the whole pending list.  With direction
    [Up] the plan is in ascending order of id and no pending migration left
    out has a smaller id than a planned one. *)
Theorem PlanMigration_cap `{MigrationSource Src} (dialect : string) (m : Src)
    (dir : MigrationDirection) (max : Z) (w : World)
    (d : Dialect) (ms : list Migration.t) :
  sort_contract sort_Sort →
  MigrationDialects !! dialect = Some d →
  fault w CallCreateTables = None →
  FindMigrations m = (ms, None) →
  fault (log CallFindMigrations (log CallCreateTables w)) CallSelectOne = None →
  dir = Up ∨ dir = Down →
  ∃ pending planned dbMap,
    ToApply (sort_Sort ms) (watermark (ledger (committed w))) dir = Done pending ∧
    PlanMigration fault sort_Sort dialect m dir max w
    = (planned_world w, Done (planned, Some dbMap, None)) ∧
    (0 < max →
     planned = plan dir <$> take (Z.to_nat max) pending ∧ len planned ≤ max) ∧
    (max = 0 → planned = plan dir <$> pending) ∧
    (dir = Up →
     Sorted byId_le (PlannedMigration.Migration <$> planned) ∧
     ∀ p q, p ∈ planned → q ∈ pending →
            q ∉ PlannedMigration.Migration <$> planned →
            String.le (PlannedMigration.Id p) (Migration.Id q)).
Proof.
  intros Hsort Hd Hc Hf Hs Hdir.
  destruct (ToApply_returns (sort_Sort ms) (watermark (ledger (committed w))) dir Hdir)
    as [pending Hp].
  exists pending, (plan dir <$> capped max pending). eexists.
  split_and!.
  - done.
  - by apply (PlanMigration_ok _ _ _ _ _ d ms).
  - intros Hmax. split.
    + unfold capped. by rewrite bool_decide_eq_true_2.
    + unfold len. rewrite length_fmap. by apply capped_length.
  - by intros ->.
  - intros ->.
    assert (PlannedMigration.Migration <$> (plan Up <$> capped max pending)
            = capped max pending) as Hm.
    { rewrite <- list_fmap_compose. apply list_fmap_id. }
    rewrite Hm.
    assert (Sorted byId_le pending) as Hsp.
    { rewrite ToApply_Up_drop in Hp. injection Hp as <-.
      apply sorted_drop, Hsort. }
    assert (∃ j, capped max pending = take j pending) as [j Hj].
    { unfold capped. case_bool_decide; [by eexists|].
      exists (length pending). by rewrite firstn_all. }
    rewrite Hj. split; [by apply sorted_take|].
    intros p q Hpin Hq Hqn.
    apply list_elem_of_fmap in Hpin as (x & -> & Hx).
    rewrite <- (take_drop j pending) in Hq.
    apply elem_of_app in Hq as [Hq|Hq]; [done|].
    apply (Sorted_StronglySorted _) in Hsp.
    rewrite <- (take_drop j pending) in Hsp.
    apply (StronglySorted_app_1_elem_of _ _ _ _ _ Hsp Hx Hq).
Qed.

Lemma exec_queries_app (qs1 rest : list string) (w w2 : World) :
  exec_queries fault qs1 w = (w2, Done None) →
  exec_queries fault (qs1 ++ rest) w = exec_queries fault rest w2.
Proof.
  revert w. induction qs1 as [|q qs1 IH]; intros w Hrun.
  - simpl in Hrun. by injection Hrun as <-.
  - simpl in *. unfold mbind, M_bind in *.
    destruct (trans_Exec fault q w) as [w' [[e|]| |]]; try done.
    + unfold trans_Rollback in Hrun. by destruct (open w').
    + by apply IH.
Qed.

(** C4. When a statement of a planned migration fails, the transaction of
    that migration is rolled back, the migrations planned after it are not
    processed, and [ExecMax] returns the number of migrations committed
    before it together with the error of the statement; what these
    migrations committed, their ledger records included, stays. *)
Theorem ExecMax_statement_failure `{MigrationSource Src} (dialect : string) (m : Src)
    (dir : MigrationDirection) (max : Z) (w0 w w1 w2 : World) (dbMap : DbMap.t)
    (pre post : list PlannedMigration.t) (mig : PlannedMigration.t)
    (qs1 qs2 : list string) (q : string) (n : Z) (msg : string) :
  PlanMigration fault sort_Sort dialect m dir max w0
  = (w, Done (pre ++ mig :: post, Some dbMap, None)) →
  apply_migrations fault dbMap dir pre 0 w = (w1, Done (n, None)) →
  fault w1 CallBegin = None →
  PlannedMigration.Queries mig = qs1 ++ q :: qs2 →
  exec_queries fault qs1 (set_open (committed w1 :: open w1) (log CallBegin w1))
  = (w2, Done None) →
  fault w2 (CallExec q) = Some msg →
  ∃ w',
    ExecMax fault sort_Sort dialect m dir max w0 = (w', Done (n, Some (Errorf msg))) ∧
    n = len pre ∧
    committed w' = committed w1 ∧
    open w' = open w1 ∧
    calls w' = calls w2 ++ [CallExec q; CallRollback] ∧
    (dir = Up →
     ids (ledger (committed w'))
     = ids (ledger (committed w0)) ++ (PlannedMigration.Id <$> pre)).
Proof.
  intros Hplan Hpre Hbegin Hqs Hqs1 Hq.
  pose proof (PlanMigration_stores _ _ _ _ _ _ _ Hplan) as (Hcw & _).
  rewrite ExecMax_unfold, Hplan.
  destruct (apply_migrations_app _ _ _ (mig :: post) _ _ _ _ Hpre) as [Hn ->].
  pose proof Hqs1 as Hinv.
  eapply exec_queries_inv in Hinv; [|done].
  destruct Hinv as (Hc2 & _ & [(_ & Ho2 & _) | (e & [=] & _)]).
  simpl in Hc2, Ho2.
  simpl. unfold mbind at 1. unfold M_bind.
  unfold apply_migration, mbind, M_bind, dbMap_Begin, failure. rewrite Hbegin. simpl.
  rewrite Hqs, (exec_queries_app _ _ _ _ Hqs1). simpl.
  unfold mbind, M_bind, trans_Exec, trans_Rollback, failure. rewrite Hq. simpl.
  rewrite Ho2. simpl.
  eexists. split_and!; [done | lia | done | done | simpl; by rewrite <- app_assoc |].
  intros ->. simpl. rewrite Hc2.
  apply apply_migrations_Up_ok in Hpre as (recs & Hl & Hi & _).
  unfold ids in *. by rewrite Hl, fmap_app, Hi, Hcw.
Qed.

(** ** The watermark *)

Lemma newest_spec (rs : list MigrationRecord.t) :
  match newest rs with
  | None => rs = []
  | Some b =>
    b ∈ rs ∧ Forall (λ r, String.le (MigrationRecord.Id r) (MigrationRecord.Id b)) rs
  end.
Proof.
  induction rs as [|r rs IH]; simpl; [done|].
  destruct (newest rs) as [b|].
  - destruct IH as [Hin Hall].
    destruct (String.leb _ _) eqn:E.
    + apply leb_le in E. split; [apply list_elem_of_here|].
      constructor; [done|].
      eapply Forall_impl; [exact Hall|]. intros x Hx. simpl in Hx. by transitivity (MigrationRecord.Id b).
    + split; [by apply list_elem_of_further|].
      constructor; [|done].
      apply leb_false_ltb, ltb_not_le in E.
      destruct (total String.le (MigrationRecord.Id r) (MigrationRecord.Id b)); done.
  - subst rs. split; [apply list_elem_of_here|]. by repeat constructor.
Qed.

Lemma watermark_ge (rs : list MigrationRecord.t) (id : string) :
  id ∈ ids rs → String.le id (watermark rs).
Proof.
  intros Hin. apply list_elem_of_fmap in Hin as (r & -> & Hr).
  pose proof (newest_spec rs) as Hn. unfold watermark.
  destruct (newest rs) as [b|].
  - destruct Hn as [_ Hall]. rewrite Forall_forall in Hall. by apply Hall.
  - subst rs. by apply elem_of_nil in Hr.
Qed.

Lemma watermark_app (rs recs : list MigrationRecord.t) :
  String.le (watermark rs) (watermark (rs ++ recs)).
Proof.
  pose proof (newest_spec rs) as Hn.
  destruct (newest rs) as [b|] eqn:E.
  - destruct Hn as [Hin _].
    replace (watermark rs) with (MigrationRecord.Id b) by (unfold watermark; by rewrite E).
    apply watermark_ge. unfold ids. rewrite fmap_app, elem_of_app. left.
    apply list_elem_of_fmap. by exists b.
  - unfold watermark at 1. rewrite E. apply le_empty.
Qed.

(** ** Running [ExecMax] twice *)

(** What a run of [ExecMax] with direction [Up] and no cap that ends
    without error has done. *)
Lemma ExecMax_Up_ok `{MigrationSource Src} (dialect : string) (m : Src)
    (w w1 : World) (n : Z) :
  ExecMax fault sort_Sort dialect m Up 0 w = (w1, Done (n, None)) →
  ∃ ms recs,
    FindMigrations m = (ms, None) ∧
    ledger (committed w1) = ledger (committed w) ++ recs ∧
    ids recs
    = Migration.Id <$> drop (leading (watermark (ledger (committed w))) (sort_Sort ms))
                         (sort_Sort ms) ∧
    n = len recs.
Proof.
  rewrite ExecMax_unfold.
  destruct (PlanMigration _ _ _ _ _ _ _) as [wp [[[planned [dbMap|]] [e|]]| |]] eqn:Hp;
    try done.
  intros Hrun.
  apply PlanMigration_inv in Hp as (d & ms & pending & _ & _ & Hf & Ha & -> & ->).
  rewrite ToApply_Up_drop in Ha. injection Ha as <-.
  rewrite capped_zero in Hrun.
  pose proof (apply_migrations_app _ _ _ [] _ _ _ _ Hrun) as [Hn _].
  apply apply_migrations_Up_ok in Hrun as (recs & Hl & Hi & _).
  exists ms, recs. split_and!; [done | done | |].
  - rewrite Hi, <- list_fmap_compose. done.
  - rewrite Hn. unfold len. unfold ids in Hi.
    apply (f_equal length) in Hi. rewrite !length_fmap in Hi.
    rewrite length_fmap. lia.
Qed.

(** After such a run no id of a definition is above the watermark. *)
Lemma ExecMax_Up_watermark `{MigrationSource Src} (dialect : string) (m : Src)
    (w w1 : World) (n : Z) (ms : list Migration.t) :
  ExecMax fault sort_Sort dialect m Up 0 w = (w1, Done (n, None)) →
  FindMigrations m = (ms, None) →
  Forall (λ x, String.le (Migration.Id x) (watermark (ledger (committed w1))))
    (sort_Sort ms).
Proof.
  intros Hrun Hf.
  apply ExecMax_Up_ok in Hrun as (ms' & recs & Hf' & Hl & Hi & _).
  rewrite Hf in Hf'. injection Hf' as <-.
  set (wm := watermark (ledger (committed w))) in *.
  rewrite <- (take_drop (leading wm (sort_Sort ms)) (sort_Sort ms)).
  apply Forall_app. split.
  - eapply Forall_impl; [apply leading_take|].
    intros x Hx. simpl in Hx. etransitivity; [exact Hx|].
    rewrite Hl. apply watermark_app.
  - apply Forall_forall. intros x Hx. apply watermark_ge.
    rewrite Hl. unfold ids. rewrite fmap_app, elem_of_app. right.
    fold (ids recs). rewrite Hi. apply list_elem_of_fmap. by exists x.
Qed.

(** C8. Once [ExecMax] with direction [Up] and no cap has ended without
    error, the same call made again over the same definitions plans no
    migration, begins no transaction and returns the count 0.  The second
    call may find the definitions in another order, as it does with a
    memory source, whose slice the first call has sorted in place. *)
Theorem ExecMax_Up_idempotent `{MigrationSource Src} (dialect : string) (m m' : Src)
    (ms ms' : list Migration.t) (w w1 : World) (n : Z) :
  sort_contract sort_Sort →
  FindMigrations m = (ms, None) →
  FindMigrations m' = (ms', None) →
  ms' ≡ₚ ms →
  ExecMax fault sort_Sort dialect m Up 0 w = (w1, Done (n, None)) →
  ∃ w2 dbMap err,
    PlanMigration fault sort_Sort dialect m' Up 0 w1 = (w2, Done ([], dbMap, err)) ∧
    ExecMax fault sort_Sort dialect m' Up 0 w1 = (w2, Done (0, err)) ∧
    committed w2 = committed w1 ∧
    open w2 = open w1 ∧
    CallBegin ∉ drop (length (calls w1)) (calls w2).
Proof.
  intros Hsort Hf Hf' Hperm Hrun.
  pose proof (ExecMax_Up_watermark _ _ _ _ _ _ Hrun Hf) as Hwm.
  assert (Forall (λ x, String.le (Migration.Id x) (watermark (ledger (committed w1))))
            (sort_Sort ms')) as Hwm'.
  { apply Forall_forall. intros x Hx. rewrite Forall_forall in Hwm. apply Hwm.
    rewrite (proj1 (Hsort ms)), <- Hperm, <- (proj1 (Hsort ms')). done. }
  rewrite ExecMax_unfold.
  destruct (PlanMigration fault sort_Sort dialect m' Up 0 w1) as [w2 r] eqn:Hp.
  pose proof (PlanMigration_stores _ _ _ _ _ _ _ Hp) as (Hc & Ho & k & Hk).
  assert (CallBegin ∉ drop (length (calls w1)) (calls w2)) as Hcalls.
  { rewrite Hk, drop_app_length. intros Hin.
    apply (subseteq_take k) in Hin.
    repeat (apply elem_of_cons in Hin as [Hin|Hin]; [done|]).
    by apply elem_of_nil in Hin. }
  destruct (PlanMigration_total dialect m' Up 0 w1 (or_introl eq_refl))
    as (w2' & planned & dbMap & err & Hp').
  rewrite Hp in Hp'. injection Hp' as <- ->.
  destruct err as [e|].
  - apply PlanMigration_error in Hp as (-> & -> & _).
    by exists w2, None, (Some e).
  - apply PlanMigration_inv in Hp as (d & ms0 & pending & _ & -> & Hf0 & Ha & -> & ->).
    rewrite Hf' in Hf0. injection Hf0 as <-.
    rewrite ToApply_Up_drop, (leading_all _ _ Hwm'), drop_all in Ha.
    injection Ha as <-.
    eexists _, _, None. split_and!; done.
Qed.

Lemma filter_ext_in {A} (P Q : A → Prop) `{∀ x, Decision (P x)} `{∀ x, Decision (Q x)}
    (l : list A) :
  (∀ x, x ∈ l → (P x ↔ Q x)) → filter P l = filter Q l.
Proof.
  induction l as [|a l IH]; intros Hext; [done|].
  rewrite !filter_cons.
  rewrite IH by (intros x Hx; apply Hext; by apply list_elem_of_further).
  pose proof (Hext a (list_elem_of_here _ _)).
  repeat case_decide; tauto || done.
Qed.

(** What a run of [ExecMax] with direction [Down] and no cap that ends
    without error has done to the ledger. *)
Lemma ExecMax_Down_ok `{MigrationSource Src} (dialect : string) (m : Src)
    (w w1 : World) (n : Z) :
  ExecMax fault sort_Sort dialect m Down 0 w = (w1, Done (n, None)) →
  ∃ ms,
    FindMigrations m = (ms, None) ∧
    ledger (committed w1)
    = filter (λ r, MigrationRecord.Id r ∉
                   Migration.Id <$> take (leading (watermark (ledger (committed w)))
                                            (sort_Sort ms)) (sort_Sort ms))
        (ledger (committed w)).
Proof.
  rewrite ExecMax_unfold.
  destruct (PlanMigration _ _ _ _ _ _ _) as [wp [[[planned [dbMap|]] [e|]]| |]] eqn:Hp;
    try done.
  intros Hrun.
  apply PlanMigration_inv in Hp as (d & ms & pending & _ & _ & Hf & Ha & -> & ->).
  rewrite ToApply_Down_reverse in Ha. injection Ha as <-.
  rewrite capped_zero in Hrun.
  apply apply_migrations_Down_ok in Hrun as (Hl & _).
  exists ms. split; [done|].
  rewrite Hl. simpl. apply list_filter_iff. intros r.
  rewrite <- list_fmap_compose, fmap_reverse, elem_of_reverse. done.
Qed.

(** C7, as amended. [ExecMax] with direction [Up] and then with direction
    [Down], both without cap and without error, over the same definitions
    (which the second run may find in another order): the ledger ends as it
    was before the first run less the records of the definitions.  It is
    therefore back in its state before the first run when that state held
    no record of a definition, as the empty ledger does; and no record of a
    definition is left. *)
Theorem ExecMax_Up_Down_round_trip `{MigrationSource Src} (dialect : string) (m m' : Src)
    (ms ms' : list Migration.t) (w w1 w2 : World) (n1 n2 : Z) :
  sort_contract sort_Sort →
  FindMigrations m = (ms, None) →
  FindMigrations m' = (ms', None) →
  ms' ≡ₚ ms →
  ExecMax fault sort_Sort dialect m Up 0 w = (w1, Done (n1, None)) →
  ExecMax fault sort_Sort dialect m' Down 0 w1 = (w2, Done (n2, None)) →
  ledger (committed w2)
  = filter (λ r, MigrationRecord.Id r ∉ Migration.Id <$> ms) (ledger (committed w)) ∧
  ((∀ x, x ∈ ms → Migration.Id x ∉ ids (ledger (committed w))) →
   ledger (committed w2) = ledger (committed w)) ∧
  (∀ x, x ∈ ms → Migration.Id x ∉ ids (ledger (committed w2))).
Proof.
  intros Hsort Hf Hf' Hperm Hup Hdown.
  destruct (Hsort ms) as [Hperm1 _].
  destruct (Hsort ms') as [Hperm2 Hsorted].
  apply ExecMax_Up_ok in Hup as (ms0 & recs & Hf0 & Hl1 & Hi & _).
  rewrite Hf in Hf0. injection Hf0 as <-.
  apply ExecMax_Down_ok in Hdown as (ms0 & Hf0 & Hl2).
  rewrite Hf' in Hf0. injection Hf0 as <-.
  set (wm := watermark (ledger (committed w))) in *.
  set (wm' := watermark (ledger (committed w1))) in *.
  assert (∀ x r, x ∈ ms → r ∈ ledger (committed w1) →
            Migration.Id x = MigrationRecord.Id r →
            x ∈ take (leading wm' (sort_Sort ms')) (sort_Sort ms')) as Hreverted.
  { intros x r Hx Hr Hid.
    rewrite sorted_take_filter by done. apply list_elem_of_filter. split.
    - rewrite Hid. apply watermark_ge. by apply list_elem_of_fmap_2.
    - by rewrite Hperm2, Hperm. }
  assert (ledger (committed w2)
          = filter (λ r, MigrationRecord.Id r ∉ Migration.Id <$> ms)
              (ledger (committed w))) as Hmain.
  { rewrite Hl2, Hl1, filter_app.
    rewrite (filter_none _ recs).
    - rewrite app_nil_r. apply filter_ext_in. intros r Hr. split.
      + intros Hn Hin. apply Hn.
        apply list_elem_of_fmap in Hin as (x & Hid & Hx).
        apply list_elem_of_fmap. exists x. split; [done|].
        apply (Hreverted x r); [done | | done].
        rewrite Hl1. apply elem_of_app. by left.
      + intros Hn Hin. apply Hn.
        apply list_elem_of_fmap in Hin as (x & Hid & Hx).
        apply list_elem_of_fmap. exists x. split; [done|].
        apply subseteq_take in Hx. by rewrite <- Hperm, <- Hperm2.
    - apply Forall_forall. intros r Hr Hn. apply Hn.
      assert (MigrationRecord.Id r ∈ ids recs) as Hin by by apply list_elem_of_fmap_2.
      rewrite Hi in Hin. apply list_elem_of_fmap in Hin as (x & Hid & Hx).
      apply list_elem_of_fmap. exists x. split; [done|].
      apply (Hreverted x r); [| | done].
      + apply subseteq_drop in Hx. by rewrite <- Hperm1.
      + rewrite Hl1. apply elem_of_app. by right. }
  split_and!.
  - done.
  - intros Hdisj. rewrite Hmain. apply filter_all, Forall_forall.
    intros r Hr Hin. apply list_elem_of_fmap in Hin as (x & Hid & Hx).
    apply (Hdisj x Hx). rewrite <- Hid. by apply list_elem_of_fmap_2.
  - intros x Hx Hin. rewrite Hmain in Hin.
    apply list_elem_of_fmap in Hin as (r & Hid & Hr).
    apply list_elem_of_filter in Hr as [Hn _]. apply Hn.
    rewrite <- Hid. by apply list_elem_of_fmap_2.
Qed.

(** ** Runs on a driver that does not fail *)

Section Quiet.

Hypothesis quiet : ∀ w c, fault w c = None.

Lemma failure_quiet (w : World) (c : Call) : failure fault w c = None.
Proof. unfold failure. by rewrite quiet. Qed.

Lemma exec_queries_quiet (qs : list string) (w : World) (tx : Store) (txs : list Store) :
  open w = tx :: txs → ∃ w', exec_queries fault qs w = (w', Done None).
Proof.
  revert w tx. induction qs as [|q qs IH]; intros w tx Hopen; [by eexists|].
  simpl. unfold mbind, M_bind, trans_Exec. rewrite failure_quiet, Hopen.
  by eapply IH.
Qed.

Lemma apply_migration_Up_quiet (dbMap : DbMap.t) (m : PlannedMigration.t) (w : World) :
  PlannedMigration.Id m ∉ ids (ledger (committed w)) →
  ∃ w', apply_migration fault dbMap Up m w = (w', Done None).
Proof.
  intros Hfresh.
  unfold apply_migration, mbind, M_bind, dbMap_Begin. rewrite failure_quiet.
  destruct (exec_queries_quiet (PlannedMigration.Queries m)
              (set_open (committed w :: open w) (log CallBegin w))
              (committed w) (open w) eq_refl) as [w1 Hq].
  rewrite Hq.
  eapply exec_queries_inv in Hq; [|done].
  destruct Hq as (_ & _ & [(_ & Ho1 & _) | (e & [=] & _)]). simpl in Ho1.
  unfold record_migration. rewrite bool_decide_eq_true_2 by done.
  unfold mbind, M_bind, time_Now, trans_Insert. simpl.
  rewrite failure_quiet, Ho1. simpl.
  rewrite bool_decide_eq_false_2 by done.
  unfold trans_Commit. simpl. rewrite failure_quiet. by eexists.
Qed.

Lemma apply_migration_Down_quiet (dbMap : DbMap.t) (m : PlannedMigration.t) (w : World) :
  ∃ w', apply_migration fault dbMap Down m w = (w', Done None).
Proof.
  unfold apply_migration, mbind, M_bind, dbMap_Begin. rewrite failure_quiet.
  destruct (exec_queries_quiet (PlannedMigration.Queries m)
              (set_open (committed w :: open w) (log CallBegin w))
              (committed w) (open w) eq_refl) as [w1 Hq].
  rewrite Hq.
  eapply exec_queries_inv in Hq; [|done].
  destruct Hq as (_ & _ & [(_ & Ho1 & _) | (e & [=] & _)]). simpl in Ho1.
  unfold record_migration.
  rewrite (bool_decide_eq_false_2 (Down = Up)) by done.
  rewrite (bool_decide_eq_true_2 (Down = Down)) by done.
  unfold mbind, M_bind, trans_Delete. simpl.
  rewrite failure_quiet, Ho1. simpl.
  unfold trans_Commit. simpl. rewrite failure_quiet. by eexists.
Qed.

Lemma apply_migrations_Up_quiet (dbMap : DbMap.t) (planned : list PlannedMigration.t)
    (k : Z) (w : World) :
  NoDup (PlannedMigration.Id <$> planned) →
  (∀ p, p ∈ planned → PlannedMigration.Id p ∉ ids (ledger (committed w))) →
  ∃ w', apply_migrations fault dbMap Up planned k w = (w', Done (k + len planned, None)).
Proof.
  revert k w. induction planned as [|m planned IH]; intros k w Hnd Hfresh.
  - exists w. simpl. unfold len. simpl. by rewrite Z.add_0_r.
  - rewrite fmap_cons in Hnd. apply NoDup_cons in Hnd as [Hm Hnd].
    destruct (apply_migration_Up_quiet dbMap m w) as [w1 H1].
    { apply Hfresh, list_elem_of_here. }
    simpl. unfold mbind, M_bind. rewrite H1.
    apply apply_migration_Up_ok in H1 as (Hc & _).
    destruct (IH (k + 1) w1 Hnd) as [w' Hrun].
    { intros p Hp. rewrite Hc. simpl. unfold ids. rewrite fmap_app, elem_of_app.
      intros [Hin | Hin].
      - by apply (Hfresh p (list_elem_of_further _ _ _ Hp)).
      - apply list_elem_of_singleton in Hin. simpl in Hin.
        apply Hm. rewrite <- Hin. by apply list_elem_of_fmap_2. }
    exists w'. rewrite Hrun. do 3 f_equal. unfold len. simpl. lia.
Qed.

Lemma apply_migrations_Down_quiet (dbMap : DbMap.t) (planned : list PlannedMigration.t)
    (k : Z) (w : World) :
  ∃ w', apply_migrations fault dbMap Down planned k w = (w', Done (k + len planned, None)).
Proof.
  revert k w. induction planned as [|m planned IH]; intros k w.
  - exists w. simpl. unfold len. simpl. by rewrite Z.add_0_r.
  - destruct (apply_migration_Down_quiet dbMap m w) as [w1 H1].
    simpl. unfold mbind, M_bind. rewrite H1.
    destruct (IH (k + 1) w1) as [w' Hrun].
    exists w'. rewrite Hrun. do 3 f_equal. unfold len. simpl. lia.
Qed.

(** With a known dialect, a source that yields definitions of distinct
    ids and a driver that does not fail, [ExecMax] with direction [Up] ends
    without error, whatever the ledger. *)
Lemma ExecMax_Up_succeeds `{MigrationSource Src} (dialect : string) (m : Src)
    (d : Dialect) (ms : list Migration.t) (w : World) :
  sort_contract sort_Sort →
  MigrationDialects !! dialect = Some d →
  FindMigrations m = (ms, None) →
  NoDup (Migration.Id <$> ms) →
  ∃ w1 n, ExecMax fault sort_Sort dialect m Up 0 w = (w1, Done (n, None)).
Proof.
  intros Hsort Hd Hf Hnd.
  destruct (Hsort ms) as [Hperm Hsorted].
  set (wm := watermark (ledger (committed w))).
  rewrite ExecMax_unfold.
  rewrite (PlanMigration_ok dialect m Up 0 w d ms
             (drop (leading wm (sort_Sort ms)) (sort_Sort ms)));
    [| done | apply quiet | done | apply quiet | apply ToApply_Up_drop].
  rewrite capped_zero.
  edestruct (apply_migrations_Up_quiet) as [w1 Hrun]; [| |by eexists _, _].
  - rewrite <- list_fmap_compose.
    change (PlannedMigration.Id ∘ plan Up) with Migration.Id.
    rewrite <- Hperm in Hnd.
    rewrite <- (take_drop (leading wm (sort_Sort ms)) (sort_Sort ms)), fmap_app in Hnd.
    by apply NoDup_app in Hnd as (_ & _ & Hnd).
  - intros p Hp Hin. apply list_elem_of_fmap in Hp as (x & -> & Hx).
    pose proof (sorted_drop_leading wm (sort_Sort ms) Hsorted) as Hgt.
    rewrite Forall_forall in Hgt. apply Hgt, ltb_not_le in Hx. apply Hx.
    by apply watermark_ge.
Qed.

(** With a known dialect and a driver that does not fail, [ExecMax] with
    direction [Down] ends without error. *)
Lemma ExecMax_Down_succeeds `{MigrationSource Src} (dialect : string) (m : Src)
    (d : Dialect) (ms : list Migration.t) (w : World) :
  MigrationDialects !! dialect = Some d →
  FindMigrations m = (ms, None) →
  ∃ w1 n, ExecMax fault sort_Sort dialect m Down 0 w = (w1, Done (n, None)).
Proof.
  intros Hd Hf.
  set (wm := watermark (ledger (committed w))).
  rewrite ExecMax_unfold.
  rewrite (PlanMigration_ok dialect m Down 0 w d ms
             (reverse (take (leading wm (sort_Sort ms)) (sort_Sort ms))));
    [| done | apply quiet | done | apply quiet | apply ToApply_Down_reverse].
  edestruct (apply_migrations_Down_quiet) as [w1 Hrun]. by eexists _, _.
Qed.

End Quiet.

End Executor.

(** ** Instances on the sample data *)

Lemma unknown_dialect_fails_first_witness :
  ExecMax no_fault sample_sort "sqlite" (memory [sample_001]) Up 0 empty_world
  = (empty_world, Done (0, Some (Errorf "Unknown dialect: sqlite"))).
Proof.
  apply (unknown_dialect_fails_first no_fault sample_sort "sqlite"
           (memory [sample_001]) Up 0 empty_world).
  reflexivity.
Defined.

Lemma PlanMigration_cap_witness :
  ∃ planned dbMap,
    PlanMigration no_fault sample_sort "sqlite3"
      (memory [sample_003; sample_001; sample_002]) Up 2 empty_world
    = (planned_world empty_world, Done (planned, Some dbMap, None)) ∧
    planned = [plan Up sample_001; plan Up sample_002].
Proof.
  destruct (PlanMigration_cap no_fault sample_sort "sqlite3"
              (memory [sample_003; sample_001; sample_002]) Up 2 empty_world
              SqliteDialect [sample_003; sample_001; sample_002]
              sample_sort_contract eq_refl eq_refl eq_refl eq_refl (or_introl eq_refl))
    as (pending & planned & dbMap & Hp & Hplan & Hcap & _).
  exists planned, dbMap. split; [exact Hplan|].
  destruct Hcap as [-> _]; [lia|].
  vm_compute in Hp. injection Hp as <-. reflexivity.
Defined.

Lemma ExecMax_statement_failure_witness :
  ∃ w',
    ExecMax (fault_on (CallExec "ALTER TABLE t ADD y int")) sample_sort "sqlite3"
      (memory [sample_002; sample_001; sample_003]) Up 0 empty_world
    = (w', Done (1, Some (Errorf "driver: bad connection"))) ∧
    ids (ledger (committed w')) = ["001"] ∧
    open w' = [].
Proof.
  set (fault := fault_on (CallExec "ALTER TABLE t ADD y int")).
  set (dbMap := {| DbMap.Dialect := SqliteDialect; DbMap.TableName := "gorp_migrations" |}).
  set (w := planned_world empty_world).
  set (w1 := (apply_migrations fault dbMap Up [plan Up sample_001] 0 w).1).
  set (w2 := set_open (committed w1 :: open w1) (log CallBegin w1)).
  destruct (ExecMax_statement_failure fault sample_sort "sqlite3"
              (memory [sample_002; sample_001; sample_003]) Up 0
              empty_world w w1 w2 dbMap
              [plan Up sample_001] [plan Up sample_003] (plan Up sample_002)
              [] [] "ALTER TABLE t ADD y int" 1 "driver: bad connection")
    as (w' & Hrun & _ & Hc & Ho & _ & Hids).
  - vm_compute. reflexivity.
  - vm_compute. reflexivity.
  - reflexivity.
  - reflexivity.
  - reflexivity.
  - vm_compute. reflexivity.
  - exists w'. split_and!.
    + exact Hrun.
    + rewrite (Hids eq_refl). reflexivity.
    + rewrite Ho. reflexivity.
Defined.

Lemma ExecMax_Up_idempotent_witness :
  ∃ w1 w2 err,
    ExecMax no_fault sample_sort "sqlite3" (memory [sample_002; sample_001]) Up 0
      empty_world
    = (w1, Done (2, None)) ∧
    ExecMax no_fault sample_sort "sqlite3" (memory [sample_001; sample_002]) Up 0 w1
    = (w2, Done (0, err)) ∧
    committed w2 = committed w1.
Proof.
  set (w1 := (ExecMax no_fault sample_sort "sqlite3" (memory [sample_002; sample_001])
                Up 0 empty_world).1).
  assert (ExecMax no_fault sample_sort "sqlite3" (memory [sample_002; sample_001]) Up 0
            empty_world = (w1, Done (2, None))) as Hfirst
    by (vm_compute; reflexivity).
  destruct (ExecMax_Up_idempotent no_fault sample_sort "sqlite3"
              (memory [sample_002; sample_001]) (memory [sample_001; sample_002])
              [sample_002; sample_001] [sample_001; sample_002] empty_world w1 2
              sample_sort_contract eq_refl eq_refl (Permutation_swap _ _ _) Hfirst)
    as (w2 & dbMap & err & _ & Hsecond & Hc & _).
  exists w1, w2, err. split_and!; [exact Hfirst | exact Hsecond | exact Hc].
Defined.

Lemma ExecMax_Up_Down_round_trip_witness :
  ∃ w1 w2,
    ExecMax no_fault sample_sort "sqlite3" (memory [sample_002; sample_001]) Up 0
      empty_world
    = (w1, Done (2, None)) ∧
    ExecMax no_fault sample_sort "sqlite3" (memory [sample_001; sample_002]) Down 0 w1
    = (w2, Done (2, None)) ∧
    ledger (committed w2) = ledger (committed empty_world).
Proof.
  set (src := memory [sample_002; sample_001]).
  set (src' := memory [sample_001; sample_002]).
  set (w1 := (ExecMax no_fault sample_sort "sqlite3" src Up 0 empty_world).1).
  set (w2 := (ExecMax no_fault sample_sort "sqlite3" src' Down 0 w1).1).
  assert (ExecMax no_fault sample_sort "sqlite3" src Up 0 empty_world
          = (w1, Done (2, None))) as Hup by (vm_compute; reflexivity).
  assert (ExecMax no_fault sample_sort "sqlite3" src' Down 0 w1
          = (w2, Done (2, None))) as Hdown by (vm_compute; reflexivity).
  destruct (ExecMax_Up_Down_round_trip no_fault sample_sort "sqlite3" src src'
              [sample_002; sample_001] [sample_001; sample_002] empty_world w1 w2 2 2
              sample_sort_contract eq_refl eq_refl (Permutation_swap _ _ _) Hup Hdown)
    as (_ & Hback & _).
  exists w1, w2. split_and!; [exact Hup | exact Hdown |].
  apply Hback. intros x _. apply not_elem_of_nil.
Defined.

(** ** Where the code departs from the claims *)

(** C7 as stated fails: from a ledger that records ["001"], [Up] applies
    ["002"] and [Down] without cap reverts both, so that the ledger ends
    empty and not as it was. *)
Lemma ExecMax_Up_Down_round_trip_counterexample :
  ∃ w1 w2,
    ExecMax no_fault sample_sort "sqlite3" (memory [sample_001; sample_002]) Up 0
      world_with_001
    = (w1, Done (1, None)) ∧
    ExecMax no_fault sample_sort "sqlite3" (memory [sample_001; sample_002]) Down 0 w1
    = (w2, Done (2, None)) ∧
    ids (ledger (committed world_with_001)) = ["001"] ∧
    ledger (committed w2) = [] ∧
    ledger (committed w2) ≠ ledger (committed world_with_001).
Proof.
  eexists _, _. split_and!.
  - vm_compute. reflexivity.
  - vm_compute. reflexivity.
  - reflexivity.
  - reflexivity.
  - discriminate.
Qed.

(** C1 on the code.  Two definitions share the id ["001"]: the second
    insert into the ledger fails on the key.  [ExecMax] returns the count 1
    and the error, and the batch stops; but no rollback is called, and the
    transaction stays open with the statement it executed.  The same
    happens with direction [Down] when the delete fails. *)
Theorem ledger_write_failure_leaves_transaction_open :
  (∃ w' tx,
     ExecMax no_fault sample_sort "sqlite3" (memory [sample_001; sample_001_again]) Up 0
       empty_world
     = (w', Done (1, Some (Errorf "duplicate key"))) ∧
     open w' = [tx] ∧
     statements tx = ["CREATE TABLE t(x int)"; "CREATE TABLE u(z int)"] ∧
     last (calls w') = Some (CallInsert "001") ∧
     CallRollback ∉ calls w') ∧
  (∃ w' tx,
     ExecMax (fault_on (CallDelete "001")) sample_sort "sqlite3" (memory [sample_001]) Down 0
       world_with_001
     = (w', Done (0, Some (Errorf "driver: bad connection"))) ∧
     open w' = [tx] ∧
     statements tx = ["CREATE TABLE t(x int)"; "DROP TABLE t"] ∧
     last (calls w') = Some (CallDelete "001") ∧
     CallRollback ∉ calls w').
Proof.
  split.
  - eexists _, _. split_and!.
    + vm_compute. reflexivity.
    + reflexivity.
    + reflexivity.
    + reflexivity.
    + apply (bool_decide_unpack (_ ∉ _)). vm_compute. exact I.
  - eexists _, _. split_and!.
    + vm_compute. reflexivity.
    + reflexivity.
    + reflexivity.
    + reflexivity.
    + apply (bool_decide_unpack (_ ∉ _)). vm_compute. exact I.
Qed.

(** * Further properties of the code *)

(** ** [ToApply] on any list *)

Lemma leading_mono (current current' : string) (ms : list Migration.t) :
  String.le current current' → (leading current ms ≤ leading current' ms)%nat.
Proof.
  intros Hle. induction ms as [|m ms IH]; simpl; [lia|].
  destruct (String.leb (Migration.Id m) current) eqn:E; [|lia].
  apply leb_le in E.
  assert (String.leb (Migration.Id m) current' = true) as ->
    by (apply leb_le; by transitivity current).
  lia.
Qed.

Lemma leading_split (current : string) (applied pending : list Migration.t) :
  Forall (λ m, String.le (Migration.Id m) current) applied →
  Forall (λ m, String.ltb current (Migration.Id m) = true) pending →
  leading current (applied ++ pending) = length applied.
Proof.
  intros Ha Hp. induction Ha as [|m applied Hm _ IH]; simpl.
  - destruct Hp as [|m pending Hm _]; simpl; [done|].
    apply leb_false_ltb in Hm. by rewrite Hm.
  - apply leb_le in Hm. by rewrite Hm, IH.
Qed.

(** X1. Whatever the list, sorted or not, [ToApply] cuts it at the first
    migration whose id is greater than the watermark: [Up] returns the part
    from there on, [Down] the part before it, reversed. *)
Theorem ToApply_cuts_at_first_greater (ms : list Migration.t) (current : string) :
  ∃ applied pending,
    ms = applied ++ pending ∧
    ToApply ms current Up = Done pending ∧
    ToApply ms current Down = Done (reverse applied) ∧
    Forall (λ m, String.le (Migration.Id m) current) applied ∧
    (∀ m, head pending = Some m → String.ltb current (Migration.Id m) = true).
Proof.
  exists (take (leading current ms) ms), (drop (leading current ms) ms).
  split_and!.
  - by rewrite take_drop.
  - apply ToApply_Up_drop.
  - apply ToApply_Down_reverse.
  - apply leading_take.
  - intros m Hm. rewrite head_lookup, lookup_drop, Nat.add_0_r in Hm.
    by apply (leading_next current ms).
Qed.



(** X3. Raising the watermark never adds to what [Up] returns and never
    takes from what [Down] returns: the results for the greater watermark
    are a suffix of the [Up] result, and have the [Down] result as a
    suffix, whatever the list. *)
Theorem ToApply_watermark_monotone (ms : list Migration.t) (current current' : string) :
  String.le current current' →
  ∃ up up' down down',
    ToApply ms current Up = Done up ∧ ToApply ms current' Up = Done up' ∧
    ToApply ms current Down = Done down ∧ ToApply ms current' Down = Done down' ∧
    up' `suffix_of` up ∧ down `suffix_of` down'.
Proof.
  intros Hle. pose proof (leading_mono _ _ ms Hle) as Hk.
  eexists _, _, _, _. rewrite !ToApply_Up_drop, !ToApply_Down_reverse.
  split_and!; [done..| |].
  - replace (leading current' ms)
      with (leading current ms + (leading current' ms - leading current ms))%nat by lia.
    rewrite <- drop_drop. apply suffix_drop.
  - apply suffix_prefix_reverse. rewrite !reverse_involutive.
    replace (leading current ms)
      with (min (leading current ms) (leading current' ms)) by lia.
    rewrite <- take_take. apply prefix_take.
Qed.

(** X4. On a sorted list [Up] never returns a definition whose id is the
    empty string: such a definition counts as applied under every
    watermark, the empty one of an empty ledger included. *)
Theorem ToApply_Up_skips_empty_id (ms pending : list Migration.t) (current : string) :
  Sorted byId_le ms →
  ToApply ms current Up = Done pending →
  Forall (λ m, Migration.Id m ≠ "") pending.
Proof.
  intros Hs. rewrite ToApply_Up_drop. intros [= <-].
  eapply Forall_impl; [by apply sorted_drop_leading|].
  intros m Hm Hid. simpl in Hm. apply ltb_not_le in Hm. apply Hm.
  rewrite Hid. apply le_empty.
Qed.

(** ** [byId] *)

Lemma at_index_inv {A} (l : list A) (i : Z) (a : A) :
  at_index l i = Done a → 0 ≤ i ∧ l !! Z.to_nat i = Some a.
Proof.
  unfold at_index. case_bool_decide as Hi; [|done].
  destruct (l !! Z.to_nat i) eqn:E; [|done]. intros [= ->]. split; [lia|done].
Qed.

Lemma byId_Less_lookup (b : list Migration.t) (i j : nat) (x y : Migration.t) :
  b !! i = Some x → b !! j = Some y →
  byId.Less b (Z.of_nat j) (Z.of_nat i)
  = Done (String.ltb (Migration.Id y) (Migration.Id x)).
Proof.
  intros Hx Hy. unfold byId.Less.
  by rewrite (at_index_lookup _ _ _ Hy), (at_index_lookup _ _ _ Hx).
Qed.

(** X5. A list is sorted by id exactly when [Less] finds no inversion in
    it, that is when [Less(j, i)] is false for all positions [i < j]: this
    is what [sort.Sort] ensures of its result, in terms of the [Less] of
    [byId]. *)
Theorem byId_Less_no_inversion_sorted (b : list Migration.t) :
  Sorted byId_le b ↔
  ∀ i j : nat, (i < j < length b)%nat →
    byId.Less b (Z.of_nat j) (Z.of_nat i) = Done false.
Proof.
  split.
  - intros Hs i j Hij.
    destruct (lookup_lt_is_Some_2 b i) as [x Hx]; [lia|].
    destruct (lookup_lt_is_Some_2 b j) as [y Hy]; [lia|].
    rewrite (byId_Less_lookup b i j x y Hx Hy). f_equal.
    apply (Sorted_StronglySorted _) in Hs.
    assert (byId_le x y) as Hxy.
    { rewrite <- (take_drop_middle b j y Hy) in Hs.
      apply StronglySorted_app_1_elem_of with (x1 := x) (x2 := y) in Hs; [done | |].
      - apply list_elem_of_lookup. exists i. rewrite lookup_take_lt by lia. done.
      - apply list_elem_of_here. }
    destruct (String.ltb _ _) eqn:E; [|done].
    by apply ltb_not_le in E.
  - intros Hno. apply StronglySorted_Sorted.
    induction b as [|x b IH]; [constructor|].
    constructor.
    + apply IH. intros i j Hij.
      destruct (lookup_lt_is_Some_2 b i) as [x' Hx']; [lia|].
      destruct (lookup_lt_is_Some_2 b j) as [y' Hy']; [lia|].
      rewrite (byId_Less_lookup b i j x' y' Hx' Hy').
      rewrite <- (byId_Less_lookup (x :: b) (S i) (S j) x' y') by done.
      apply Hno. simpl. lia.
    + apply Forall_lookup. intros j y Hy.
      pose proof (lookup_lt_Some _ _ _ Hy).
      assert (String.ltb (Migration.Id y) (Migration.Id x) = false) as Hf.
      { assert (Done (String.ltb (Migration.Id y) (Migration.Id x)) = Done false) as [=].
        { rewrite <- (byId_Less_lookup (x :: b) 0%nat (S j) x y) by done.
          apply Hno. simpl. lia. }
        done. }
      unfold byId_le.
      destruct (decide (String.le (Migration.Id x) (Migration.Id y))) as [|Hn]; [done|].
      apply ltb_not_le in Hn. congruence.
Qed.

(** X6. [Swap] with two positions of the slice exchanges the two entries
    and leaves the others: the result is a permutation of the slice, and a
    second [Swap] of the same positions undoes the first. *)
Theorem byId_Swap_exchanges (b : list Migration.t) (i j : nat) :
  (i < length b)%nat → (j < length b)%nat →
  ∃ b',
    byId.Swap b (Z.of_nat i) (Z.of_nat j) = Done b' ∧
    b' ≡ₚ b ∧
    b' !! i = b !! j ∧ b' !! j = b !! i ∧
    (∀ k, k ≠ i → k ≠ j → b' !! k = b !! k) ∧
    byId.Swap b' (Z.of_nat i) (Z.of_nat j) = Done b.
Proof.
  intros Hi Hj.
  destruct (lookup_lt_is_Some_2 b i Hi) as [x Hx].
  destruct (lookup_lt_is_Some_2 b j Hj) as [y Hy].
  assert (∀ l x y, l !! i = Some x → l !! j = Some y →
            byId.Swap l (Z.of_nat i) (Z.of_nat j) = Done (<[j:=x]> (<[i:=y]> l))) as Hswap.
  { intros l x0 y0 Hx0 Hy0. unfold byId.Swap.
    rewrite (at_index_lookup _ _ _ Hx0), (at_index_lookup _ _ _ Hy0).
    cbn [mbind outcome_bind].
    rewrite set_index_insert by (by eapply lookup_lt_Some).
    cbn [mbind outcome_bind].
    rewrite set_index_insert; [done|].
    rewrite length_insert. by eapply lookup_lt_Some. }
  exists (<[j:=x]> (<[i:=y]> b)).
  assert (<[j:=x]> (<[i:=y]> b) !! i = Some y) as Hi'.
  { destruct (decide (i = j)) as [->|Hne].
    - rewrite list_lookup_insert_eq by (by rewrite length_insert). congruence.
    - rewrite list_lookup_insert_ne by done. by rewrite list_lookup_insert_eq. }
  assert (<[j:=x]> (<[i:=y]> b) !! j = Some x) as Hj'
    by (by rewrite list_lookup_insert_eq by (by rewrite length_insert)).
  split_and!.
  - by apply Hswap.
  - by apply Permutation_insert_swap.
  - congruence.
  - congruence.
  - intros k Hki Hkj. by rewrite !list_lookup_insert_ne.
  - rewrite (Hswap _ y x Hi' Hj'). f_equal.
    apply list_eq. intros k.
    destruct (decide (k = j)) as [->|Hkj].
    { rewrite list_lookup_insert_eq by (by rewrite !length_insert). done. }
    rewrite list_lookup_insert_ne by done.
    destruct (decide (k = i)) as [->|Hki].
    { rewrite list_lookup_insert_eq by (by rewrite !length_insert). done. }
    by rewrite !list_lookup_insert_ne.
Qed.

(** ** [getMigrationDbMap] *)

(** X7. [getMigrationDbMap] yields a map, on the table [gorp_migrations],
    exactly for the five dialects ["sqlite3"], ["postgres"], ["mysql"],
    ["mssql"] and ["oci8"]; for any other string it yields no map and the
    unknown-dialect error. *)
Theorem getMigrationDbMap_supported (dialect : string) :
  (dialect ∈ ["sqlite3"; "postgres"; "mysql"; "mssql"; "oci8"] →
   ∃ d, getMigrationDbMap dialect
        = (Some {| DbMap.Dialect := d; DbMap.TableName := "gorp_migrations" |}, None)) ∧
  (dialect ∉ ["sqlite3"; "postgres"; "mysql"; "mssql"; "oci8"] →
   getMigrationDbMap dialect = (None, Some (Errorf ("Unknown dialect: " +:+ dialect)))).
Proof.
  unfold getMigrationDbMap, MigrationDialects. simpl. split.
  - intros Hin.
    repeat (apply elem_of_cons in Hin as [->|Hin]; [by eexists|]).
    by apply elem_of_nil in Hin.
  - intros Hout. rewrite !not_elem_of_cons in Hout.
    destruct Hout as (? & ? & ? & ? & ? & _).
    rewrite !lookup_insert_ne by done. by rewrite lookup_empty.
Qed.

(** ** More on the executor *)

Section ExecutorMore.

Context (fault : World → Call → option string).
Context (sort_Sort : list Migration.t → list Migration.t).

(** One iteration with direction [Up] or [Down] does not panic. *)
Lemma apply_migration_returns (dbMap : DbMap.t) (dir : MigrationDirection)
    (m : PlannedMigration.t) (w : World) :
  dir = Up ∨ dir = Down →
  ∃ w' r, apply_migration fault dbMap dir m w = (w', Done r).
Proof.
  intros Hdir.
  unfold apply_migration, mbind, M_bind, dbMap_Begin.
  destruct (failure fault w CallBegin) as [e|]; [by eexists _, _|].
  destruct (exec_queries fault _ _) as [w1 r1] eqn:Hq.
  eapply exec_queries_inv in Hq; [|done].
  destruct Hq as (_ & _ & [(-> & Ho1 & _) | (e & -> & _)]); [|by eexists _, _].
  simpl in Ho1. unfold record_migration.
  destruct Hdir as [-> | ->].
  - rewrite bool_decide_eq_true_2 by done.
    unfold mbind, M_bind, time_Now, trans_Insert. simpl. rewrite Ho1.
    destruct (failure fault _ _) as [e|]; [by eexists _, _|]. simpl.
    case_bool_decide; [by eexists _, _|].
    unfold trans_Commit. simpl.
    destruct (failure fault _ _) as [e|]; by eexists _, _.
  - rewrite (bool_decide_eq_false_2 (Down = Up)) by done.
    rewrite (bool_decide_eq_true_2 (Down = Down)) by done.
    unfold mbind, M_bind, trans_Delete. simpl. rewrite Ho1.
    destruct (failure fault _ _) as [e|]; [by eexists _, _|]. simpl.
    unfold trans_Commit. simpl.
    destruct (failure fault _ _) as [e|]; by eexists _, _.
Qed.

Lemma apply_migrations_returns (dbMap : DbMap.t) (dir : MigrationDirection)
    (planned : list PlannedMigration.t) (k : Z) (w : World) :
  dir = Up ∨ dir = Down →
  ∃ w' n r, apply_migrations fault dbMap dir planned k w = (w', Done (n, r)).
Proof.
  intros Hdir. revert k w. induction planned as [|m planned IH]; intros k w.
  - by eexists _, _, _.
  - simpl. unfold mbind, M_bind.
    destruct (apply_migration_returns dbMap dir m w Hdir) as (w1 & [e|] & ->).
    + by eexists _, _, _.
    + apply IH.
Qed.

(** The counter only counts iterations. *)
Lemma apply_migrations_count (dbMap : DbMap.t) (dir : MigrationDirection)
    (planned : list PlannedMigration.t) (k n : Z) (w w' : World) (r : option error) :
  apply_migrations fault dbMap dir planned k w = (w', Done (n, r)) →
  k ≤ n ≤ k + len planned ∧ (r = None → n = k + len planned).
Proof.
  revert k w. induction planned as [|m planned IH]; intros k w Hrun.
  - simpl in Hrun. injection Hrun as <- <- <-. unfold len. simpl. lia.
  - simpl in Hrun. unfold mbind, M_bind in Hrun.
    destruct (apply_migration fault dbMap dir m w) as [w1 [[e|]| |]]; try done.
    + injection Hrun as <- <- <-. unfold len. cbn [length]. split; [lia|done].
    + apply IH in Hrun as [Hb Hr]. unfold len in *. cbn [length].
      split; [lia|]. intros Hn. specialize (Hr Hn). lia.
Qed.

(** Direction [Up], whatever the end of the loop: the ledger and the
    statements committed are those of the migrations that were counted. *)
Lemma apply_migrations_Up_progress (dbMap : DbMap.t) (planned : list PlannedMigration.t)
    (k n : Z) (w w' : World) (r : option error) :
  apply_migrations fault dbMap Up planned k w = (w', Done (n, r)) →
  ∃ recs,
    ledger (committed w') = ledger (committed w) ++ recs ∧
    ids recs = PlannedMigration.Id <$> take (Z.to_nat (n - k)) planned ∧
    statements (committed w')
    = statements (committed w)
      ++ concat (PlannedMigration.Queries <$> take (Z.to_nat (n - k)) planned).
Proof.
  revert k w. induction planned as [|m planned IH]; intros k w Hrun.
  - simpl in Hrun. injection Hrun as <- <- <-. exists [].
    by rewrite take_nil, !app_nil_r.
  - pose proof (apply_migrations_count _ _ _ _ _ _ _ _ Hrun) as [Hn _].
    simpl in Hrun. unfold mbind, M_bind in Hrun.
    destruct (apply_migration fault dbMap Up m w) as [w1 [[e|]| |]] eqn:Hm; try done.
    + injection Hrun as <- <- <-. apply apply_migration_error in Hm.
      exists []. rewrite Z.sub_diag, Hm. simpl. by rewrite !app_nil_r.
    + pose proof (apply_migrations_count _ _ _ _ _ _ _ _ Hrun) as [Hn1 _].
      apply apply_migration_Up_ok in Hm as (Hc & _ & _).
      apply IH in Hrun as (recs & Hl & Hi & Hs).
      rewrite Hc in Hl, Hs. simpl in Hl, Hs.
      replace (Z.to_nat (n - k)) with (S (Z.to_nat (n - (k + 1)))) by lia.
      eexists (_ :: recs). split_and!.
      * by rewrite Hl, <- app_assoc.
      * simpl. by rewrite Hi.
      * simpl. by rewrite Hs, <- app_assoc.
Qed.

(** Direction [Down], likewise. *)
Lemma apply_migrations_Down_progress (dbMap : DbMap.t) (planned : list PlannedMigration.t)
    (k n : Z) (w w' : World) (r : option error) :
  apply_migrations fault dbMap Down planned k w = (w', Done (n, r)) →
  ledger (committed w')
  = filter (λ x, MigrationRecord.Id x ∉
                 PlannedMigration.Id <$> take (Z.to_nat (n - k)) planned)
      (ledger (committed w)) ∧
  statements (committed w')
  = statements (committed w)
    ++ concat (PlannedMigration.Queries <$> take (Z.to_nat (n - k)) planned).
Proof.
  revert k w. induction planned as [|m planned IH]; intros k w Hrun.
  - simpl in Hrun. injection Hrun as <- <- <-. rewrite take_nil. simpl.
    rewrite app_nil_r. split; [|done].
    symmetry. apply filter_all, Forall_forall. intros x _. apply not_elem_of_nil.
  - pose proof (apply_migrations_count _ _ _ _ _ _ _ _ Hrun) as [Hn _].
    simpl in Hrun. unfold mbind, M_bind in Hrun.
    destruct (apply_migration fault dbMap Down m w) as [w1 [[e|]| |]] eqn:Hm; try done.
    + injection Hrun as <- <- <-. apply apply_migration_error in Hm.
      rewrite Z.sub_diag, Hm. simpl. rewrite app_nil_r. split; [|done].
      symmetry. apply filter_all, Forall_forall. intros x _. apply not_elem_of_nil.
    + pose proof (apply_migrations_count _ _ _ _ _ _ _ _ Hrun) as [Hn1 _].
      apply apply_migration_Down_ok in Hm as (Hc & _).
      apply IH in Hrun as (Hl & Hs).
      rewrite Hc in Hl, Hs. simpl in Hl, Hs.
      replace (Z.to_nat (n - k)) with (S (Z.to_nat (n - (k + 1)))) by lia.
      split.
      * rewrite Hl, list_filter_filter. apply list_filter_iff.
        intros x. simpl. rewrite not_elem_of_cons. tauto.
      * simpl. by rewrite Hs, <- app_assoc.
Qed.

(** What [ExecMax] returns is what the loop returns on the plan, or the
    count 0 with the error of the planning. *)
Lemma ExecMax_inv `{MigrationSource Src} (dialect : string) (m : Src)
    (dir : MigrationDirection) (max : Z) (w0 w' : World) (n : Z) (r : option error) :
  ExecMax fault sort_Sort dialect m dir max w0 = (w', Done (n, r)) →
  ∃ w planned dbMap err,
    PlanMigration fault sort_Sort dialect m dir max w0 = (w, Done (planned, dbMap, err)) ∧
    committed w = committed w0 ∧ open w = open w0 ∧
    ((∃ e, err = Some e ∧ planned = [] ∧ w' = w ∧ n = 0 ∧ r = Some e) ∨
     (∃ d, err = None ∧ dbMap = Some d ∧
           apply_migrations fault d dir planned 0 w = (w', Done (n, r)))).
Proof.
  rewrite ExecMax_unfold.
  destruct (PlanMigration _ _ _ _ _ _ _) as [w [[[planned dbMap] err]| |]] eqn:Hp;
    [|done..].
  pose proof (PlanMigration_stores _ _ _ _ _ _ _ _ _ Hp) as (Hc & Ho & _).
  intros Hrun. exists w, planned, dbMap, err. split_and!; [done..|].
  destruct err as [e|].
  - left. apply PlanMigration_error in Hp as (-> & -> & _).
    simpl in Hrun. injection Hrun as <- <- <-. by exists e.
  - right. simpl in Hrun. destruct dbMap as [d|]; [|done]. by exists d.
Qed.

(** X9. Direction [Up]: whatever [ExecMax] returns, error or not, the
    count it returns is the number of ledger records it has committed:
    the ledger has grown by the records of the first [n] planned
    migrations, in order, and the committed statements by theirs. *)
Theorem ExecMax_Up_count_is_progress `{MigrationSource Src} (dialect : string) (m : Src)
    (max : Z) (w0 w' : World) (n : Z) (r : option error) :
  ExecMax fault sort_Sort dialect m Up max w0 = (w', Done (n, r)) →
  ∃ w planned dbMap err,
    PlanMigration fault sort_Sort dialect m Up max w0 = (w, Done (planned, dbMap, err)) ∧
    0 ≤ n ≤ len planned ∧
    (r = None → n = len planned) ∧
    ids (ledger (committed w'))
    = ids (ledger (committed w0)) ++ (PlannedMigration.Id <$> take (Z.to_nat n) planned) ∧
    statements (committed w')
    = statements (committed w0)
      ++ concat (PlannedMigration.Queries <$> take (Z.to_nat n) planned).
Proof.
  intros Hrun.
  apply ExecMax_inv in Hrun
    as (w & planned & dbMap & err & Hp & Hc & _ &
        [(e & -> & -> & -> & -> & ->) | (d & -> & -> & Hloop)]).
  - exists w, [], dbMap, (Some e). rewrite Hc. simpl.
    rewrite !app_nil_r. unfold len. simpl. split_and!; done || lia.
  - exists w, planned, (Some d), None.
    pose proof (apply_migrations_count _ _ _ _ _ _ _ _ Hloop) as [Hn Hr].
    apply apply_migrations_Up_progress in Hloop as (recs & Hl & Hi & Hs).
    rewrite Z.sub_0_r in Hi, Hs. rewrite Hc in Hl, Hs.
    split_and!; [done | lia | lia | intros Hnone; specialize (Hr Hnone); lia | | done].
    unfold ids in *. by rewrite Hl, fmap_app, Hi.
Qed.

(** X10. Direction [Down]: whatever [ExecMax] returns, the ledger has lost
    the records of the first [n] planned migrations and no other, [n]
    being the count returned. *)
Theorem ExecMax_Down_count_is_progress `{MigrationSource Src} (dialect : string) (m : Src)
    (max : Z) (w0 w' : World) (n : Z) (r : option error) :
  ExecMax fault sort_Sort dialect m Down max w0 = (w', Done (n, r)) →
  ∃ w planned dbMap err,
    PlanMigration fault sort_Sort dialect m Down max w0 = (w, Done (planned, dbMap, err)) ∧
    0 ≤ n ≤ len planned ∧
    (r = None → n = len planned) ∧
    ledger (committed w')
    = filter (λ x, MigrationRecord.Id x ∉
                   PlannedMigration.Id <$> take (Z.to_nat n) planned)
        (ledger (committed w0)) ∧
    statements (committed w')
    = statements (committed w0)
      ++ concat (PlannedMigration.Queries <$> take (Z.to_nat n) planned).
Proof.
  intros Hrun.
  apply ExecMax_inv in Hrun
    as (w & planned & dbMap & err & Hp & Hc & _ &
        [(e & -> & -> & -> & -> & ->) | (d & -> & -> & Hloop)]).
  - exists w, [], dbMap, (Some e). rewrite Hc. simpl.
    rewrite !app_nil_r. unfold len. simpl.
    split_and!; [done | lia | lia | done | | done].
    symmetry. apply filter_all, Forall_forall. intros x _. apply not_elem_of_nil.
  - exists w, planned, (Some d), None.
    pose proof (apply_migrations_count _ _ _ _ _ _ _ _ Hloop) as [Hn Hr].
    apply apply_migrations_Down_progress in Hloop as (Hl & Hs).
    rewrite Z.sub_0_r in Hl, Hs. rewrite Hc in Hl, Hs.
    split_and!; [done | lia | lia | intros Hnone; specialize (Hr Hnone); lia | done | done].
Qed.

(** X11. With [max > 0], [ExecMax] applies at most [max] migrations: the
    count it returns is between 0 and [max], whatever the direction and
    the outcome. *)
Theorem ExecMax_at_most_max `{MigrationSource Src} (dialect : string) (m : Src)
    (dir : MigrationDirection) (max : Z) (w0 w' : World) (n : Z) (r : option error) :
  0 < max →
  ExecMax fault sort_Sort dialect m dir max w0 = (w', Done (n, r)) →
  0 ≤ n ≤ max.
Proof.
  intros Hmax Hrun.
  apply ExecMax_inv in Hrun
    as (w & planned & dbMap & err & Hp & _ & _ &
        [(e & -> & -> & -> & -> & ->) | (d & -> & -> & Hloop)]); [lia|].
  apply PlanMigration_inv in Hp as (_ & _ & pending & _ & _ & _ & _ & -> & _).
  apply apply_migrations_count in Hloop as [Hn _].
  pose proof (capped_length max pending Hmax) as Hcap.
  unfold len in *. rewrite length_fmap in Hn. lia.
Qed.


(** X13. When [Begin] fails for a planned migration, [ExecMax] returns
    the number of migrations committed before it with the error; nothing
    of the migration is executed and no transaction is opened: the world
    is the one left by the migrations before, with the failed call in the
    trace. *)
Theorem ExecMax_begin_failure `{MigrationSource Src} (dialect : string) (m : Src)
    (dir : MigrationDirection) (max : Z) (w0 w w1 : World) (dbMap : DbMap.t)
    (pre post : list PlannedMigration.t) (mig : PlannedMigration.t)
    (n : Z) (msg : string) :
  PlanMigration fault sort_Sort dialect m dir max w0
  = (w, Done (pre ++ mig :: post, Some dbMap, None)) →
  apply_migrations fault dbMap dir pre 0 w = (w1, Done (n, None)) →
  fault w1 CallBegin = Some msg →
  ExecMax fault sort_Sort dialect m dir max w0
  = (log CallBegin w1, Done (n, Some (Errorf msg))) ∧
  n = len pre.
Proof.
  intros Hplan Hpre Hbegin.
  rewrite ExecMax_unfold, Hplan.
  destruct (apply_migrations_app _ _ _ _ (mig :: post) _ _ _ _ Hpre) as [Hn ->].
  simpl. unfold mbind at 1. unfold M_bind.
  unfold apply_migration, mbind, M_bind, dbMap_Begin, failure. rewrite Hbegin. simpl.
  split; [done|lia].
Qed.

(** X14. When the commit of a planned migration fails, [ExecMax] returns
    the number of migrations committed before it with the error; the
    statements and the ledger write of the migration are not in the
    committed store, and its transaction is over. *)
Theorem ExecMax_commit_failure `{MigrationSource Src} (dialect : string) (m : Src)
    (dir : MigrationDirection) (max : Z) (w0 w w1 w2 w3 : World) (dbMap : DbMap.t)
    (pre post : list PlannedMigration.t) (mig : PlannedMigration.t)
    (n : Z) (msg : string) :
  PlanMigration fault sort_Sort dialect m dir max w0
  = (w, Done (pre ++ mig :: post, Some dbMap, None)) →
  apply_migrations fault dbMap dir pre 0 w = (w1, Done (n, None)) →
  fault w1 CallBegin = None →
  exec_queries fault (PlannedMigration.Queries mig)
    (set_open (committed w1 :: open w1) (log CallBegin w1)) = (w2, Done None) →
  record_migration fault dir (PlannedMigration.Id mig) w2 = (w3, Done None) →
  fault w3 CallCommit = Some msg →
  ∃ w',
    ExecMax fault sort_Sort dialect m dir max w0 = (w', Done (n, Some (Errorf msg))) ∧
    n = len pre ∧
    committed w' = committed w1 ∧
    open w' = open w1 ∧
    calls w' = calls w3 ++ [CallCommit].
Proof.
  intros Hplan Hpre Hbegin Hqs Hrec Hcommit.
  rewrite ExecMax_unfold, Hplan.
  destruct (apply_migrations_app _ _ _ _ (mig :: post) _ _ _ _ Hpre) as [Hn ->].
  pose proof Hqs as Hinv.
  eapply exec_queries_inv in Hinv; [|done].
  destruct Hinv as (Hc2 & _ & [(_ & Ho2 & _) | (e & [=] & _)]).
  simpl in Hc2, Ho2.
  assert (committed w3 = committed w2 ∧ ∃ tx, open w3 = tx :: open w1) as [Hc3 [tx Ho3]].
  { revert Hrec. unfold record_migration, panic.
    repeat case_bool_decide; [| |done];
      unfold mbind, M_bind, time_Now, trans_Insert, trans_Delete; simpl; rewrite Ho2;
      (destruct (failure fault _ _) as [?|]; simpl; [done|]);
      repeat case_bool_decide; simpl; try done;
      intros [= <-]; simpl; eauto. }
  simpl. unfold mbind at 1. unfold M_bind.
  unfold apply_migration, mbind, M_bind, dbMap_Begin, failure. rewrite Hbegin. simpl.
  rewrite Hqs, Hrec.
  unfold trans_Commit, failure. rewrite Ho3, Hcommit. simpl.
  eexists. split_and!; [done | lia | simpl; congruence | done | done].
Qed.

Lemma apply_migration_ok_calls (dbMap : DbMap.t) (dir : MigrationDirection)
    (m : PlannedMigration.t) (w w' : World) :
  dir = Up ∨ dir = Down →
  apply_migration fault dbMap dir m w = (w', Done None) →
  calls w' = calls w ++ migration_calls dir m ∧ open w' = open w.
Proof.
  intros Hdir.
  unfold apply_migration, mbind, M_bind, dbMap_Begin.
  destruct (failure fault w CallBegin) as [e|]; [done|].
  destruct (exec_queries fault _ _) as [w1 r1] eqn:Hq.
  eapply exec_queries_inv in Hq; [|done].
  destruct Hq as (_ & _ & [(-> & Ho1 & Hl1) | (e & -> & _)]); [|done].
  simpl in Ho1, Hl1. unfold record_migration, migration_calls, ledger_call.
  destruct Hdir as [-> | ->].
  - rewrite !bool_decide_eq_true_2 by done.
    unfold mbind, M_bind, time_Now, trans_Insert. simpl. rewrite Ho1.
    destruct (failure fault _ _) as [e|]; [done|]. simpl.
    case_bool_decide; [done|].
    unfold trans_Commit. simpl.
    destruct (failure fault _ _) as [e|]; [done|].
    intros [= <-]. simpl. rewrite Hl1. split; [|done].
    by rewrite <- !app_assoc.
  - rewrite !(bool_decide_eq_false_2 (Down = Up)) by done.
    rewrite (bool_decide_eq_true_2 (Down = Down)) by done.
    unfold mbind, M_bind, trans_Delete. simpl. rewrite Ho1.
    destruct (failure fault _ _) as [e|]; [done|]. simpl.
    unfold trans_Commit. simpl.
    destruct (failure fault _ _) as [e|]; [done|].
    intros [= <-]. simpl. rewrite Hl1. split; [|done].
    by rewrite <- !app_assoc.
Qed.

Lemma apply_migrations_ok_calls (dbMap : DbMap.t) (dir : MigrationDirection)
    (planned : list PlannedMigration.t) (k n : Z) (w w' : World) :
  dir = Up ∨ dir = Down →
  apply_migrations fault dbMap dir planned k w = (w', Done (n, None)) →
  calls w' = calls w ++ concat (migration_calls dir <$> planned) ∧ open w' = open w.
Proof.
  intros Hdir. revert k w. induction planned as [|m planned IH]; intros k w Hrun.
  - simpl in Hrun. injection Hrun as <- <-. by rewrite app_nil_r.
  - simpl in Hrun. unfold mbind, M_bind in Hrun.
    destruct (apply_migration fault dbMap dir m w) as [w1 [[e|]| |]] eqn:Hm; try done.
    apply apply_migration_ok_calls in Hm as [Hc Ho]; [|done].
    apply IH in Hrun as [Hc' Ho'].
    split; [|congruence]. rewrite Hc', Hc, fmap_cons.
    cbn [concat]. by rewrite <- app_assoc.
Qed.

(** X15. A run of [ExecMax] that ends without error has made, after the
    three calls of the planning, for each planned migration in order: a
    begin, its statements in their order, its ledger write and a commit,
    and no other call; it leaves no transaction open. *)
Theorem ExecMax_success_trace `{MigrationSource Src} (dialect : string) (m : Src)
    (dir : MigrationDirection) (max : Z) (w0 w' : World) (n : Z) :
  dir = Up ∨ dir = Down →
  ExecMax fault sort_Sort dialect m dir max w0 = (w', Done (n, None)) →
  ∃ w planned dbMap,
    PlanMigration fault sort_Sort dialect m dir max w0
    = (w, Done (planned, Some dbMap, None)) ∧
    n = len planned ∧
    calls w'
    = calls w0 ++ [CallCreateTables; CallFindMigrations; CallSelectOne]
      ++ concat (migration_calls dir <$> planned) ∧
    open w' = open w0.
Proof.
  intros Hdir Hrun.
  apply ExecMax_inv in Hrun
    as (w & planned & dbMap & err & Hp & _ & Ho &
        [(e & _ & _ & _ & _ & [=]) | (d & -> & -> & Hloop)]).
  exists w, planned, d.
  pose proof (apply_migrations_count _ _ _ _ _ _ _ _ Hloop) as [_ Hn].
  apply apply_migrations_ok_calls in Hloop as [Hc Ho']; [|done].
  pose proof Hp as Hinv.
  apply PlanMigration_inv in Hinv as (_ & _ & _ & _ & _ & _ & _ & _ & ->).
  split_and!; [done | by rewrite Hn | | congruence].
  rewrite Hc. simpl. by rewrite <- !app_assoc.
Qed.

(** X16. When the table cannot be made sure of, [PlanMigration] returns
    the error of that call and [ExecMax] the count 0 with it: the source
    is not read and the ledger is not queried. *)
Theorem PlanMigration_create_failure `{MigrationSource Src} (dialect : string) (m : Src)
    (dir : MigrationDirection) (max : Z) (w : World) (d : Dialect) (msg : string) :
  MigrationDialects !! dialect = Some d →
  fault w CallCreateTables = Some msg →
  PlanMigration fault sort_Sort dialect m dir max w
  = (log CallCreateTables w, Done ([], None, Some (Errorf msg))) ∧
  ExecMax fault sort_Sort dialect m dir max w
  = (log CallCreateTables w, Done (0, Some (Errorf msg))).
Proof.
  intros Hd Hc.
  assert (PlanMigration fault sort_Sort dialect m dir max w
          = (log CallCreateTables w, Done ([], None, Some (Errorf msg)))) as Hp.
  { unfold PlanMigration, getMigrationDbMap. rewrite Hd.
    unfold mbind, M_bind, dbMap_CreateTablesIfNotExists, failure. by rewrite Hc. }
  split; [done|]. by rewrite ExecMax_unfold, Hp.
Qed.

(** X17. When the source fails, [PlanMigration] returns its error and
    [ExecMax] the count 0 with it, whatever migrations the source returned
    with the error; the ledger is not queried. *)
Theorem PlanMigration_source_failure `{MigrationSource Src} (dialect : string) (m : Src)
    (dir : MigrationDirection) (max : Z) (w : World) (d : Dialect)
    (ms : list Migration.t) (e : error) :
  MigrationDialects !! dialect = Some d →
  fault w CallCreateTables = None →
  FindMigrations m = (ms, Some e) →
  PlanMigration fault sort_Sort dialect m dir max w
  = (log CallFindMigrations (log CallCreateTables w), Done ([], None, Some e)) ∧
  ExecMax fault sort_Sort dialect m dir max w
  = (log CallFindMigrations (log CallCreateTables w), Done (0, Some e)).
Proof.
  intros Hd Hc Hf.
  assert (PlanMigration fault sort_Sort dialect m dir max w
          = (log CallFindMigrations (log CallCreateTables w), Done ([], None, Some e)))
    as Hp.
  { unfold PlanMigration, getMigrationDbMap. rewrite Hd.
    unfold mbind, M_bind, dbMap_CreateTablesIfNotExists, find, failure.
    by rewrite Hc, Hf. }
  split; [done|]. by rewrite ExecMax_unfold, Hp.
Qed.

(** X18. When the query for the newest record fails, [PlanMigration]
    returns the error of the query and [ExecMax] the count 0 with it; no
    migration is planned and no transaction begun. *)
Theorem PlanMigration_select_failure `{MigrationSource Src} (dialect : string) (m : Src)
    (dir : MigrationDirection) (max : Z) (w : World) (d : Dialect)
    (ms : list Migration.t) (msg : string) :
  MigrationDialects !! dialect = Some d →
  fault w CallCreateTables = None →
  FindMigrations m = (ms, None) →
  fault (log CallFindMigrations (log CallCreateTables w)) CallSelectOne = Some msg →
  PlanMigration fault sort_Sort dialect m dir max w
  = (planned_world w, Done ([], None, Some (Errorf msg))) ∧
  ExecMax fault sort_Sort dialect m dir max w
  = (planned_world w, Done (0, Some (Errorf msg))).
Proof.
  intros Hd Hc Hf Hs.
  assert (PlanMigration fault sort_Sort dialect m dir max w
          = (planned_world w, Done ([], None, Some (Errorf msg)))) as Hp.
  { unfold PlanMigration, getMigrationDbMap. rewrite Hd.
    unfold mbind, M_bind, dbMap_CreateTablesIfNotExists, find, dbMap_SelectOne, failure.
    rewrite Hc, Hf. simpl. by rewrite Hs. }
  split; [done|]. by rewrite ExecMax_unfold, Hp.
Qed.


(** X20. A [max] that is zero or negative sets no cap: [PlanMigration]
    and [ExecMax] then do what they do with [max = 0], which is what [Exec]
    does. *)
Theorem ExecMax_nonpositive_max `{MigrationSource Src} (dialect : string) (m : Src)
    (dir : MigrationDirection) (max : Z) (w : World) :
  max ≤ 0 →
  PlanMigration fault sort_Sort dialect m dir max w
  = PlanMigration fault sort_Sort dialect m dir 0 w ∧
  ExecMax fault sort_Sort dialect m dir max w = Exec fault sort_Sort dialect m dir w.
Proof.
  intros Hmax.
  assert (PlanMigration fault sort_Sort dialect m dir max w
          = PlanMigration fault sort_Sort dialect m dir 0 w) as Hp.
  { unfold PlanMigration, getMigrationDbMap.
    destruct (MigrationDialects !! dialect) as [d|]; [|done].
    unfold mbind, M_bind, dbMap_CreateTablesIfNotExists, find, dbMap_SelectOne, pure.
    destruct (failure fault w CallCreateTables) as [e0|]; [done|].
    destruct (FindMigrations m) as [ms [e0|]]; [done|].
    simpl.
    destruct (failure fault _ CallSelectOne) as [e0|] eqn:Hs.
    { rewrite !bool_decide_eq_true_2; [done|..];
        unfold failure in Hs; destruct (fault _ _); simplify_eq/=; done. }
    destruct (newest (ledger (committed w))) as [r0|]; simpl;
      (destruct (ToApply _ _ _) as [pending| |]; [|done..]);
      by rewrite (bool_decide_eq_false_2 (max > 0 ∧ _)) by lia. }
  split; [done|]. unfold Exec. by rewrite !ExecMax_unfold, Hp.
Qed.

(** X21. The first run: on an empty ledger, with direction [Up] and no
    cap, [PlanMigration] plans every definition of the source, in the
    order of the sort and with its up statements, provided no definition
    has the empty id. *)
Theorem PlanMigration_first_run `{MigrationSource Src} (dialect : string) (m : Src)
    (w : World) (d : Dialect) (ms : list Migration.t) :
  (∀ l, sort_Sort l ≡ₚ l) →
  MigrationDialects !! dialect = Some d →
  fault w CallCreateTables = None →
  FindMigrations m = (ms, None) →
  fault (log CallFindMigrations (log CallCreateTables w)) CallSelectOne = None →
  ledger (committed w) = [] →
  Forall (λ x, Migration.Id x ≠ "") ms →
  PlanMigration fault sort_Sort dialect m Up 0 w
  = (planned_world w,
     Done (plan Up <$> sort_Sort ms,
           Some {| DbMap.Dialect := d; DbMap.TableName := "gorp_migrations" |},
           None)) ∧
  ∀ p, p ∈ plan Up <$> sort_Sort ms →
       PlannedMigration.Queries p = Migration.Up (PlannedMigration.Migration p).
Proof.
  intros Hperm Hd Hc Hf Hs Hempty Hids. split.
  - rewrite (PlanMigration_ok fault sort_Sort dialect m Up 0 w d ms (sort_Sort ms));
      [by rewrite capped_zero | done..|].
    rewrite Hempty, ToApply_Up_drop, leading_none; [done|].
    apply Forall_forall. intros x Hx Hle. apply le_empty_inv in Hle.
    rewrite Forall_forall in Hids. apply (Hids x); [|done]. by rewrite <- (Hperm ms).
  - intros p Hp. by apply list_elem_of_fmap in Hp as (x & -> & _).
Qed.

Lemma watermark_cases (rs : list MigrationRecord.t) :
  (rs = [] ∧ watermark rs = "") ∨ watermark rs ∈ ids rs.
Proof.
  pose proof (newest_spec rs) as Hn. unfold watermark.
  destruct (newest rs) as [b|].
  - right. destruct Hn as [Hin _]. by apply list_elem_of_fmap_2.
  - left. by subst rs.
Qed.

Lemma NoDup_fmap_eq {A B} (f : A → B) (l : list A) (x y : A) :
  NoDup (f <$> l) → x ∈ l → y ∈ l → f x = f y → x = y.
Proof.
  induction l as [|a l IH]; intros Hnd Hx Hy Hf; [by apply elem_of_nil in Hx|].
  rewrite fmap_cons in Hnd. apply NoDup_cons in Hnd as [Ha Hnd].
  apply elem_of_cons in Hx as [->|Hx]; apply elem_of_cons in Hy as [->|Hy].
  - done.
  - exfalso. apply Ha. rewrite Hf. by apply list_elem_of_fmap_2.
  - exfalso. apply Ha. rewrite <- Hf. by apply list_elem_of_fmap_2.
  - by apply IH.
Qed.

(** The watermark after the first [j] pending migrations of a sorted list
    of distinct ids were recorded leaves the others pending. *)
Lemma leading_after_progress (sorted : list Migration.t)
    (rs recs : list MigrationRecord.t) (j : nat) :
  Sorted byId_le sorted →
  NoDup (Migration.Id <$> sorted) →
  ids recs
  = Migration.Id <$> take j (drop (leading (watermark rs) sorted) sorted) →
  drop (leading (watermark (rs ++ recs)) sorted) sorted
  = drop j (drop (leading (watermark rs) sorted) sorted).
Proof.
  intros Hs Hnd Hi.
  set (k := leading (watermark rs) sorted) in *.
  set (pending := drop k sorted) in *.
  assert (sorted = (take k sorted ++ take j pending) ++ drop j pending) as Hsplit
    by (unfold pending; by rewrite <- app_assoc, !take_drop).
  assert (Forall (λ m, String.le (Migration.Id m) (watermark (rs ++ recs)))
            (take k sorted ++ take j pending)) as Hle.
  { apply Forall_app. split.
    - eapply Forall_impl; [apply leading_take|].
      intros x Hx. simpl in Hx. etransitivity; [exact Hx|]. apply watermark_app.
    - apply Forall_forall. intros x Hx. apply watermark_ge.
      unfold ids. rewrite fmap_app, elem_of_app. right.
      fold (ids recs). rewrite Hi. by apply list_elem_of_fmap_2. }
  assert (Forall (λ m, String.ltb (watermark (rs ++ recs)) (Migration.Id m) = true)
            (drop j pending)) as Hgt.
  { apply Forall_forall. intros y Hy.
    assert (String.ltb (watermark rs) (Migration.Id y) = true) as Hwy.
    { pose proof (sorted_drop_leading (watermark rs) sorted Hs) as Hd.
      rewrite Forall_forall in Hd. apply Hd. by apply subseteq_drop in Hy. }
    destruct (watermark_cases (rs ++ recs)) as [[_ ->] | Hin].
    - apply ltb_not_le. intros Hle'. apply le_empty_inv in Hle'.
      apply ltb_not_le in Hwy. apply Hwy. rewrite Hle'. apply le_empty.
    - unfold ids in Hin. rewrite fmap_app, elem_of_app in Hin.
      destruct Hin as [Hin | Hin].
      + apply ltb_not_le. intros Hle'. apply ltb_not_le in Hwy. apply Hwy.
        etransitivity; [exact Hle'|]. by apply watermark_ge.
      + fold (ids recs) in Hin. rewrite Hi in Hin.
        apply list_elem_of_fmap in Hin as (z & Hz & Hzin). rewrite Hz.
        assert (StronglySorted byId_le (take j pending ++ drop j pending)) as Hss.
        { rewrite take_drop. apply (Sorted_StronglySorted _). by apply sorted_drop. }
        pose proof (StronglySorted_app_1_elem_of _ _ _ _ _ Hss Hzin Hy) as Hzy.
        assert (NoDup (Migration.Id <$> take j pending ++ drop j pending)) as Hnd'.
        { rewrite take_drop. unfold pending.
          rewrite <- (take_drop k sorted), fmap_app in Hnd.
          by apply NoDup_app in Hnd as (_ & _ & Hnd). }
        rewrite fmap_app in Hnd'. apply NoDup_app in Hnd' as (_ & Hdisj & _).
        apply ltb_not_le. intros Hyz.
        apply (Hdisj (Migration.Id z)); [by apply list_elem_of_fmap_2|].
        assert (Migration.Id z = Migration.Id y) as ->
          by (by apply (anti_symm String.le)).
        by apply list_elem_of_fmap_2. }
  rewrite Hsplit at 1 2.
  rewrite (leading_split _ _ _ Hle Hgt). by rewrite drop_app_length.
Qed.

(** X22. A run of [ExecMax] with direction [Up] and no cap that stopped
    with an error can be resumed: with definitions of distinct ids, what
    [ToApply] finds pending under the new watermark is what was pending
    before less the [n] migrations counted as applied. *)
Theorem ExecMax_Up_resumes `{MigrationSource Src} (dialect : string) (m : Src)
    (ms : list Migration.t) (w w' : World) (n : Z) (r : option error) :
  sort_contract sort_Sort →
  FindMigrations m = (ms, None) →
  NoDup (Migration.Id <$> ms) →
  ExecMax fault sort_Sort dialect m Up 0 w = (w', Done (n, r)) →
  ∃ pending,
    ToApply (sort_Sort ms) (watermark (ledger (committed w))) Up = Done pending ∧
    0 ≤ n ≤ len pending ∧
    ToApply (sort_Sort ms) (watermark (ledger (committed w'))) Up
    = Done (drop (Z.to_nat n) pending).
Proof.
  intros Hsort Hf Hnd Hrun.
  destruct (Hsort ms) as [Hperm Hsorted].
  set (k := leading (watermark (ledger (committed w))) (sort_Sort ms)).
  exists (drop k (sort_Sort ms)). rewrite !ToApply_Up_drop.
  apply ExecMax_inv in Hrun
    as (wp & planned & dbMap & err & Hp & Hc & _ &
        [(e & -> & -> & -> & -> & ->) | (d & -> & -> & Hloop)]).
  - rewrite Hc. unfold len. split_and!; [done | lia | lia | done].
  - apply PlanMigration_inv in Hp as (_ & ms' & pending & _ & _ & Hf' & Ha & -> & ->).
    rewrite Hf in Hf'. injection Hf' as <-.
    rewrite ToApply_Up_drop in Ha. injection Ha as <-. fold k in Hloop.
    rewrite capped_zero in Hloop.
    pose proof (apply_migrations_count _ _ _ _ _ _ _ _ Hloop) as [Hn _].
    apply apply_migrations_Up_progress in Hloop as (recs & Hl & Hi & _).
    rewrite Z.sub_0_r in Hi. simpl in Hl.
    unfold len in *. rewrite length_fmap in Hn.
    split_and!; [done | lia | lia |].
    rewrite Hl. f_equal. apply leading_after_progress; [done | | ].
    + by rewrite Hperm.
    + rewrite Hi, <- fmap_take, <- list_fmap_compose. done.
Qed.

(** X23. On a driver that does not fail, with a known dialect and
    definitions of distinct ids, [ExecMax] with direction [Up] and no cap
    applies exactly the definitions whose id is greater than the
    watermark: it returns their number and no error, and the ledger has
    their ids appended in ascending order. *)
Theorem ExecMax_Up_applies_all_pending `{MigrationSource Src} (dialect : string) (m : Src)
    (d : Dialect) (ms : list Migration.t) (w : World) :
  (∀ w c, fault w c = None) →
  sort_contract sort_Sort →
  MigrationDialects !! dialect = Some d →
  FindMigrations m = (ms, None) →
  NoDup (Migration.Id <$> ms) →
  ∃ w1 pending,
    pending
    = filter (λ x, String.ltb (watermark (ledger (committed w))) (Migration.Id x) = true)
        (sort_Sort ms) ∧
    ExecMax fault sort_Sort dialect m Up 0 w = (w1, Done (len pending, None)) ∧
    ids (ledger (committed w1)) = ids (ledger (committed w)) ++ (Migration.Id <$> pending) ∧
    Sorted String.le (Migration.Id <$> pending).
Proof.
  intros quiet Hsort Hd Hf Hnd.
  destruct (Hsort ms) as [_ Hsorted].
  destruct (ExecMax_Up_succeeds fault sort_Sort quiet dialect m d ms w Hsort Hd Hf Hnd)
    as (w1 & n & Hrun).
  exists w1. eexists. split; [reflexivity|].
  rewrite <- sorted_drop_filter by done.
  pose proof Hrun as Hok.
  apply ExecMax_Up_ok in Hok as (ms' & recs & Hf' & Hl & Hi & Hn).
  rewrite Hf in Hf'. injection Hf' as <-.
  split_and!.
  - rewrite Hrun. do 3 f_equal. rewrite Hn. unfold len.
    apply (f_equal length) in Hi. unfold ids in Hi. rewrite !length_fmap in Hi. lia.
  - unfold ids in *. by rewrite Hl, fmap_app, Hi.
  - apply (Sorted_fmap Migration.Id byId_le String.le); [done|].
    by apply sorted_drop.
Qed.

(** X24. Stepping back by one: on a driver that does not fail, when the
    newest ledger record is that of a definition (ids being distinct),
    [ExecMax] with direction [Down] and [max = 1] reverts that definition
    alone: it returns the count 1, runs its down statements, and deletes
    its record and no other. *)
Theorem ExecMax_Down_one_reverts_newest `{MigrationSource Src} (dialect : string) (m : Src)
    (d : Dialect) (ms : list Migration.t) (x : Migration.t) (w : World) :
  (∀ w c, fault w c = None) →
  sort_contract sort_Sort →
  MigrationDialects !! dialect = Some d →
  FindMigrations m = (ms, None) →
  NoDup (Migration.Id <$> ms) →
  x ∈ ms →
  Migration.Id x = watermark (ledger (committed w)) →
  ∃ w1,
    ExecMax fault sort_Sort dialect m Down 1 w = (w1, Done (1, None)) ∧
    ledger (committed w1)
    = filter (λ r, MigrationRecord.Id r ≠ Migration.Id x) (ledger (committed w)) ∧
    statements (committed w1) = statements (committed w) ++ Migration.Down x.
Proof.
  intros quiet Hsort Hd Hf Hnd Hx Hid.
  destruct (Hsort ms) as [Hperm Hsorted].
  set (wm := watermark (ledger (committed w))) in *.
  set (k := leading wm (sort_Sort ms)).
  assert (x ∈ take k (sort_Sort ms)) as Hxin.
  { unfold k. rewrite sorted_take_filter by done. apply list_elem_of_filter.
    split; [by rewrite Hid | by rewrite Hperm]. }
  assert (∃ rest, reverse (take k (sort_Sort ms)) = x :: rest) as [rest Hrev].
  { destruct (reverse (take k (sort_Sort ms))) as [|y rest] eqn:Hrev.
    - apply (f_equal reverse) in Hrev. rewrite reverse_involutive in Hrev.
      rewrite Hrev in Hxin. by apply elem_of_nil in Hxin.
    - exists rest. f_equal.
      apply (f_equal reverse) in Hrev. rewrite reverse_involutive, reverse_cons in Hrev.
      assert (y ∈ take k (sort_Sort ms)) as Hyin
        by (rewrite Hrev, elem_of_app; right; apply list_elem_of_here).
      assert (String.le (Migration.Id y) wm) as Hywm.
      { pose proof (leading_take wm (sort_Sort ms)) as Ht.
        rewrite Forall_forall in Ht. by apply Ht. }
      assert (byId_le x y) as Hxy.
      { rewrite Hrev in Hxin. apply elem_of_app in Hxin as [Hxin | Hxin].
        - pose proof (sorted_take k _ Hsorted) as Hss.
          apply (Sorted_StronglySorted _) in Hss. rewrite Hrev in Hss.
          apply (StronglySorted_app_1_elem_of _ _ _ _ _ Hss Hxin), list_elem_of_here.
        - apply list_elem_of_singleton in Hxin as ->. unfold byId_le. done. }
      symmetry. apply (NoDup_fmap_eq Migration.Id ms); [done | done | |].
      + apply subseteq_take in Hyin. by rewrite <- Hperm.
      + apply (anti_symm String.le); [done|]. by rewrite Hid. }
  rewrite ExecMax_unfold.
  rewrite (PlanMigration_ok fault sort_Sort dialect m Down 1 w d ms (x :: rest));
    [| done | apply quiet | done | apply quiet | by rewrite ToApply_Down_reverse, <- Hrev].
  unfold capped. rewrite bool_decide_eq_true_2 by lia. simpl.
  destruct (apply_migration_Down_quiet fault quiet
              {| DbMap.Dialect := d; DbMap.TableName := "gorp_migrations" |}
              (plan Down x) (planned_world w)) as [w1 H1].
  unfold mbind, M_bind. rewrite H1. exists w1.
  apply apply_migration_Down_ok in H1 as [Hc _].
  rewrite Hc. split_and!; done.
Qed.


End ExecutorMore.

(** ** The executor over pointers *)

Section ExecutorPointers.

Context (fault : World → Call → option string).
Context (sort_Sort : list (option Migration.t) → outcome (list (option Migration.t))).

Lemma capped_fmap {A B} (f : A → B) (max : Z) (l : list A) :
  capped max (f <$> l) = f <$> capped max l.
Proof. unfold capped. case_bool_decide; [by rewrite fmap_take | done]. Qed.

(** The loop of the planner reads through the pointers of a slice
    without a nil pointer as the map of [plan] reads the values. *)
Lemma Pointers_plan_range (dir : MigrationDirection) (ms : list Migration.t) :
  Pointers.plan_range dir (Some <$> ms) = Done (with_pointer <$> (plan dir <$> ms)).
Proof.
  induction ms as [|m ms IH]; [done|].
  rewrite !fmap_cons. cbn [Pointers.plan_range]. rewrite IH.
  unfold Pointers.plan, plan, with_pointer.
  repeat case_bool_decide; done.
Qed.

(** Planning over a source without a nil pointer does not panic, and the
    plan holds no nil pointer. *)
Lemma Pointers_PlanMigration_returns `{Pointers.MigrationSource Src} (dialect : string)
    (m : Src) (dir : MigrationDirection) (max : Z) (w : World) :
  Pointers.sort_returns sort_Sort →
  ((Pointers.FindMigrations m).2 = None →
   Forall (λ p, p ≠ None) (Pointers.FindMigrations m).1) →
  dir = Up ∨ dir = Down →
  ∃ w' planned dbMap err,
    Pointers.PlanMigration fault sort_Sort dialect m dir max w
    = (w', Done (with_pointer <$> planned, dbMap, err)) ∧
    (err = None → is_Some dbMap).
Proof.
  intros Hsort Hnil Hdir.
  unfold Pointers.PlanMigration, getMigrationDbMap.
  destruct (MigrationDialects !! dialect) as [d|] eqn:Hd;
    [|by exists w, [], None, (Some (Errorf ("Unknown dialect: " +:+ dialect)))].
  unfold mbind, M_bind, dbMap_CreateTablesIfNotExists, Pointers.find, dbMap_SelectOne, pure.
  destruct (failure fault w CallCreateTables) as [e0|];
    [by eexists _, [], None, (Some e0)|].
  destruct (Pointers.FindMigrations m) as [ps [e0|]] eqn:Hf;
    [by eexists _, [], None, (Some e0)|].
  destruct (Hsort ps (Hnil eq_refl)) as (ps' & -> & Hnil').
  apply without_nil_values in Hnil' as [ms ->].
  simpl.
  destruct (failure fault _ CallSelectOne) as [e0|] eqn:Hs.
  { rewrite bool_decide_eq_true_2; [by eexists _, [], None, (Some e0)|].
    unfold failure in Hs. destruct (fault _ _); simplify_eq/=. done. }
  destruct (newest (ledger (committed w))) as [r0|]; simpl;
    rewrite Pointers_ToApply_values;
    (edestruct (ToApply_returns ms) as [pending ->]; [exact Hdir|]);
    rewrite slice_to_capped, capped_fmap, Pointers_plan_range;
    by eexists _, _, _, None.
Qed.

(** On a planned migration whose pointer is not nil, the ledger write,
    the iteration and the loop over pointers are those over the values. *)
Lemma Pointers_record_migration_values (dir : MigrationDirection) (p : PlannedMigration.t)
    (w : World) :
  Pointers.record_migration fault dir (with_pointer p) w
  = record_migration fault dir (PlannedMigration.Id p) w.
Proof.
  unfold Pointers.record_migration, record_migration.
  repeat case_bool_decide; done.
Qed.

Lemma Pointers_apply_migration_values (dbMap : DbMap.t) (dir : MigrationDirection)
    (p : PlannedMigration.t) (w : World) :
  Pointers.apply_migration fault dbMap dir (with_pointer p) w
  = apply_migration fault dbMap dir p w.
Proof.
  unfold Pointers.apply_migration, apply_migration, mbind, M_bind.
  destruct (dbMap_Begin fault dbMap w) as [w1 [[e|]| |]]; [done| |done..].
  change (Pointers.PlannedMigration.Queries (with_pointer p))
    with (PlannedMigration.Queries p).
  destruct (exec_queries fault _ w1) as [w2 [[e|]| |]]; [done| |done..].
  by rewrite Pointers_record_migration_values.
Qed.

Lemma Pointers_apply_migrations_values (dbMap : DbMap.t) (dir : MigrationDirection)
    (planned : list PlannedMigration.t) (k : Z) (w : World) :
  Pointers.apply_migrations fault dbMap dir (with_pointer <$> planned) k w
  = apply_migrations fault dbMap dir planned k w.
Proof.
  revert k w. induction planned as [|p planned IH]; intros k w; [done|].
  rewrite fmap_cons. cbn [Pointers.apply_migrations apply_migrations].
  unfold mbind, M_bind. rewrite Pointers_apply_migration_values.
  destruct (apply_migration fault dbMap dir p w) as [w1 [[e|]| |]]; [done| |done..].
  apply IH.
Qed.

(** X8. Over a source whose migrations hold no nil pointer, with
    direction [Up] or [Down], [ExecMax] returns a count and an error or
    none; it does not panic: no nil pointer is read through, the map is
    never nil where it is used and the [panic("Not possible")] of the loop
    is not reached. *)
Theorem ExecMax_returns_without_nil `{Pointers.MigrationSource Src} (dialect : string)
    (m : Src) (dir : MigrationDirection) (max : Z) (w0 : World) :
  Pointers.sort_returns sort_Sort →
  ((Pointers.FindMigrations m).2 = None →
   Forall (λ p, p ≠ None) (Pointers.FindMigrations m).1) →
  dir = Up ∨ dir = Down →
  ∃ w' n r, Pointers.ExecMax fault sort_Sort dialect m dir max w0 = (w', Done (n, r)).
Proof.
  intros Hsort Hnil Hdir.
  destruct (Pointers_PlanMigration_returns dialect m dir max w0 Hsort Hnil Hdir)
    as (w & planned & dbMap & err & Hp & Hmap).
  unfold Pointers.ExecMax, mbind, M_bind. rewrite Hp.
  destruct err as [e|].
  - destruct dbMap; by eexists _, _, _.
  - destruct (Hmap eq_refl) as [d ->].
    rewrite Pointers_apply_migrations_values.
    by apply apply_migrations_returns.
Qed.

End ExecutorPointers.

Lemma pointed_values_fmap (ms : list Migration.t) : pointed_values (Some <$> ms) = Done ms.
Proof. induction ms as [|m ms IH]; [done|]. rewrite fmap_cons. simpl. by rewrite IH. Qed.

Lemma sample_pointer_sort_returns : Pointers.sort_returns sample_pointer_sort.
Proof.
  intros ps Hnil. apply without_nil_values in Hnil as [ms ->].
  exists (Some <$> sample_sort ms). split.
  - unfold sample_pointer_sort. by rewrite pointed_values_fmap.
  - apply without_nil_values. by eexists.
Qed.

(** ** The sources that load scripts *)

Lemma string_length_append (p s : string) :
  String.length (p +:+ s) = (String.length p + String.length s)%nat.
Proof. induction p as [|a p IH]; simpl; [done|]. by rewrite IH. Qed.

Lemma substring_all (s : string) : String.substring 0 (String.length s) s = s.
Proof. induction s as [|a s IH]; simpl; [done|]. by rewrite IH. Qed.

Lemma substring_append (p s : string) :
  String.substring (String.length p) (String.length s) (p +:+ s) = s.
Proof. induction p as [|a p IH]; simpl; [apply substring_all | done]. Qed.

Lemma substring_split (n : nat) (s : string) :
  (n ≤ String.length s)%nat →
  s = String.substring 0 n s +:+ String.substring n (String.length s - n) s.
Proof.
  revert s. induction n as [|n IH]; intros s Hn.
  - rewrite Nat.sub_0_r, substring_all. by destruct s.
  - destruct s as [|a s]; simpl in *; [lia|].
    change (String a (String.substring 0 n s)
              +:+ String.substring n (String.length s - n) s)
      with (String a (String.substring 0 n s
                        +:+ String.substring n (String.length s - n) s)).
    f_equal. apply IH. lia.
Qed.

(** [HasSuffix] holds of the strings that end with the suffix. *)
Lemma HasSuffix_spec (s suffix : string) :
  HasSuffix s suffix = true ↔ ∃ p, s = p +:+ suffix.
Proof.
  unfold HasSuffix. rewrite andb_true_iff, bool_decide_eq_true, String.eqb_eq. split.
  - intros [Hlen Heq].
    exists (String.substring 0 (String.length s - String.length suffix) s).
    rewrite (substring_split (String.length s - String.length suffix) s) at 1 by lia.
    f_equal. rewrite <- Heq at 3. f_equal. lia.
  - intros [p ->]. rewrite string_length_append. split; [lia|].
    replace (String.length p + String.length suffix - String.length suffix)%nat
      with (String.length p) by lia.
    apply substring_append.
Qed.

Section SourcesFacts.

Context (path_Join : string → string → string).
Context (SplitSQLStatements : Reader → bool → Reader * (list string * option error)).
Context {File : Type}.
Context (os_Open : string → File * option error).
Context (File_Readdir : File → Z → list FileInfo.t * option error).
Context (File_reader : File → Reader).

(** [ParseMigration] returns a migration, of the id it was given, exactly
    when it returns no error. *)
Lemma ParseMigration_inv (id : string) (r : Reader) (mig : option Migration.t) :
  ParseMigration SplitSQLStatements id r = (mig, None) →
  ∃ m, mig = Some m ∧ Migration.Id m = id.
Proof.
  unfold ParseMigration.
  destruct (SplitSQLStatements r true) as [r1 [up [e|]]]; [done|].
  destruct (SplitSQLStatements r1 false) as [r2 [down [e|]]]; [done|].
  intros [= <-]. by eexists.
Qed.

Lemma ParseMigration_error (id : string) (r : Reader) (mig : option Migration.t)
    (e : error) :
  ParseMigration SplitSQLStatements id r = (mig, Some e) → mig = None.
Proof.
  unfold ParseMigration.
  destruct (SplitSQLStatements r true) as [r1 [up [e1|]]]; [by intros [= <- _]|].
  destruct (SplitSQLStatements r1 false) as [r2 [down [e2|]]]; [by intros [= <- _]|].
  done.
Qed.

Lemma AssetMigrationSource_range_ok (a : AssetMigrationSource.t) (files : list string)
    (acc ms : list Migration.t) :
  AssetMigrationSource_range path_Join SplitSQLStatements a files acc = (ms, None) →
  Migration.Id <$> ms
  = (Migration.Id <$> acc) ++ filter (λ name, HasSuffix name ".sql" = true) files ∧
  Forall (λ name, HasSuffix name ".sql" = true → asset_loads path_Join SplitSQLStatements a name) files.
Proof.
  revert acc. induction files as [|name files IH]; intros acc Hrun.
  - simpl in Hrun. injection Hrun as <-. by rewrite app_nil_r.
  - simpl in Hrun.
    destruct (HasSuffix name ".sql") eqn:Hsuf.
    + destruct (AssetMigrationSource.Asset a _) as [file [e|]] eqn:Hasset; [done|].
      destruct (ParseMigration _ _ _) as [mig [e|]] eqn:Hparse; [done|].
      destruct (ParseMigration_inv _ _ _ Hparse) as (x & -> & Hid).
      apply IH in Hrun as [Hids Hall]. split.
      * rewrite Hids, filter_cons_True by done.
        simpl. rewrite fmap_app, <- app_assoc. simpl. by rewrite Hid.
      * constructor; [|done]. intros _. by exists file, x.
    + apply IH in Hrun as [Hids Hall]. split.
      * rewrite filter_cons_False by (by rewrite Hsuf). done.
      * constructor; [|done]. by rewrite Hsuf.
Qed.

Lemma AssetMigrationSource_range_error (a : AssetMigrationSource.t) (files : list string)
    (acc ms : list Migration.t) (e : error) :
  AssetMigrationSource_range path_Join SplitSQLStatements a files acc = (ms, Some e) →
  ms = [] ∧ ¬ Forall (λ name, HasSuffix name ".sql" = true → asset_loads path_Join SplitSQLStatements a name) files.
Proof.
  revert acc. induction files as [|name files IH]; intros acc Hrun; [done|].
  simpl in Hrun.
  destruct (HasSuffix name ".sql") eqn:Hsuf.
  - destruct (AssetMigrationSource.Asset a _) as [file [e1|]] eqn:Hasset.
    { injection Hrun as <- _. split; [done|]. intros Hall.
      apply Forall_cons in Hall as [Hl _].
      destruct (Hl Hsuf) as (file' & x & Ha & _). congruence. }
    destruct (ParseMigration _ _ _) as [mig [e2|]] eqn:Hparse.
    { injection Hrun as <- _. split; [done|]. intros Hall.
      apply Forall_cons in Hall as [Hl _].
      destruct (Hl Hsuf) as (file' & x & Ha & Hp).
      rewrite Hasset in Ha. injection Ha as <-. congruence. }
    apply IH in Hrun as [-> Hn]. split; [done|].
    intros Hall. apply Hn. by apply Forall_cons in Hall as [_ Hall].
  - apply IH in Hrun as [-> Hn]. split; [done|].
    intros Hall. apply Hn. by apply Forall_cons in Hall as [_ Hall].
Qed.

(** X25. The migrations an asset source finds are the scripts of the
    listing whose name ends with [.sql], in the order of the listing, each
    with its name as id; the other names are passed over. *)
Theorem AssetMigrationSource_FindMigrations_ids (a : AssetMigrationSource.t)
    (files : list string) (ms : list Migration.t) :
  AssetMigrationSource.AssetDir a (AssetMigrationSource.Dir a) = (files, None) →
  AssetMigrationSource_FindMigrations path_Join SplitSQLStatements a = (ms, None) →
  Migration.Id <$> ms = filter (λ name, HasSuffix name ".sql" = true) files ∧
  Forall (λ x, ∃ p, Migration.Id x = p +:+ ".sql") ms.
Proof.
  intros Hdir. unfold AssetMigrationSource_FindMigrations. rewrite Hdir.
  intros Hrun. apply AssetMigrationSource_range_ok in Hrun as [Hids _].
  simpl in Hids. split; [done|].
  apply Forall_forall. intros x Hx. apply HasSuffix_spec.
  assert (Migration.Id x ∈ filter (λ name, HasSuffix name ".sql" = true) files) as Hin
    by (rewrite <- Hids; by apply list_elem_of_fmap_2).
  by apply list_elem_of_filter in Hin as [Hin _].
Qed.

(** X26. An asset source finds its migrations all or none: once the
    listing is had, it returns without error exactly when every script of
    the listing whose name ends with [.sql] is there and parses; and with
    an error it returns no migration. *)
Theorem AssetMigrationSource_FindMigrations_all_or_none (a : AssetMigrationSource.t)
    (files : list string) :
  AssetMigrationSource.AssetDir a (AssetMigrationSource.Dir a) = (files, None) →
  ((∃ ms, AssetMigrationSource_FindMigrations path_Join SplitSQLStatements a = (ms, None))
   ↔ Forall (λ name, HasSuffix name ".sql" = true → asset_loads path_Join SplitSQLStatements a name) files) ∧
  (∀ ms e,
     AssetMigrationSource_FindMigrations path_Join SplitSQLStatements a = (ms, Some e) →
     ms = []).
Proof.
  intros Hdir. unfold AssetMigrationSource_FindMigrations. rewrite Hdir. split.
  - split.
    + intros [ms Hrun]. by apply AssetMigrationSource_range_ok in Hrun as [_ Hall].
    + intros Hall.
      destruct (AssetMigrationSource_range path_Join SplitSQLStatements a files [])
        as [ms [e|]] eqn:Hrun; [|by exists ms].
      by apply AssetMigrationSource_range_error in Hrun as [_ Hn].
  - intros ms e Hrun. by apply AssetMigrationSource_range_error in Hrun as [-> _].
Qed.

(** The names of a listing that [FindMigrations] takes for scripts. *)
Lemma file_loads_id (f : FileMigrationSource.t) (name : string) (m : Migration.t) :
  file_loads path_Join SplitSQLStatements os_Open File_reader f name m →
  Migration.Id m = name.
Proof.
  intros (file & _ & Hparse).
  apply ParseMigration_inv in Hparse as (x & [= <-] & Hid). done.
Qed.

Lemma file_loads_ids (f : FileMigrationSource.t) (names : list string)
    (ms : list Migration.t) :
  Forall2 (file_loads path_Join SplitSQLStatements os_Open File_reader f) names ms →
  Migration.Id <$> ms = names.
Proof.
  induction 1 as [|name m names ms Hl _ IH]; [done|].
  rewrite fmap_cons, IH. f_equal. by eapply file_loads_id.
Qed.

(** The loop over the listing, when it ends without error: it has added
    what the scripts load as, in the order of the listing. *)
Lemma FileMigrationSource_range_ok (f : FileMigrationSource.t) (files : list FileInfo.t)
    (acc ms : list Migration.t) :
  FileMigrationSource_range path_Join SplitSQLStatements os_Open File_reader f files acc
  = (ms, None) →
  ∃ new,
    ms = acc ++ new ∧
    Forall2 (file_loads path_Join SplitSQLStatements os_Open File_reader f)
      (filter (λ name, HasSuffix name ".sql" = true) (FileInfo.Name <$> files)) new.
Proof.
  revert acc. induction files as [|info files IH]; intros acc Hrun.
  - simpl in Hrun. injection Hrun as <-. exists []. by rewrite app_nil_r.
  - simpl in Hrun. rewrite fmap_cons.
    destruct (HasSuffix (FileInfo.Name info) ".sql") eqn:Hsuf.
    + destruct (os_Open _) as [file [e|]] eqn:Hopen; [done|].
      destruct (ParseMigration _ _ _) as [mig [e|]] eqn:Hparse; [done|].
      destruct (ParseMigration_inv _ _ _ Hparse) as (x & -> & Hid).
      apply IH in Hrun as (new & -> & Hall).
      exists (x :: new). split.
      * simpl. by rewrite <- app_assoc.
      * rewrite filter_cons_True by done. constructor; [|done]. by exists file.
    + apply IH in Hrun as (new & -> & Hall).
      exists new. split; [done|].
      by rewrite filter_cons_False by (by rewrite Hsuf).
Qed.

(** Conversely, when the scripts of the listing load, the loop ends
    without error and has added what they load as. *)
Lemma FileMigrationSource_range_loads (f : FileMigrationSource.t) (files : list FileInfo.t)
    (acc new : list Migration.t) :
  Forall2 (file_loads path_Join SplitSQLStatements os_Open File_reader f)
    (filter (λ name, HasSuffix name ".sql" = true) (FileInfo.Name <$> files)) new →
  FileMigrationSource_range path_Join SplitSQLStatements os_Open File_reader f files acc
  = (acc ++ new, None).
Proof.
  revert acc new. induction files as [|info files IH]; intros acc new Hall.
  - simpl in Hall. apply Forall2_nil_inv_l in Hall as ->. simpl. by rewrite app_nil_r.
  - rewrite fmap_cons in Hall. simpl.
    destruct (HasSuffix (FileInfo.Name info) ".sql") eqn:Hsuf.
    + rewrite filter_cons_True in Hall by done.
      apply Forall2_cons_inv_l in Hall as (m & new' & (file & Hopen & Hparse) & Hall & ->).
      rewrite Hopen, Hparse. simpl.
      rewrite (IH _ new' Hall). by rewrite <- app_assoc.
    + rewrite filter_cons_False in Hall by (by rewrite Hsuf).
      by apply IH.
Qed.

(** The loop returns the error of the first script that fails, and no
    migration. *)
Lemma FileMigrationSource_range_fails (f : FileMigrationSource.t)
    (before : list FileInfo.t) (info : FileInfo.t) (after : list FileInfo.t)
    (acc : list Migration.t) (e : error) :
  Forall (λ i, HasSuffix (FileInfo.Name i) ".sql" = true →
               ∃ m, file_loads path_Join SplitSQLStatements os_Open File_reader f
                      (FileInfo.Name i) m) before →
  HasSuffix (FileInfo.Name info) ".sql" = true →
  file_fails path_Join SplitSQLStatements os_Open File_reader f (FileInfo.Name info) e →
  FileMigrationSource_range path_Join SplitSQLStatements os_Open File_reader f
    (before ++ info :: after) acc
  = ([], Some e).
Proof.
  intros Hbefore Hsuf Hfails. revert acc.
  induction Hbefore as [|i before Hi _ IH]; intros acc.
  - simpl. rewrite Hsuf.
    destruct Hfails as (file & [Hopen | (Hopen & mig & Hparse)]).
    + by rewrite Hopen.
    + by rewrite Hopen, Hparse.
  - simpl. destruct (HasSuffix (FileInfo.Name i) ".sql") eqn:Hs; [|apply IH].
    destruct (Hi eq_refl) as (m & file & Hopen & Hparse).
    rewrite Hopen, Hparse. apply IH.
Qed.

Lemma FileMigrationSource_range_error (f : FileMigrationSource.t) (files : list FileInfo.t)
    (acc ms : list Migration.t) (e : error) :
  FileMigrationSource_range path_Join SplitSQLStatements os_Open File_reader f files acc
  = (ms, Some e) →
  ms = [].
Proof.
  revert acc. induction files as [|info files IH]; intros acc Hrun; [done|].
  simpl in Hrun.
  destruct (HasSuffix (FileInfo.Name info) ".sql").
  - destruct (os_Open _) as [file [e1|]]; [by injection Hrun as <- _|].
    destruct (ParseMigration _ _ _) as [mig [e2|]]; [by injection Hrun as <- _|].
    by apply IH in Hrun.
  - by apply IH in Hrun.
Qed.

(** X27. What a file source finds.  When its directory cannot be opened
    or listed, it returns that error and no migration.  Otherwise it
    returns without error exactly the migrations that the files of the
    listing whose name ends with [.sql] open and parse to, in the order of
    the listing, each with its name as id; and when one of them cannot be
    opened or parsed, it returns the error of the first that fails, and
    no migration. *)
Theorem FileMigrationSource_FindMigrations_ids (f : FileMigrationSource.t) :
  match os_Open (FileMigrationSource.Dir f) with
  | (dir, Some e) =>
    FileMigrationSource_FindMigrations path_Join SplitSQLStatements os_Open File_Readdir
      File_reader f = ([], Some e)
  | (dir, None) =>
    match File_Readdir dir 0 with
    | (files, Some e) =>
      FileMigrationSource_FindMigrations path_Join SplitSQLStatements os_Open File_Readdir
        File_reader f = ([], Some e)
    | (files, None) =>
      (∀ ms,
         FileMigrationSource_FindMigrations path_Join SplitSQLStatements os_Open
           File_Readdir File_reader f = (ms, None)
         ↔ Forall2 (file_loads path_Join SplitSQLStatements os_Open File_reader f)
             (filter (λ name, HasSuffix name ".sql" = true) (FileInfo.Name <$> files))
             ms) ∧
      (∀ ms,
         FileMigrationSource_FindMigrations path_Join SplitSQLStatements os_Open
           File_Readdir File_reader f = (ms, None) →
         Migration.Id <$> ms
         = filter (λ name, HasSuffix name ".sql" = true) (FileInfo.Name <$> files)) ∧
      (∀ before info after e,
         files = before ++ info :: after →
         Forall (λ i, HasSuffix (FileInfo.Name i) ".sql" = true →
                      ∃ m, file_loads path_Join SplitSQLStatements os_Open File_reader f
                             (FileInfo.Name i) m) before →
         HasSuffix (FileInfo.Name info) ".sql" = true →
         file_fails path_Join SplitSQLStatements os_Open File_reader f
           (FileInfo.Name info) e →
         FileMigrationSource_FindMigrations path_Join SplitSQLStatements os_Open
           File_Readdir File_reader f = ([], Some e)) ∧
      (∀ ms e,
         FileMigrationSource_FindMigrations path_Join SplitSQLStatements os_Open
           File_Readdir File_reader f = (ms, Some e) →
         ms = [])
    end
  end.
Proof.
  unfold FileMigrationSource_FindMigrations.
  destruct (os_Open (FileMigrationSource.Dir f)) as [dir [e|]] eqn:Hopen; [done|].
  destruct (File_Readdir dir 0) as [files [e|]] eqn:Hls; [done|].
  split_and!.
  - intros ms. split.
    + intros Hrun. by apply FileMigrationSource_range_ok in Hrun as (new & -> & Hall).
    + intros Hall. by rewrite (FileMigrationSource_range_loads f files [] ms Hall).
  - intros ms Hrun. apply FileMigrationSource_range_ok in Hrun as (new & -> & Hall).
    by apply file_loads_ids in Hall.
  - intros before info after e -> Hbefore Hsuf Hfails.
    by apply FileMigrationSource_range_fails.
  - intros ms e Hrun. by apply FileMigrationSource_range_error in Hrun.
Qed.

End SourcesFacts.

(** ** A source of scripts under the planner *)

Section SourcesPlanned.

Context (fault : World → Call → option string).
Context (sort_Sort : list Migration.t → list Migration.t).
Context (path_Join : string → string → string).
Context (SplitSQLStatements : Reader → bool → Reader * (list string * option error)).

(** X28. The first run over a bundle: on an empty ledger, with direction
    [Up] and no cap, [PlanMigration] over an asset source that loads plans
    all the scripts of the listing whose name ends with [.sql], and no
    other. *)
Theorem AssetMigrationSource_first_run (dialect : string) (a : AssetMigrationSource.t)
    (w : World) (d : Dialect) (files : list string) (ms : list Migration.t) :
  (∀ l, sort_Sort l ≡ₚ l) →
  MigrationDialects !! dialect = Some d →
  fault w CallCreateTables = None →
  fault (log CallFindMigrations (log CallCreateTables w)) CallSelectOne = None →
  ledger (committed w) = [] →
  AssetMigrationSource.AssetDir a (AssetMigrationSource.Dir a) = (files, None) →
  AssetMigrationSource_FindMigrations path_Join SplitSQLStatements a = (ms, None) →
  ∃ planned dbMap,
    @PlanMigration fault sort_Sort AssetMigrationSource.t
      (AssetMigrationSource_FindMigrations path_Join SplitSQLStatements)
      dialect a Up 0 w
    = (planned_world w, Done (planned, Some dbMap, None)) ∧
    PlannedMigration.Id <$> planned ≡ₚ filter (λ name, HasSuffix name ".sql" = true) files.
Proof.
  intros Hperm Hd Hc Hs Hempty Hdir Hfind.
  assert (Migration.Id <$> ms = filter (λ name, HasSuffix name ".sql" = true) files)
    as Hids.
  { revert Hfind. unfold AssetMigrationSource_FindMigrations. rewrite Hdir.
    intros Hrun. by apply AssetMigrationSource_range_ok in Hrun as [Hids _]. }
  exists (plan Up <$> sort_Sort ms). eexists. split.
  - rewrite (@PlanMigration_ok fault sort_Sort AssetMigrationSource.t
               (AssetMigrationSource_FindMigrations path_Join SplitSQLStatements)
               dialect a Up 0 w d ms (sort_Sort ms));
      [by rewrite capped_zero | done..|].
    rewrite Hempty, ToApply_Up_drop, leading_none; [done|].
    apply Forall_forall. intros x Hx Hle. apply le_empty_inv in Hle.
    assert (Migration.Id x ∈ filter (λ name, HasSuffix name ".sql" = true) files) as Hin.
    { rewrite <- Hids. apply list_elem_of_fmap_2. by rewrite <- (Hperm ms). }
    apply list_elem_of_filter in Hin as [Hsuf _]. by rewrite Hle in Hsuf.
  - rewrite <- list_fmap_compose.
    change (PlannedMigration.Id ∘ plan Up) with Migration.Id.
    by rewrite (Hperm ms), Hids.
Qed.

End SourcesPlanned.

(** ** Instances of the further properties on the sample data *)


Lemma ToApply_watermark_monotone_witness :
  ∃ up up',
    ToApply [sample_001; sample_002; sample_003] "001" Up = Done up ∧
    ToApply [sample_001; sample_002; sample_003] "002" Up = Done up' ∧
    up' `suffix_of` up.
Proof.
  destruct (ToApply_watermark_monotone [sample_001; sample_002; sample_003] "001" "002")
    as (up & up' & _ & _ & Hup & Hup' & _ & _ & Hsuf & _).
  - vm_compute. exact I.
  - by exists up, up'.
Defined.

Lemma ToApply_Up_skips_empty_id_witness :
  Forall (λ m, Migration.Id m ≠ "") [sample_002; sample_003].
Proof.
  apply (ToApply_Up_skips_empty_id [sample_001; sample_002; sample_003] _ "001").
  - repeat constructor.
  - reflexivity.
Defined.

Lemma byId_Swap_exchanges_witness :
  ∃ b',
    byId.Swap [sample_001; sample_002; sample_003] 0 2 = Done b' ∧
    b' ≡ₚ [sample_001; sample_002; sample_003].
Proof.
  destruct (byId_Swap_exchanges [sample_001; sample_002; sample_003] 0 2)
    as (b' & Hswap & Hperm & _); [simpl; lia | simpl; lia |].
  by exists b'.
Defined.

Lemma ExecMax_returns_without_nil_witness :
  ∃ w' n r,
    Pointers.ExecMax (fault_on CallCommit) sample_pointer_sort "sqlite3"
      (pointer_memory [Some sample_002; Some sample_001]) Down 0 world_with_001
    = (w', Done (n, r)).
Proof.
  apply ExecMax_returns_without_nil.
  - apply sample_pointer_sort_returns.
  - intros _. repeat constructor; done.
  - by right.
Defined.

Lemma ExecMax_Up_count_is_progress_witness :
  ∃ w',
    ExecMax (fault_on (CallExec "ALTER TABLE t ADD y int")) sample_sort "sqlite3"
      (memory [sample_002; sample_001; sample_003]) Up 0 empty_world
    = (w', Done (1, Some (Errorf "driver: bad connection"))) ∧
    ids (ledger (committed w')) = ["001"].
Proof.
  set (fault := fault_on (CallExec "ALTER TABLE t ADD y int")).
  set (src := memory [sample_002; sample_001; sample_003]).
  set (w' := (ExecMax fault sample_sort "sqlite3" src Up 0 empty_world).1).
  assert (ExecMax fault sample_sort "sqlite3" src Up 0 empty_world
          = (w', Done (1, Some (Errorf "driver: bad connection")))) as Hrun
    by (vm_compute; reflexivity).
  destruct (ExecMax_Up_count_is_progress fault sample_sort "sqlite3" src 0 empty_world w'
              1 _ Hrun) as (w & planned & dbMap & err & Hp & _ & _ & Hids & _).
  exists w'. split; [exact Hrun|].
  rewrite Hids. vm_compute in Hp. injection Hp as _ <- _ _. reflexivity.
Defined.

Lemma ExecMax_Down_count_is_progress_witness :
  ∃ w',
    ExecMax no_fault sample_sort "sqlite3" (memory [sample_002; sample_001]) Down 1
      world_with_001
    = (w', Done (1, None)) ∧
    ledger (committed w') = [].
Proof.
  set (src := memory [sample_002; sample_001]).
  set (w' := (ExecMax no_fault sample_sort "sqlite3" src Down 1 world_with_001).1).
  assert (ExecMax no_fault sample_sort "sqlite3" src Down 1 world_with_001
          = (w', Done (1, None))) as Hrun by (vm_compute; reflexivity).
  destruct (ExecMax_Down_count_is_progress no_fault sample_sort "sqlite3" src 1
              world_with_001 w' 1 _ Hrun) as (w & planned & dbMap & err & Hp & _ & _ & Hl & _).
  exists w'. split; [exact Hrun|].
  rewrite Hl. vm_compute in Hp. injection Hp as _ <- _ _. reflexivity.
Defined.

Lemma ExecMax_at_most_max_witness :
  ∃ w' n r,
    ExecMax no_fault sample_sort "sqlite3" (memory [sample_002; sample_001; sample_003])
      Up 2 empty_world = (w', Done (n, r)) ∧
    0 ≤ n ≤ 2.
Proof.
  eexists _, _, _. split; [vm_compute; reflexivity|].
  eapply (ExecMax_at_most_max no_fault sample_sort "sqlite3"
            (memory [sample_002; sample_001; sample_003]) Up 2 empty_world);
    [lia | vm_compute; reflexivity].
Defined.


Lemma ExecMax_begin_failure_witness :
  ExecMax (fault_on CallBegin) sample_sort "sqlite3" (memory [sample_001]) Up 0 empty_world
  = (log CallBegin (planned_world empty_world),
     Done (0, Some (Errorf "driver: bad connection"))).
Proof.
  apply (ExecMax_begin_failure (fault_on CallBegin) sample_sort "sqlite3"
           (memory [sample_001]) Up 0 empty_world (planned_world empty_world)
           (planned_world empty_world)
           {| DbMap.Dialect := SqliteDialect; DbMap.TableName := "gorp_migrations" |}
           [] [] (plan Up sample_001) 0 "driver: bad connection").
  - vm_compute. reflexivity.
  - reflexivity.
  - reflexivity.
Defined.

Lemma ExecMax_commit_failure_witness :
  ∃ w',
    ExecMax (fault_on CallCommit) sample_sort "sqlite3" (memory [sample_001]) Up 0
      empty_world
    = (w', Done (0, Some (Errorf "driver: bad connection"))) ∧
    committed w' = empty_store ∧ open w' = [].
Proof.
  set (fault := fault_on CallCommit).
  set (dbMap := {| DbMap.Dialect := SqliteDialect; DbMap.TableName := "gorp_migrations" |}).
  set (w1 := planned_world empty_world).
  set (w2 := (exec_queries fault (PlannedMigration.Queries (plan Up sample_001))
                (set_open (committed w1 :: open w1) (log CallBegin w1))).1).
  set (w3 := (record_migration fault Up "001" w2).1).
  destruct (ExecMax_commit_failure fault sample_sort "sqlite3" (memory [sample_001]) Up 0
              empty_world w1 w1 w2 w3 dbMap [] [] (plan Up sample_001) 0
              "driver: bad connection")
    as (w' & Hrun & _ & Hc & Ho & _).
  - vm_compute. reflexivity.
  - reflexivity.
  - reflexivity.
  - vm_compute. reflexivity.
  - vm_compute. reflexivity.
  - reflexivity.
  - exists w'. split_and!; [exact Hrun | by rewrite Hc | by rewrite Ho].
Defined.

Lemma ExecMax_success_trace_witness :
  ∃ w',
    ExecMax no_fault sample_sort "sqlite3" (memory [sample_001]) Up 0 empty_world
    = (w', Done (1, None)) ∧
    calls w'
    = [CallCreateTables; CallFindMigrations; CallSelectOne; CallBegin;
       CallExec "CREATE TABLE t(x int)"; CallInsert "001"; CallCommit].
Proof.
  set (src := memory [sample_001]).
  set (w' := (ExecMax no_fault sample_sort "sqlite3" src Up 0 empty_world).1).
  assert (ExecMax no_fault sample_sort "sqlite3" src Up 0 empty_world
          = (w', Done (1, None))) as Hrun by (vm_compute; reflexivity).
  destruct (ExecMax_success_trace no_fault sample_sort "sqlite3" src Up 0 empty_world w' 1
              (or_introl eq_refl) Hrun) as (w & planned & dbMap & Hp & _ & Hcalls & _).
  exists w'. split; [exact Hrun|].
  rewrite Hcalls. vm_compute in Hp. injection Hp as _ <- _. reflexivity.
Defined.

Lemma PlanMigration_create_failure_witness :
  ExecMax (fault_on CallCreateTables) sample_sort "sqlite3" (memory [sample_001]) Up 0
    empty_world
  = (log CallCreateTables empty_world, Done (0, Some (Errorf "driver: bad connection"))).
Proof.
  apply (PlanMigration_create_failure (fault_on CallCreateTables) sample_sort "sqlite3"
           (memory [sample_001]) Up 0 empty_world SqliteDialect); reflexivity.
Defined.

Lemma PlanMigration_source_failure_witness :
  @ExecMax no_fault sample_sort _ sample_asset_source "sqlite3" sample_assets_missing
    Up 0 empty_world
  = (log CallFindMigrations (log CallCreateTables empty_world),
     Done (0, Some (Errorf "asset dir not found"))).
Proof.
  apply (@PlanMigration_source_failure no_fault sample_sort _ sample_asset_source
           "sqlite3" sample_assets_missing Up 0 empty_world SqliteDialect []);
    reflexivity.
Defined.

Lemma PlanMigration_select_failure_witness :
  ExecMax (fault_on CallSelectOne) sample_sort "sqlite3" (memory [sample_001]) Up 0
    empty_world
  = (planned_world empty_world, Done (0, Some (Errorf "driver: bad connection"))).
Proof.
  apply (PlanMigration_select_failure (fault_on CallSelectOne) sample_sort "sqlite3"
           (memory [sample_001]) Up 0 empty_world SqliteDialect [sample_001]); reflexivity.
Defined.


Lemma ExecMax_nonpositive_max_witness :
  ExecMax no_fault sample_sort "sqlite3" (memory [sample_002; sample_001]) Up (-3)
    empty_world
  = Exec no_fault sample_sort "sqlite3" (memory [sample_002; sample_001]) Up empty_world.
Proof.
  apply (ExecMax_nonpositive_max no_fault sample_sort "sqlite3"
           (memory [sample_002; sample_001]) Up (-3) empty_world).
  lia.
Defined.

Lemma PlanMigration_first_run_witness :
  PlanMigration no_fault sample_sort "sqlite3" (memory [sample_002; sample_001]) Up 0
    empty_world
  = (planned_world empty_world,
     Done (plan Up <$> sample_sort [sample_002; sample_001],
           Some {| DbMap.Dialect := SqliteDialect; DbMap.TableName := "gorp_migrations" |},
           None)).
Proof.
  apply (PlanMigration_first_run no_fault sample_sort "sqlite3"
           (memory [sample_002; sample_001]) empty_world SqliteDialect
           [sample_002; sample_001]); try reflexivity.
  - intros l. apply sample_sort_contract.
  - repeat constructor; discriminate.
Defined.

Lemma ExecMax_Up_resumes_witness :
  ∃ w',
    ExecMax (fault_on (CallExec "ALTER TABLE t ADD y int")) sample_sort "sqlite3"
      (memory [sample_002; sample_001; sample_003]) Up 0 empty_world
    = (w', Done (1, Some (Errorf "driver: bad connection"))) ∧
    ToApply (sample_sort [sample_002; sample_001; sample_003])
      (watermark (ledger (committed w'))) Up
    = Done [sample_002; sample_003].
Proof.
  set (fault := fault_on (CallExec "ALTER TABLE t ADD y int")).
  set (src := memory [sample_002; sample_001; sample_003]).
  set (w' := (ExecMax fault sample_sort "sqlite3" src Up 0 empty_world).1).
  assert (ExecMax fault sample_sort "sqlite3" src Up 0 empty_world
          = (w', Done (1, Some (Errorf "driver: bad connection")))) as Hrun
    by (vm_compute; reflexivity).
  destruct (ExecMax_Up_resumes fault sample_sort "sqlite3" src
              [sample_002; sample_001; sample_003] empty_world w' 1
              (Some (Errorf "driver: bad connection"))
              sample_sort_contract eq_refl) as (pending & Hp & _ & Hnext).
  - apply (bool_decide_unpack (NoDup _)). vm_compute. exact I.
  - exact Hrun.
  - exists w'. split; [exact Hrun|].
    rewrite Hnext. vm_compute in Hp. injection Hp as <-. reflexivity.
Defined.

Lemma ExecMax_Up_applies_all_pending_witness :
  ∃ w1,
    ExecMax no_fault sample_sort "sqlite3" (memory [sample_003; sample_002; sample_001])
      Up 0 world_with_001
    = (w1, Done (2, None)) ∧
    ids (ledger (committed w1)) = ["001"; "002"; "003"].
Proof.
  destruct (ExecMax_Up_applies_all_pending no_fault sample_sort "sqlite3"
              (memory [sample_003; sample_002; sample_001]) SqliteDialect
              [sample_003; sample_002; sample_001] world_with_001)
    as (w1 & pending & -> & Hrun & Hids & _).
  - done.
  - apply sample_sort_contract.
  - reflexivity.
  - reflexivity.
  - apply (bool_decide_unpack (NoDup _)). vm_compute. exact I.
  - exists w1. split; [exact Hrun | exact Hids].
Defined.

Lemma ExecMax_Down_one_reverts_newest_witness :
  ∃ w1,
    ExecMax no_fault sample_sort "sqlite3" (memory [sample_002; sample_001]) Down 1
      world_with_001
    = (w1, Done (1, None)) ∧
    ledger (committed w1) = [] ∧
    statements (committed w1) = ["CREATE TABLE t(x int)"; "DROP TABLE t"].
Proof.
  destruct (ExecMax_Down_one_reverts_newest no_fault sample_sort "sqlite3"
              (memory [sample_002; sample_001]) SqliteDialect
              [sample_002; sample_001] sample_001 world_with_001)
    as (w1 & Hrun & Hl & Hs).
  - done.
  - apply sample_sort_contract.
  - reflexivity.
  - reflexivity.
  - apply (bool_decide_unpack (NoDup _)). vm_compute. exact I.
  - apply list_elem_of_further, list_elem_of_here.
  - reflexivity.
  - exists w1. split_and!; [exact Hrun | by rewrite Hl | by rewrite Hs].
Defined.

Lemma AssetMigrationSource_FindMigrations_ids_witness :
  ∃ ms,
    AssetMigrationSource_FindMigrations sample_join sample_split sample_assets = (ms, None) ∧
    Migration.Id <$> ms = ["002.sql"; "001.sql"].
Proof.
  eexists. split; [vm_compute; reflexivity|].
  eapply (AssetMigrationSource_FindMigrations_ids sample_join sample_split sample_assets
            ["002.sql"; "README"; "001.sql"]); reflexivity.
Defined.

Lemma AssetMigrationSource_FindMigrations_all_or_none_witness :
  ∃ ms,
    AssetMigrationSource_FindMigrations sample_join sample_split sample_assets = (ms, None).
Proof.
  apply (AssetMigrationSource_FindMigrations_all_or_none sample_join sample_split
           sample_assets ["002.sql"; "README"; "001.sql"] eq_refl).
  repeat constructor; intros Hsuf; try discriminate Hsuf;
    eexists _, _; split; reflexivity.
Defined.

Lemma FileMigrationSource_FindMigrations_ids_witness :
  ∃ ms,
    FileMigrationSource_FindMigrations sample_join sample_split sample_open
      sample_readdir sample_reader (FileMigrationSource.mk "db") = (ms, None) ∧
    Migration.Id <$> ms
    = filter (λ name, HasSuffix name ".sql" = true) ["002.sql"; "README"; "001.sql"] ∧
    FileMigrationSource_FindMigrations sample_join sample_split sample_open
      sample_readdir sample_reader (FileMigrationSource.mk "nowhere")
    = ([], Some (Errorf "no such file or directory")).
Proof.
  eexists. split; [vm_compute; reflexivity|].
  split;
    [|exact (FileMigrationSource_FindMigrations_ids sample_join sample_split sample_open
               sample_readdir sample_reader (FileMigrationSource.mk "nowhere"))].
  pose proof (FileMigrationSource_FindMigrations_ids sample_join sample_split sample_open
                sample_readdir sample_reader (FileMigrationSource.mk "db")) as Hspec.
  change (sample_open (FileMigrationSource.Dir (FileMigrationSource.mk "db")))
    with ("db", @None error) in Hspec.
  change (sample_readdir "db" 0)
    with ([FileInfo.mk "002.sql"; FileInfo.mk "README"; FileInfo.mk "001.sql"],
          @None error) in Hspec.
  cbv beta iota in Hspec.
  destruct Hspec as (_ & Hids & _).
  apply Hids. vm_compute. reflexivity.
Defined.

Lemma AssetMigrationSource_first_run_witness :
  ∃ planned dbMap,
    @PlanMigration no_fault sample_sort _ sample_asset_source "sqlite3" sample_assets
      Up 0 empty_world
    = (planned_world empty_world, Done (planned, Some dbMap, None)) ∧
    PlannedMigration.Id <$> planned ≡ₚ ["002.sql"; "001.sql"].
Proof.
  destruct (AssetMigrationSource_first_run no_fault sample_sort sample_join sample_split
              "sqlite3" sample_assets empty_world SqliteDialect
              ["002.sql"; "README"; "001.sql"]
              (AssetMigrationSource_FindMigrations sample_join sample_split sample_assets).1)
    as (planned & dbMap & Hp & Hids); try reflexivity.
  - intros l. apply sample_sort_contract.
  - by exists planned, dbMap.
Defined.
